(** * LiDAR 3D visualizer: registries and the beam engine

    A shallow embedding of [src/scene/sensor.ts], [src/scene/obstacle.ts],
    [src/scene/world.ts] and [src/scene/beams.ts].

    Numbers.  The program computes with JavaScript numbers.  Quantities that
    are only added, multiplied, divided, compared and rounded up (degrees,
    coordinates, ranges, distances) are exact rationals [Q]; quantities that
    go through [Math.sin], [Math.cos], [Math.tan] or a square root
    (radians, directions, quaternions) are reals [R].  Rounding of IEEE
    doubles is outside the model.

    Objects.  A [Map] is an association list in insertion order.  Objects
    that the program compares by reference carry the numeric id that
    three.js gives every [Object3D] and every [BufferGeometry]. *)

From Stdlib Require Import ZArith QArith Qround Qreals Reals RNsatz Lra Lia.
From Stdlib Require Import List String Bool Permutation Sorted.
Import ListNotations.

Set Implicit Arguments.

(* ------------------------------------------------------------------ *)
(** ** Insertion-ordered maps with string keys (the ES2015 [Map]) *)

Module JSMap.
Section Defs.
Context {V : Type}.

Definition t := list (string * V).

Definition empty : t := [].

Fixpoint get (k : string) (m : t) : option V :=
  match m with
  | [] => None
  | (k', v) :: m' => if String.eqb k k' then Some v else get k m'
  end.

(** [set] keeps the position of a key that is present and appends a new
    key at the end. *)
Fixpoint set (k : string) (v : V) (m : t) : t :=
  match m with
  | [] => [(k, v)]
  | (k', v') :: m' =>
      if String.eqb k k' then (k, v) :: m' else (k', v') :: set k v m'
  end.

Definition delete (k : string) (m : t) : t :=
  filter (fun e => negb (String.eqb k (fst e))) m.

Definition has (k : string) (m : t) : bool :=
  existsb (fun e => String.eqb k (fst e)) m.

Definition keys (m : t) : list string := map fst m.

Definition values (m : t) : list V := map snd m.

Definition size (m : t) : nat := List.length m.

(** What one step of a loop does to a map when all it can do is delete a
    key, delete a key and set it again, or nothing. *)
Inductive Touch : Type :=
| Clear (k : string)
| Renew (k : string) (v : V)
| Skip.

Definition touch (c : Touch) (m : t) : t :=
  match c with
  | Clear k => delete k m
  | Renew k v => set k v (delete k m)
  | Skip => m
  end.

Definition touches (c : Touch) (k : string) : bool :=
  match c with
  | Clear k' | Renew k' _ => String.eqb k' k
  | Skip => false
  end.

Definition run (cs : list Touch) (m : t) : t :=
  fold_left (fun acc c => touch c acc) cs m.

Definition touched (cs : list Touch) (k : string) : bool :=
  existsb (fun c => touches c k) cs.
End Defs.
Arguments t : clear implicits.
Arguments Touch : clear implicits.

(** The same keys in the same order, each value seen through [h]. *)
Definition mapValues {V W : Type} (h : V -> W) (m : t V) : t W :=
  map (fun e : string * V => (fst e, h (snd e))) m.

(** The same, when the view of a value also depends on its key. *)
Definition mapEntries {V W : Type} (h : string -> V -> W) (m : t V) : t W :=
  map (fun e : string * V => (fst e, h (fst e) (snd e))) m.

(** The map that [set]s build from a list of records keyed by [key]. *)
Definition ofList {V : Type} (key : V -> string) (l : list V) : t V :=
  fold_left (fun m v => set (key v) v m) l empty.

(** Every entry is filed under its own key, and no key occurs twice. *)
Definition keyed {V : Type} (key : V -> string) (m : t V) : Prop :=
  NoDup (keys m) /\ forall k v, In (k, v) m -> key v = k.
End JSMap.

(* ------------------------------------------------------------------ *)
(** ** The part of three.js the program calls *)

Module Three.
Local Open Scope R_scope.

Record Vector3 (A : Type) : Type :=
  mkVector3 { vx : A; vy : A; vz : A }.

Record Quaternion : Type :=
  mkQuaternion { qx : R; qy : R; qz : R; qw : R }.

(** An [Euler] whose order is ["YXZ"], the only order the program uses. *)
Record Euler : Type := mkEuler { ex : R; ey : R; ez : R }.

(** [MathUtils.degToRad]: degrees times [Math.PI / 180]. *)
Definition degToRad (degrees : Q) : R := (Q2R degrees * (PI / 180))%R.

(** [Quaternion.setFromEuler] in the case ["YXZ"]. *)
Definition setFromEuler (e : Euler) : Quaternion :=
  let c1 := cos (ex e / 2) in
  let c2 := cos (ey e / 2) in
  let c3 := cos (ez e / 2) in
  let s1 := sin (ex e / 2) in
  let s2 := sin (ey e / 2) in
  let s3 := sin (ez e / 2) in
  mkQuaternion
    (s1 * c2 * c3 + c1 * s2 * s3)
    (c1 * s2 * c3 - s1 * c2 * s3)
    (c1 * c2 * s3 - s1 * s2 * c3)
    (c1 * c2 * c3 + s1 * s2 * s3)%R.

(** [Quaternion.setFromAxisAngle] for the three coordinate axes. *)
Definition axisAngleX (a : R) : Quaternion :=
  mkQuaternion (sin (a / 2)) 0 0 (cos (a / 2)).
Definition axisAngleY (a : R) : Quaternion :=
  mkQuaternion 0 (sin (a / 2)) 0 (cos (a / 2)).
Definition axisAngleZ (a : R) : Quaternion :=
  mkQuaternion 0 0 (sin (a / 2)) (cos (a / 2)).

(** [Quaternion.multiplyQuaternions]. *)
Definition multiplyQuaternions (a b : Quaternion) : Quaternion :=
  mkQuaternion
    (qx a * qw b + qw a * qx b + qy a * qz b - qz a * qy b)
    (qy a * qw b + qw a * qy b + qz a * qx b - qx a * qz b)
    (qz a * qw b + qw a * qz b + qx a * qy b - qy a * qx b)
    (qw a * qw b - qx a * qx b - qy a * qy b - qz a * qz b)%R.

(** [Vector3.applyQuaternion]: [v + w t + q x t] with [t = 2 (q x v)]. *)
Definition applyQuaternion (q : Quaternion) (v : Vector3 R) : Vector3 R :=
  let tx := (2 * (qy q * vz v - qz q * vy v))%R in
  let ty := (2 * (qz q * vx v - qx q * vz v))%R in
  let tz := (2 * (qx q * vy v - qy q * vx v))%R in
  mkVector3
    (vx v + qw q * tx + qy q * tz - qz q * ty)
    (vy v + qw q * ty + qz q * tx - qx q * tz)
    (vz v + qw q * tz + qx q * ty - qy q * tx)%R.

Definition lengthSq (v : Vector3 R) : R :=
  vx v * vx v + vy v * vy v + vz v * vz v.

Definition length (v : Vector3 R) : R := sqrt (lengthSq v).

(** [Vector3.normalize]: [divideScalar (length () || 1)]. *)
Definition normalize (v : Vector3 R) : Vector3 R :=
  let l := length v in
  let s := if Req_EM_T l 0 then 1%R else l in
  mkVector3 (vx v / s) (vy v / s) (vz v / s)%R.

(** Rotations about the coordinate axes, as matrices applied to a
    vector; used to say what a quaternion does. *)
Definition rotateX (a : R) (v : Vector3 R) : Vector3 R :=
  mkVector3 (vx v)
            (cos a * vy v - sin a * vz v)
            (sin a * vy v + cos a * vz v)%R.
Definition rotateY (a : R) (v : Vector3 R) : Vector3 R :=
  mkVector3 (cos a * vx v + sin a * vz v)
            (vy v)
            (- sin a * vx v + cos a * vz v)%R.
Definition rotateZ (a : R) (v : Vector3 R) : Vector3 R :=
  mkVector3 (cos a * vx v - sin a * vy v)
            (sin a * vx v + cos a * vy v)
            (vz v)%R.

End Three.

(* ------------------------------------------------------------------ *)
(** ** Sensor definitions and the angular grid *)

Module Grid.
Import Three.
Local Open Scope Q_scope.

Inductive BeamLayout : Type := verticalEven | singlePlane.

Record SensorDefinition : Type := mkSensorDefinition {
  def_id : string;
  displayName : string;
  hFov : Q;          (* degrees *)
  vFov : Q;          (* degrees *)
  maxRange : Q;      (* meters *)
  channels : Z;      (* a whole number of rings *)
  beamLayout : BeamLayout;
  modelFile : string
}.

(** [definition.vFov / Math.max(1, definition.channels - 1)] *)
Definition vAngleStep (d : SensorDefinition) : Q :=
  vFov d / inject_Z (Z.max 1 (channels d - 1)).

(** The vertical angle of channel [i], in radians. *)
Definition vAngleRad (d : SensorDefinition) (i : Z) : R :=
  if (channels d =? 1)%Z then 0%R
  else match beamLayout d with
       | verticalEven =>
           degToRad (- (vFov d / 2) + inject_Z i * vAngleStep d)
       | singlePlane => 0%R
       end.

(** [(definition.hFov === 360) ? 72 : Math.ceil(definition.hFov / 5)] *)
Definition numHorizontalSteps (d : SensorDefinition) : Z :=
  if Qeq_bool (hFov d) 360 then 72%Z else Qceiling (hFov d / 5).

(** The horizontal angle of step [j], in radians. *)
Definition hAngleRad (d : SensorDefinition) (j : Z) : R :=
  degToRad (- (hFov d / 2)
            + inject_Z j * (hFov d / inject_Z (numHorizontalSteps d))).

(** The values a loop [for (let k = 0; k < n; k++)] gives to [k]. *)
Definition loopIndices (n : Z) : list Z :=
  map Z.of_nat (seq 0 (Z.to_nat n)).

(** The vertical angles of a sensor, one per channel. *)
Definition verticalAngles (d : SensorDefinition) : list R :=
  map (vAngleRad d) (loopIndices (channels d)).

(** The direction of ray [(i, j)] in the sensor's frame and in the world. *)
Definition localDirection (hAngle vAngle : R) : Vector3 R :=
  mkVector3 (sin hAngle * cos vAngle)%R
            (sin vAngle)
            (cos hAngle * cos vAngle)%R.

Definition rayDirection (q : Quaternion) (d : SensorDefinition) (i j : Z)
  : Vector3 R :=
  normalize (applyQuaternion q (localDirection (hAngleRad d j)
                                               (vAngleRad d i))).

End Grid.

(* ------------------------------------------------------------------ *)
(** ** The scene and the resources three.js hands out *)

Module Scene.
Local Open Scope nat_scope.

(** [nextObjectId] and [nextGeometryId] are the counters from which
    three.js numbers every [Object3D] and every [BufferGeometry];
    [sceneChildren] lists the ids of the children of the scene;
    [liveGeometries] lists the geometries created and not yet disposed. *)
Record Runtime : Type := mkRuntime {
  nextObjectId : nat;
  nextGeometryId : nat;
  sceneChildren : list nat;
  liveGeometries : list nat
}.

Definition initial : Runtime := mkRuntime 0 0 [] [].

(** [new THREE.Mesh (...)], [new THREE.Group ()]: a fresh object id. *)
Definition newObject (rt : Runtime) : nat * Runtime :=
  (nextObjectId rt,
   mkRuntime (S (nextObjectId rt)) (nextGeometryId rt)
             (sceneChildren rt) (liveGeometries rt)).

(** [new THREE.BoxGeometry (...)] and the like: a fresh geometry id. *)
Definition newGeometry (rt : Runtime) : nat * Runtime :=
  (nextGeometryId rt,
   mkRuntime (nextObjectId rt) (S (nextGeometryId rt))
             (sceneChildren rt) (nextGeometryId rt :: liveGeometries rt)).

(** [geometry.dispose ()] *)
Definition dispose (g : nat) (rt : Runtime) : Runtime :=
  mkRuntime (nextObjectId rt) (nextGeometryId rt)
            (sceneChildren rt) (remove Nat.eq_dec g (liveGeometries rt)).

(** [scene.remove (object)]; an object occurs at most once among the
    children of its parent. *)
Definition sceneRemove (o : nat) (rt : Runtime) : Runtime :=
  mkRuntime (nextObjectId rt) (nextGeometryId rt)
            (remove Nat.eq_dec o (sceneChildren rt)) (liveGeometries rt).

(** [scene.add (object)]: the object leaves its former parent and becomes
    the last child. *)
Definition sceneAdd (o : nat) (rt : Runtime) : Runtime :=
  mkRuntime (nextObjectId rt) (nextGeometryId rt)
            (remove Nat.eq_dec o (sceneChildren rt) ++ [o])
            (liveGeometries rt).

(** [rt'] comes after [rt]: the counters have not gone back, and what is
    in the scene or live in [rt'] was so in [rt] or has been numbered
    since. *)
Definition grows (rt rt' : Runtime) : Prop :=
  nextObjectId rt <= nextObjectId rt'
  /\ nextGeometryId rt <= nextGeometryId rt'
  /\ (forall o, In o (sceneChildren rt') ->
                In o (sceneChildren rt) \/ nextObjectId rt <= o)
  /\ (forall x, In x (liveGeometries rt') ->
                In x (liveGeometries rt) \/ nextGeometryId rt <= x).

End Scene.

(* ------------------------------------------------------------------ *)
(** ** [sensor.ts]: the sensor catalog and the placed sensors *)

Module Sensor.
Import Three Grid Scene.

Record Rotation : Type := mkRotation { roll : Q; pitch : Q; yaw : Q }.

Record PlacedSensorData : Type := mkPlacedSensorData {
  sensor_id : string;
  definitionId : string;
  position : Vector3 Q;
  rotation : Rotation;
  visible : bool
}.

(** The [THREE.Group] of a placed sensor.  Its children (the model that
    [GLTFLoader] delivers later, or the placeholder box) are not
    modelled. *)
Record Group : Type := mkGroup {
  group_id : nat;
  group_name : string;
  group_position : Vector3 Q;
  group_rotation : Euler;
  group_visible : bool
}.

(** [sensorGroup.quaternion] follows [sensorGroup.rotation]. *)
Definition quaternion (g : Group) : Quaternion :=
  setFromEuler (group_rotation g).

(** [rotation.set (degToRad (pitch), degToRad (yaw), degToRad (roll), "YXZ")] *)
Definition eulerOfRotation (r : Rotation) : Euler :=
  mkEuler (degToRad (pitch r)) (degToRad (yaw r)) (degToRad (roll r)).

(** The orientation as the specification words it: yaw about the
    vertical axis (Y), then pitch about the lateral axis (X), then roll
    about the forward axis (Z), each about the axis as the rotations
    before it have turned it; as quaternions, the product in that
    order. *)
Definition orientationFromYawPitchRoll (r : Rotation) : Quaternion :=
  multiplyQuaternions
    (multiplyQuaternions (axisAngleY (degToRad (yaw r)))
                         (axisAngleX (degToRad (pitch r))))
    (axisAngleZ (degToRad (roll r))).

Record SensorManager : Type := mkSensorManager {
  sensorDefinitions : JSMap.t SensorDefinition;
  placedSensors : JSMap.t Group;
  placedSensorData : JSMap.t PlacedSensorData
}.

Definition empty : SensorManager := mkSensorManager [] [] [].

(** The effect of [loadSensorDefinitions] once the list has been fetched. *)
Definition loadSensorDefinitions
  (definitions : list SensorDefinition) (sm : SensorManager)
  : SensorManager :=
  mkSensorManager
    (fold_left (fun m def => JSMap.set (def_id def) def m)
               definitions (sensorDefinitions sm))
    (placedSensors sm) (placedSensorData sm).

Definition getSensorDefinitions (sm : SensorManager)
  : list SensorDefinition :=
  JSMap.values (sensorDefinitions sm).

Definition getSensorDefinitionById (id : string) (sm : SensorManager)
  : option SensorDefinition :=
  JSMap.get id (sensorDefinitions sm).

(** The group, the scene and the two maps as [addSensor] leaves them.
    The two callbacks handed to [gltfLoader.load] run later, if at all:
    they give the group a child (the model, or the placeholder box with
    its geometry and material), which the [Group] record does not hold
    and the counters of [Runtime] do not count. *)
Definition addSensor (data : PlacedSensorData)
  (st : Runtime * SensorManager) : Runtime * SensorManager :=
  let (rt, sm) := st in
  match JSMap.get (definitionId data) (sensorDefinitions sm) with
  | None => st
  | Some _ =>
      let (oid, rt1) := newObject rt in
      let sensorGroup :=
        mkGroup oid (sensor_id data) (position data)
                (eulerOfRotation (rotation data)) (visible data) in
      (sceneAdd oid rt1,
       mkSensorManager
         (sensorDefinitions sm)
         (JSMap.set (sensor_id data) sensorGroup (placedSensors sm))
         (JSMap.set (sensor_id data) data (placedSensorData sm)))
  end.

Definition getPlacedSensorById (id : string) (sm : SensorManager)
  : option Group :=
  JSMap.get id (placedSensors sm).

Definition getPlacedSensorDataById (id : string) (sm : SensorManager)
  : option PlacedSensorData :=
  JSMap.get id (placedSensorData sm).

Definition getAllPlacedSensorData (sm : SensorManager)
  : list PlacedSensorData :=
  JSMap.values (placedSensorData sm).

Definition updateSensor (id : string) (newPosition : option (Vector3 Q))
  (newRotation : option Rotation) (sm : SensorManager) : SensorManager :=
  match JSMap.get id (placedSensors sm), JSMap.get id (placedSensorData sm)
  with
  | Some sensorGroup, Some sensorData =>
      let (g1, d1) :=
        match newPosition with
        | Some p =>
            (mkGroup (group_id sensorGroup) (group_name sensorGroup) p
                     (group_rotation sensorGroup)
                     (group_visible sensorGroup),
             mkPlacedSensorData (sensor_id sensorData)
                     (definitionId sensorData) p (rotation sensorData)
                     (visible sensorData))
        | None => (sensorGroup, sensorData)
        end in
      let (g2, d2) :=
        match newRotation with
        | Some r =>
            (mkGroup (group_id g1) (group_name g1) (group_position g1)
                     (eulerOfRotation r) (group_visible g1),
             mkPlacedSensorData (sensor_id d1) (definitionId d1)
                     (position d1) r (visible d1))
        | None => (g1, d1)
        end in
      mkSensorManager (sensorDefinitions sm)
                      (JSMap.set id g2 (placedSensors sm))
                      (JSMap.set id d2 (placedSensorData sm))
  | _, _ => sm
  end.

(** The scene and the two maps as [removeSensor] leaves them.  The
    [traverse] that disposes of the geometry and materials of the
    meshes below the group acts on the children that the loader gave
    it, which are not modelled: the live geometries of [Runtime] are
    those of obstacles, floor and beams only. *)
Definition removeSensor (id : string)
  (st : Runtime * SensorManager) : Runtime * SensorManager :=
  let (rt, sm) := st in
  match JSMap.get id (placedSensors sm) with
  | Some sensorGroup =>
      (sceneRemove (group_id sensorGroup) rt,
       mkSensorManager (sensorDefinitions sm)
                       (JSMap.delete id (placedSensors sm))
                       (JSMap.delete id (placedSensorData sm)))
  | None => st
  end.

Definition setSensorVisibility (id : string) (v : bool)
  (sm : SensorManager) : SensorManager :=
  match JSMap.get id (placedSensors sm), JSMap.get id (placedSensorData sm)
  with
  | Some g, Some d =>
      mkSensorManager
        (sensorDefinitions sm)
        (JSMap.set id (mkGroup (group_id g) (group_name g)
                               (group_position g) (group_rotation g) v)
                   (placedSensors sm))
        (JSMap.set id (mkPlacedSensorData (sensor_id d) (definitionId d)
                                          (position d) (rotation d) v)
                   (placedSensorData sm))
  | _, _ => sm
  end.

(** What a sensor group holds besides its identity, and what
    [addSensor] puts there for a record. *)
Definition GroupRecord : Type := (string * Vector3 Q * Euler * bool)%type.

Definition groupRecord (g : Group) : GroupRecord :=
  (group_name g, group_position g, group_rotation g, group_visible g).

Definition groupOfData (d : PlacedSensorData) : GroupRecord :=
  (sensor_id d, position d, eulerOfRotation (rotation d), visible d).

(** The state the operations of the manager keep: every record is filed
    under its id, no id occurs twice, and the groups are those of the
    records, in the same order. *)
Definition wellFormed (sm : SensorManager) : Prop :=
  JSMap.keyed sensor_id (placedSensorData sm)
  /\ JSMap.mapValues groupRecord (placedSensors sm)
     = JSMap.mapValues groupOfData (placedSensorData sm).

(** The definition of a record is in the catalog. *)
Definition resolvable (sm : SensorManager) (d : PlacedSensorData) : bool :=
  match getSensorDefinitionById (definitionId d) sm with
  | Some _ => true
  | None => false
  end.

Definition serializeSensors (sm : SensorManager) : list PlacedSensorData :=
  JSMap.values (placedSensorData sm).

Definition deserializeSensors (data : list PlacedSensorData)
  (st : Runtime * SensorManager) : Runtime * SensorManager :=
  let cleared :=
    fold_left (fun acc s => removeSensor (sensor_id s) acc)
              (getAllPlacedSensorData (snd st)) st in
  fold_left (fun acc sensorData => addSensor sensorData acc) data cleared.

End Sensor.

(* ------------------------------------------------------------------ *)
(** ** [obstacle.ts]: the obstacle registry *)

Module Obstacle.
Import Three Scene.

Record Dimensions : Type :=
  mkDimensions { width : Q; height : Q; depth : Q }.

Record ObstacleData : Type := mkObstacleData {
  obstacle_id : string;
  obstacle_position : Vector3 Q;
  dimensions : Dimensions
}.

Record BoxGeometry : Type :=
  mkBoxGeometry { box_id : nat; parameters : Dimensions }.

(** The [THREE.Mesh] of an obstacle; its material is not modelled. *)
Record Mesh : Type := mkMesh {
  mesh_id : nat;
  mesh_name : string;
  mesh_position : Vector3 Q;
  geometry : BoxGeometry
}.

(** [selectableObjects] holds references, here object ids;
    [attached] is [transformControls.object], [None] when there are no
    controls or nothing is attached. *)
Record ObstacleManager : Type := mkObstacleManager {
  obstacles : JSMap.t Mesh;
  selectableObjects : list nat;
  attached : option nat
}.

Definition empty : ObstacleManager := mkObstacleManager [] [] None.

Definition addObstacle (data : ObstacleData)
  (st : Runtime * ObstacleManager) : Runtime * ObstacleManager :=
  let (rt, om) := st in
  let (gid, rt1) := newGeometry rt in
  let (oid, rt2) := newObject rt1 in
  let obstacle :=
    mkMesh oid (obstacle_id data) (obstacle_position data)
           (mkBoxGeometry gid (dimensions data)) in
  (sceneAdd oid rt2,
   mkObstacleManager
     (JSMap.set (obstacle_id data) obstacle (obstacles om))
     (selectableObjects om ++ [oid])
     (attached om)).

Definition getObstacleById (id : string) (om : ObstacleManager)
  : option Mesh :=
  JSMap.get id (obstacles om).

Definition updateObstacle (id : string) (newPosition : option (Vector3 Q))
  (newDimensions : option Dimensions)
  (st : Runtime * ObstacleManager) : Runtime * ObstacleManager :=
  let (rt, om) := st in
  match JSMap.get id (obstacles om) with
  | None => st
  | Some obstacle =>
      let o1 :=
        match newPosition with
        | Some p =>
            mkMesh (mesh_id obstacle) (mesh_name obstacle) p
                   (geometry obstacle)
        | None => obstacle
        end in
      let (rt', o2) :=
        match newDimensions with
        | Some dims =>
            let (gid, rt1) :=
              newGeometry (dispose (box_id (geometry o1)) rt) in
            (rt1, mkMesh (mesh_id o1) (mesh_name o1) (mesh_position o1)
                         (mkBoxGeometry gid dims))
        | None => (rt, o1)
        end in
      (rt', mkObstacleManager (JSMap.set id o2 (obstacles om))
                              (selectableObjects om) (attached om))
  end.

Definition detachTransformControls (om : ObstacleManager)
  : ObstacleManager :=
  mkObstacleManager (obstacles om) (selectableObjects om) None.

Definition removeObstacle (id : string)
  (st : Runtime * ObstacleManager) : Runtime * ObstacleManager :=
  let (rt, om) := st in
  match JSMap.get id (obstacles om) with
  | Some obstacle =>
      let om1 :=
        match attached om with
        | Some o =>
            if Nat.eqb o (mesh_id obstacle)
            then detachTransformControls om else om
        | None => om
        end in
      (dispose (box_id (geometry obstacle))
               (sceneRemove (mesh_id obstacle) rt),
       mkObstacleManager
         (JSMap.delete id (obstacles om1))
         (filter (fun obj => negb (Nat.eqb obj (mesh_id obstacle)))
                 (selectableObjects om1))
         (attached om1))
  | None => st
  end.

Definition getAllObstacles (om : ObstacleManager) : list Mesh :=
  JSMap.values (obstacles om).

Definition serializeObstacles (om : ObstacleManager) : list ObstacleData :=
  map (fun e : string * Mesh =>
         let (id, obstacle) := e in
         mkObstacleData id (mesh_position obstacle)
                        (parameters (geometry obstacle)))
      (obstacles om).

(** The registry as records: each mesh with the key it is filed under. *)
Definition records (om : ObstacleManager) : JSMap.t ObstacleData :=
  JSMap.mapEntries
    (fun id obstacle =>
       mkObstacleData id (mesh_position obstacle)
                      (parameters (geometry obstacle)))
    (obstacles om).

(** The state the operations of the manager keep: every mesh is filed
    under its name, and no id occurs twice. *)
Definition wellFormed (om : ObstacleManager) : Prop :=
  JSMap.keyed mesh_name (obstacles om).

Definition deserializeObstacles (data : list ObstacleData)
  (st : Runtime * ObstacleManager) : Runtime * ObstacleManager :=
  let cleared :=
    fold_left (fun acc obs => removeObstacle (mesh_name obs) acc)
              (getAllObstacles (snd st)) st in
  fold_left (fun acc obstacleData => addObstacle obstacleData acc)
            data cleared.

End Obstacle.

(* ------------------------------------------------------------------ *)
(** ** [world.ts]: the floor plane *)

Module World.
Import Three Scene.

Record WorldDimensions : Type := mkWorldDimensions {
  xMin : Q; xMax : Q; yMin : Q; yMax : Q; zMin : Q; zMax : Q
}.

(** The floor mesh: a [PlaneGeometry (sizeX, sizeZ)] laid flat at height
    [yMin] around the centre of the bounds.  The grid helper is known by
    its object id only. *)
Record FloorPlane : Type := mkFloorPlane {
  floor_id : nat;
  floor_geometry : nat;
  floor_sizeX : Q;
  floor_sizeZ : Q;
  floor_position : Vector3 Q
}.

Record WorldManager : Type := mkWorldManager {
  floorPlane : option FloorPlane;
  gridHelper : option nat;
  world_dimensions : option WorldDimensions
}.

Definition empty : WorldManager := mkWorldManager None None None.

Definition initWorld (dims : WorldDimensions)
  (st : Runtime * WorldManager) : Runtime * WorldManager :=
  let (rt, wm) := st in
  let rt1 :=
    match gridHelper wm with
    | Some g => sceneRemove g rt
    | None => rt
    end in
  let rt2 :=
    match floorPlane wm with
    | Some f => dispose (floor_geometry f) (sceneRemove (floor_id f) rt1)
    | None => rt1
    end in
  let sizeX := xMax dims - xMin dims in
  let sizeZ := zMax dims - zMin dims in
  let centerX := (xMin dims + xMax dims) / 2 in
  let centerZ := (zMin dims + zMax dims) / 2 in
  let (grid, rt3) := newObject rt2 in
  let rt4 := sceneAdd grid rt3 in
  let (fgeo, rt5) := newGeometry rt4 in
  let (fid, rt6) := newObject rt5 in
  (sceneAdd fid rt6,
   mkWorldManager
     (Some (mkFloorPlane fid fgeo sizeX sizeZ
                         (mkVector3 centerX (yMin dims) centerZ)))
     (Some grid) (Some dims)).

Definition getFloorPlane (wm : WorldManager) : option FloorPlane :=
  floorPlane wm.

Definition getWorldDimensions (wm : WorldManager)
  : option WorldDimensions :=
  world_dimensions wm.

End World.

(* ------------------------------------------------------------------ *)
(** ** [beams.ts]: the ray-sampling and intersection engine *)

Module Beams.
Import Three Grid Scene Sensor Obstacle World.

(** What a ray can hit: an obstacle mesh or the floor plane. *)
Inductive Collidable : Type :=
| ObstacleMesh (m : Mesh)
| Floor (f : FloorPlane).

Record Intersection : Type :=
  mkIntersection { distance : Q; object : Collidable }.

(** [new THREE.ConeGeometry (radius, height, 8, 1, true)] *)
Record ConeGeometry : Type :=
  mkConeGeometry { cone_id : nat; cone_radius : R; cone_height : Q }.

(** A beam mesh.  [beam_axis] is the direction to which
    [quaternion.setFromUnitVectors (new Vector3 (0, 1, 0), direction)]
    turns the axis of the cone. *)
Record BeamMesh : Type := mkBeamMesh {
  beam_id : nat;
  beam_geometry : ConeGeometry;
  beam_position : Vector3 R;
  beam_axis : Vector3 R
}.

Record BeamGroup : Type := mkBeamGroup {
  beams_id : nat;
  beams_name : string;
  beams_visible : bool;
  children : list BeamMesh
}.

Record BeamManager : Type :=
  mkBeamManager { beamMeshes : JSMap.t BeamGroup }.

(** The managers a [BeamManager] is constructed with. *)
Record Registries : Type := mkRegistries {
  sensorManager : SensorManager;
  obstacleManager : ObstacleManager;
  worldManager : WorldManager
}.

Definition Qltb (a b : Q) : bool := negb (Qle_bool b a).

(** One sample: the origin and the direction of a ray and the distance
    resolved for it. *)
Record Sample : Type := mkSample {
  sample_origin : Vector3 Q;
  sample_direction : Vector3 R;
  sample_distance : Q
}.

(** A beam mesh without the identities of its objects: radius and height
    of the cone, position and axis. *)
Definition BeamShape : Type := (R * Q * Vector3 R * Vector3 R)%type.

Definition beamShape (b : BeamMesh) : BeamShape :=
  (cone_radius (beam_geometry b), cone_height (beam_geometry b),
   beam_position b, beam_axis b).

(** [position.copy (origin).addScaledVector (direction, s)] *)
Definition addScaledVector (origin : Vector3 Q) (direction : Vector3 R)
  (s : Q) : Vector3 R :=
  mkVector3 (Q2R (vx origin) + vx direction * Q2R s)%R
            (Q2R (vy origin) + vy direction * Q2R s)%R
            (Q2R (vz origin) + vz direction * Q2R s)%R.

(** The shape of the beam that shows a sample. *)
Definition shapeOfSample (layout : BeamLayout) (s : Sample) : BeamShape :=
  (Rmax (Q2R 0.01)
        (Q2R (sample_distance s)
         * tan (degToRad (match layout with
                          | singlePlane => 1
                          | verticalEven => 0.5
                          end)))%R,
   sample_distance s,
   addScaledVector (sample_origin s) (sample_direction s)
                   (sample_distance s / 2),
   sample_direction s).

(** A beam group without the identities of its objects, and the content
    of [beamMeshes] seen that way. *)
Definition GroupShape : Type := (string * bool * list BeamShape)%type.

Definition groupShape (g : BeamGroup) : GroupShape :=
  (beams_name g, beams_visible g, map beamShape (children g)).

Definition visuals (bm : BeamManager) : JSMap.t GroupShape :=
  JSMap.mapValues groupShape (beamMeshes bm).

(** The resources of a beam group are released: the group is no child of
    the scene and none of the geometries of its beams is live. *)
Definition released (g : BeamGroup) (rt : Runtime) : Prop :=
  ~ In (beams_id g) (sceneChildren rt)
  /\ forall child, In child (children g) ->
                   ~ In (cone_id (beam_geometry child)) (liveGeometries rt).

(** The ids of a beam group have been handed out by the runtime. *)
Definition allocated (g : BeamGroup) (rt : Runtime) : Prop :=
  (beams_id g < nextObjectId rt)%nat
  /\ forall child, In child (children g) ->
                   (cone_id (beam_geometry child) < nextGeometryId rt)%nat.

(** Every id in [beamMeshes] has been handed out by the runtime. *)
Definition allAllocated (st : Runtime * BeamManager) : Prop :=
  forall k g, In (k, g) (beamMeshes (snd st)) -> allocated g (fst st).

(** The sensor [k] still has its beam group [g] / has it no more and the
    resources of [g] are released. *)
Definition held (k : string) (g : BeamGroup) (st : Runtime * BeamManager)
  : Prop :=
  JSMap.get k (beamMeshes (snd st)) = Some g /\ allocated g (fst st).

Definition gone (k : string) (g : BeamGroup) (st : Runtime * BeamManager)
  : Prop :=
  JSMap.get k (beamMeshes (snd st)) = None
  /\ released g (fst st) /\ allocated g (fst st).

(** A sample is drawn unless its distance is below the threshold. *)
Definition drawn (s : Sample) : bool := negb (Qltb (sample_distance s) 0.01).

(** The comparator of [intersects.sort]: ascending distance.  The sort is
    stable: of two hits at the same distance the one pushed first stays
    first. *)
Fixpoint insertByDistance (x : Intersection) (l : list Intersection)
  : list Intersection :=
  match l with
  | [] => [x]
  | y :: l' =>
      if Qle_bool (distance x) (distance y) then x :: l
      else y :: insertByDistance x l'
  end.

Definition sortByDistance (l : list Intersection) : list Intersection :=
  fold_right insertByDistance [] l.

(** The order the comparator sorts by. *)
Definition byDistance (a b : Intersection) : Prop :=
  (distance a <= distance b)%Q.

Definition clearBeamsForSensor (sensorId : string)
  (st : Runtime * BeamManager) : Runtime * BeamManager :=
  let (rt, bm) := st in
  match JSMap.get sensorId (beamMeshes bm) with
  | Some existingBeamGroup =>
      let rt1 :=
        fold_left (fun r child => dispose (cone_id (beam_geometry child)) r)
                  (children existingBeamGroup) rt in
      (sceneRemove (beams_id existingBeamGroup) rt1,
       mkBeamManager (JSMap.delete sensorId (beamMeshes bm)))
  | None => st
  end.

Definition setBeamVisibility (sensorId : string) (v : bool)
  (bm : BeamManager) : BeamManager :=
  match JSMap.get sensorId (beamMeshes bm) with
  | Some g =>
      mkBeamManager
        (JSMap.set sensorId
                   (mkBeamGroup (beams_id g) (beams_name g) v (children g))
                   (beamMeshes bm))
  | None => bm
  end.

Section Engine.

(** The geometric part of [Mesh.raycast]: the distances from [origin],
    along [direction], at which the ray meets the surface of the
    object.  three.js computes them from the triangles of the mesh,
    set in the world by the [matrixWorld] that the mesh has when the
    ray is cast; [Render] below says what that matrix is between two
    renders. *)
Variable raycast : Vector3 Q -> Vector3 R -> Collidable -> list Q.

(** [Mesh.raycast] keeps a hit unless
    [distance < raycaster.near || distance > raycaster.far]. *)
Definition intersectObject (near far : Q) (origin : Vector3 Q)
  (direction : Vector3 R) (obj : Collidable) : list Intersection :=
  map (fun d => mkIntersection d obj)
      (filter (fun d => negb (Qltb d near || Qltb far d))
              (raycast origin direction obj)).

(** [raycaster.intersectObjects (objects, false)]: the hits of every
    object, sorted by distance. *)
Definition intersectObjects (near far : Q) (origin : Vector3 Q)
  (direction : Vector3 R) (objects : list Collidable)
  : list Intersection :=
  sortByDistance
    (flat_map (intersectObject near far origin direction) objects).

(** [[...obstacles]] followed by the floor plane when there is one. *)
Definition collidableObjects (regs : Registries) : list Collidable :=
  map ObstacleMesh (getAllObstacles (obstacleManager regs))
  ++ match getFloorPlane (worldManager regs) with
     | Some floor => [Floor floor]
     | None => []
     end.

(** [let distance = maxRange; if (intersects.length > 0) distance =
    intersects[0].distance] *)
Definition resolveDistance (definition : SensorDefinition)
  (intersects : list Intersection) : Q :=
  match intersects with
  | [] => maxRange definition
  | hit :: _ => distance hit
  end.

(** The distance resolved for ray [(i, j)] of a sensor; the raycaster
    has [near = 0] and [far = maxRange]. *)
Definition rayDistance (regs : Registries) (definition : SensorDefinition)
  (sensorGroup : Group) (i j : Z) : Q :=
  resolveDistance definition
    (intersectObjects 0 (maxRange definition)
       (group_position sensorGroup)
       (rayDirection (quaternion sensorGroup) definition i j)
       (collidableObjects regs)).

(** The body of the inner loop for ray [(i, j)]; [acc] holds the
    runtime and the children added to the beam group so far. *)
Definition castBeam (regs : Registries) (definition : SensorDefinition)
  (sensorGroup : Group) (i j : Z)
  (acc : Runtime * list BeamMesh) : Runtime * list BeamMesh :=
  let direction := rayDirection (quaternion sensorGroup) definition i j in
  let distance := rayDistance regs definition sensorGroup i j in
  let beamSpreadAngle :=
    degToRad (match beamLayout definition with
              | singlePlane => 1
              | verticalEven => 0.5
              end) in
  let radiusBottom := (Q2R distance * tan beamSpreadAngle)%R in
  let height := distance in
  if Qltb height 0.01 then acc
  else
    let (gid, rt1) := newGeometry (fst acc) in
    let (mid, rt2) := newObject rt1 in
    let beamGeometry :=
      mkConeGeometry gid (Rmax (Q2R 0.01) radiusBottom) height in
    let beamMesh :=
      mkBeamMesh mid beamGeometry
        (addScaledVector (group_position sensorGroup) direction
                         (height / 2))
        direction in
    (rt2, snd acc ++ [beamMesh]).

(** The two nested loops over channels and horizontal steps. *)
Definition castBeams (regs : Registries) (definition : SensorDefinition)
  (sensorGroup : Group) (acc : Runtime * list BeamMesh)
  : Runtime * list BeamMesh :=
  fold_left
    (fun acc_i i =>
       fold_left
         (fun acc_j j => castBeam regs definition sensorGroup i j acc_j)
         (loopIndices (numHorizontalSteps definition)) acc_i)
    (loopIndices (channels definition)) acc.

(** The rays of a sensor in the order of the loops: channel by channel,
    and within a channel step by step. *)
Definition rays (definition : SensorDefinition) : list (Z * Z) :=
  list_prod (loopIndices (channels definition))
            (loopIndices (numHorizontalSteps definition)).

(** What the loop body computes for ray [(i, j)] before it decides
    whether to draw it: origin, direction and resolved distance. *)
Definition raySample (regs : Registries) (definition : SensorDefinition)
  (sensorGroup : Group) (ij : Z * Z) : Sample :=
  mkSample (group_position sensorGroup)
           (rayDirection (quaternion sensorGroup) definition
                         (fst ij) (snd ij))
           (rayDistance regs definition sensorGroup (fst ij) (snd ij)).

(** The beam group is registered empty and filled afterwards; the map
    holds the very object the loops add to, so the entry ends up with
    all the children. *)
Definition generateBeamsForSensor (regs : Registries)
  (sensorData : PlacedSensorData) (definition : SensorDefinition)
  (sensorGroup : Group) (st : Runtime * BeamManager)
  : Runtime * BeamManager :=
  let (rt0, bm0) := clearBeamsForSensor (sensor_id sensorData) st in
  let (gid, rt1) := newObject rt0 in
  let name := ("beams_" ++ sensor_id sensorData)%string in
  let rt2 := sceneAdd gid rt1 in
  let registered :=
    JSMap.set (sensor_id sensorData) (mkBeamGroup gid name true [])
              (beamMeshes bm0) in
  let (rt3, added) := castBeams regs definition sensorGroup (rt2, []) in
  (rt3,
   mkBeamManager
     (JSMap.set (sensor_id sensorData) (mkBeamGroup gid name true added)
                registered)).

(** The callback of [placedSensorsData.forEach]. *)
Definition updateSensorBeams (regs : Registries)
  (st : Runtime * BeamManager) (sensorData : PlacedSensorData)
  : Runtime * BeamManager :=
  if negb (visible sensorData)
  then clearBeamsForSensor (sensor_id sensorData) st
  else
    match getSensorDefinitionById (definitionId sensorData)
                                  (sensorManager regs),
          getPlacedSensorById (sensor_id sensorData)
                              (sensorManager regs)
    with
    | Some definition, Some sensorGroup =>
        generateBeamsForSensor regs sensorData definition sensorGroup st
    | _, _ => st
    end.

(** What the callback does to the content of [beamMeshes]. *)
Definition sensorTouch (regs : Registries) (sensorData : PlacedSensorData)
  : JSMap.Touch GroupShape :=
  if negb (visible sensorData) then JSMap.Clear (sensor_id sensorData)
  else
    match getSensorDefinitionById (definitionId sensorData)
                                  (sensorManager regs),
          getPlacedSensorById (sensor_id sensorData)
                              (sensorManager regs)
    with
    | Some definition, Some sensorGroup =>
        JSMap.Renew
          (sensor_id sensorData)
          (("beams_" ++ sensor_id sensorData)%string, true,
           map (shapeOfSample (beamLayout definition))
               (filter drawn
                       (map (raySample regs definition sensorGroup)
                            (rays definition))))
    | _, _ => JSMap.Skip
    end.

(** The callback of [beamMeshes.forEach]. *)
Definition clearIfGone (currentSensorIds : list string)
  (st : Runtime * BeamManager) (sensorId : string)
  : Runtime * BeamManager :=
  if negb (existsb (String.eqb sensorId) currentSensorIds)
  then clearBeamsForSensor sensorId st
  else st.

Definition updateBeams (regs : Registries) (st : Runtime * BeamManager)
  : Runtime * BeamManager :=
  let placedSensorsData := getAllPlacedSensorData (sensorManager regs) in
  let st1 := fold_left (updateSensorBeams regs) placedSensorsData st in
  let currentSensorIds := map sensor_id placedSensorsData in
  fold_left (clearIfGone currentSensorIds)
            (JSMap.keys (beamMeshes (snd st1))) st1.

End Engine.

End Beams.

(* ------------------------------------------------------------------ *)
(** ** Concrete definitions, sensors and scenes used below *)

Module Examples.
Import Three Grid Scene Sensor Obstacle World Beams.
Local Open Scope string_scope.
Local Open Scope list_scope.
Local Open Scope Q_scope.

Definition fullTurn : SensorDefinition :=
  mkSensorDefinition "lidar360" "Full turn" 360 30 20 16 verticalEven
                     "full.glb".

Definition halfTurn : SensorDefinition :=
  mkSensorDefinition "lidar180" "Half turn" 180 30 20 16 verticalEven
                     "half.glb".

Definition zeroSpan : SensorDefinition :=
  mkSensorDefinition "line" "No span" 0 0 20 1 singlePlane "line.glb".

Definition negSpan : SensorDefinition :=
  mkSensorDefinition "back" "Negative span" (-10) 0 20 1 singlePlane
                     "back.glb".

Definition singleChannel : SensorDefinition :=
  mkSensorDefinition "ring" "One ring" 360 30 20 1 verticalEven "ring.glb".

Definition planar : SensorDefinition :=
  mkSensorDefinition "plane" "Planar" 90 30 10 4 singlePlane "plane.glb".

Definition catalog : SensorManager :=
  loadSensorDefinitions [fullTurn; halfTurn; planar] Sensor.empty.

Definition s1 : PlacedSensorData :=
  mkPlacedSensorData "s1" "lidar360" (mkVector3 0 1 0)
                     (mkRotation 0 0 90) true.

Definition box : ObstacleData :=
  mkObstacleData "box" (mkVector3 5 0.5 5) (mkDimensions 1 1 1).

Definition bounds : WorldDimensions :=
  mkWorldDimensions (-10) 10 0 5 (-10) 10.

(** A scene built by the operations of the managers: one obstacle, the
    floor and the sensor [s1]. *)
Definition withBox : Runtime * ObstacleManager :=
  addObstacle box (Scene.initial, Obstacle.empty).

Definition slab : ObstacleData :=
  mkObstacleData "slab" (mkVector3 2 1 7) (mkDimensions 1 2 3).

Definition withSlab : Runtime * ObstacleManager :=
  addObstacle slab withBox.

Definition withFloor : Runtime * WorldManager :=
  initWorld bounds (fst withBox, World.empty).

Definition withSensor : Runtime * SensorManager :=
  addSensor s1 (fst withFloor, catalog).

Definition scene1 : Registries :=
  mkRegistries (snd withSensor) (snd withBox) (snd withFloor).

Definition group1 : Group :=
  mkGroup 3 "s1" (mkVector3 0 1 0) (eulerOfRotation (mkRotation 0 0 90))
          true.

(** Stand-ins for the geometric part of the raycaster. *)
Definition noHits (_ : Vector3 Q) (_ : Vector3 R) (_ : Collidable)
  : list Q := [].

Definition wallAt3 (_ : Vector3 Q) (_ : Vector3 R) (o : Collidable)
  : list Q :=
  match o with
  | ObstacleMesh _ => [7; 3]
  | Floor _ => [25]
  end.

Definition beyondRange (_ : Vector3 Q) (_ : Vector3 R) (_ : Collidable)
  : list Q := [25].

Definition touching (_ : Vector3 Q) (_ : Vector3 R) (o : Collidable)
  : list Q :=
  match o with
  | ObstacleMesh _ => [0.005]
  | Floor _ => [4]
  end.

(** A beam manager that holds a beam group for the sensor [s1]. *)
Definition staleBeam : BeamMesh :=
  mkBeamMesh 6 (mkConeGeometry 3 1%R 2)
             (mkVector3 0%R 1%R 1%R) (mkVector3 0%R 0%R 1%R).

Definition staleGroup : BeamGroup :=
  mkBeamGroup 5 "beams_s1" true [staleBeam].

Definition staleState : Runtime * BeamManager :=
  (mkRuntime 10 10 [5%nat] [3%nat], mkBeamManager [("s1", staleGroup)]).

(** [s1] hidden, and a record of a definition that is not in the
    catalog. *)
Definition hidden1 : PlacedSensorData :=
  mkPlacedSensorData "s1" "lidar360" (mkVector3 0 1 0)
                     (mkRotation 0 0 90) false.

Definition hiddenScene : Registries :=
  mkRegistries
    (mkSensorManager (sensorDefinitions catalog) [("s1", group1)]
                     [("s1", hidden1)])
    Obstacle.empty World.empty.

Definition orphan1 : PlacedSensorData :=
  mkPlacedSensorData "s1" "unknown" (mkVector3 0 1 0)
                     (mkRotation 0 0 90) true.

End Examples.

(* ------------------------------------------------------------------ *)
(** ** Notions used to state further properties *)

Module Views.
Import Three Grid Scene Sensor Obstacle World Beams.
Local Open Scope nat_scope.

(** The entries that a list of touches creates, in order. *)
Definition renewals {V : Type} (cs : list (JSMap.Touch V)) : JSMap.t V :=
  flat_map (fun c => match c with
                     | JSMap.Renew k v => [(k, v)]
                     | _ => []
                     end) cs.

(** Every id in the scene and every live geometry has been handed out by
    the runtime. *)
Definition bounded (rt : Runtime) : Prop :=
  (forall o, In o (sceneChildren rt) -> o < nextObjectId rt)
  /\ (forall x, In x (liveGeometries rt) -> x < nextGeometryId rt).

(** Every visible sensor of the registries has its definition and its
    group. *)
Definition consistent (regs : Registries) : Prop :=
  forall s : PlacedSensorData,
    In s (getAllPlacedSensorData (sensorManager regs)) ->
    visible s = true ->
    getSensorDefinitionById (definitionId s) (sensorManager regs) <> None
    /\ getPlacedSensorById (sensor_id s) (sensorManager regs) <> None.

(** The geometry ids of a list of beams. *)
Definition geometryIds (beams : list BeamMesh) : list nat :=
  map (fun b => cone_id (beam_geometry b)) beams.

(** The elements of [l] that are not among [ids]. *)
Definition outside (ids l : list nat) : list nat :=
  filter (fun x => negb (existsb (Nat.eqb x) ids)) l.

(** The object ids of the beam groups and the geometry ids of their
    beams. *)
Definition groupIds (m : JSMap.t BeamGroup) : list nat :=
  map beams_id (JSMap.values m).

Definition beamGeometryIds (m : JSMap.t BeamGroup) : list nat :=
  flat_map (fun g => geometryIds (children g)) (JSMap.values m).

(** The beams are in order: no sensor has two groups, no id is used
    twice, every group is a child of the scene and the geometry of every
    beam is live. *)
Definition tidy (st : Runtime * BeamManager) : Prop :=
  bounded (fst st)
  /\ NoDup (JSMap.keys (beamMeshes (snd st)))
  /\ NoDup (groupIds (beamMeshes (snd st)))
  /\ NoDup (beamGeometryIds (beamMeshes (snd st)))
  /\ (forall o, In o (groupIds (beamMeshes (snd st))) ->
                In o (sceneChildren (fst st)))
  /\ (forall x, In x (beamGeometryIds (beamMeshes (snd st))) ->
                In x (liveGeometries (fst st))).

(** The children of the scene that are no beam groups, and the live
    geometries that are not those of beams. *)
Definition foreignScene (st : Runtime * BeamManager) : list nat :=
  outside (groupIds (beamMeshes (snd st))) (sceneChildren (fst st)).

Definition foreignLive (st : Runtime * BeamManager) : list nat :=
  outside (beamGeometryIds (beamMeshes (snd st))) (liveGeometries (fst st)).

(** The object ids of the obstacle meshes and the ids of their
    geometries. *)
Definition meshIds (m : JSMap.t Mesh) : list nat :=
  map mesh_id (JSMap.values m).

Definition boxIds (m : JSMap.t Mesh) : list nat :=
  map (fun o => box_id (geometry o)) (JSMap.values m).

(** The obstacles of the registry are in place: no two of them share a
    mesh or a geometry, every mesh is a child of the scene and
    selectable, and every geometry is live. *)
Definition housed (st : Runtime * ObstacleManager) : Prop :=
  bounded (fst st)
  /\ NoDup (meshIds (obstacles (snd st)))
  /\ NoDup (boxIds (obstacles (snd st)))
  /\ (forall o, In o (meshIds (obstacles (snd st))) ->
                In o (sceneChildren (fst st))
                /\ In o (selectableObjects (snd st)))
  /\ (forall x, In x (boxIds (obstacles (snd st))) ->
                In x (liveGeometries (fst st))).

(** The children of the scene and the geometries that the world manager
    holds. *)
Definition worldObjects (wm : WorldManager) : list nat :=
  match gridHelper wm with
  | Some g => [g]
  | None => []
  end
  ++ match floorPlane wm with
     | Some f => [floor_id f]
     | None => []
     end.

Definition worldGeometries (wm : WorldManager) : list nat :=
  match floorPlane wm with
  | Some f => [floor_geometry f]
  | None => []
  end.

End Views.

(* ------------------------------------------------------------------ *)
(** ** [loaders.ts] and the handlers of [PanelUI]: the managers together *)

Module Session.
Import Three Grid Scene Sensor Obstacle World Beams.
Local Open Scope string_scope.

(** The managers that [LiDAR3DVisualizer] creates, with the runtime they
    share. *)
Record App : Type := mkApp {
  app_runtime : Runtime;
  app_world : WorldManager;
  app_sensors : SensorManager;
  app_obstacles : ObstacleManager;
  app_beams : BeamManager
}.

Definition registries (app : App) : Registries :=
  mkRegistries (app_sensors app) (app_obstacles app) (app_world app).

(** [SceneData]: what a scene file holds once [JSON.parse] has read it;
    a list that the file lacks is [None]. *)
Record SceneData : Type := mkSceneData {
  sd_world : option WorldDimensions;
  sd_obstacles : option (list ObstacleData);
  sd_sensors : option (list PlacedSensorData)
}.

(** [x || []] *)
Definition orEmpty {A : Type} (x : option (list A)) : list A :=
  match x with
  | Some l => l
  | None => []
  end.

(** The [sceneData] that [saveSceneToJson] writes. *)
Definition saveScene (app : App) : SceneData :=
  mkSceneData (getWorldDimensions (app_world app))
              (Some (serializeObstacles (app_obstacles app)))
              (Some (serializeSensors (app_sensors app))).

(** What the [onload] handler of [loadSceneFromJson] does with a parsed
    file. *)
Definition loadScene (sceneData : SceneData) (app : App) : App :=
  let (rt1, om1) :=
    deserializeObstacles [] (app_runtime app, app_obstacles app) in
  let (rt2, sm1) := deserializeSensors [] (rt1, app_sensors app) in
  let (rt3, wm1) :=
    match sd_world sceneData with
    | Some w => initWorld w (rt2, app_world app)
    | None => (rt2, app_world app)
    end in
  let (rt4, om2) :=
    deserializeObstacles (orEmpty (sd_obstacles sceneData)) (rt3, om1) in
  let (rt5, sm2) :=
    deserializeSensors (orEmpty (sd_sensors sceneData)) (rt4, sm1) in
  mkApp rt5 wm1 sm2 om2 (app_beams app).

(** The calls that the sensor manager and the obstacle manager offer. *)
Inductive SensorCall : Type :=
| LoadSensorDefinitions (definitions : list SensorDefinition)
| AddSensor (data : PlacedSensorData)
| UpdateSensor (id : string) (newPosition : option (Vector3 Q))
               (newRotation : option Rotation)
| RemoveSensor (id : string)
| SetSensorVisibility (id : string) (v : bool)
| DeserializeSensors (data : list PlacedSensorData).

Definition sensorCall (c : SensorCall) (st : Runtime * SensorManager)
  : Runtime * SensorManager :=
  match c with
  | LoadSensorDefinitions defs => (fst st, loadSensorDefinitions defs (snd st))
  | AddSensor data => addSensor data st
  | UpdateSensor id p r => (fst st, updateSensor id p r (snd st))
  | RemoveSensor id => removeSensor id st
  | SetSensorVisibility id v => (fst st, setSensorVisibility id v (snd st))
  | DeserializeSensors data => deserializeSensors data st
  end.

Inductive ObstacleCall : Type :=
| AddObstacle (data : ObstacleData)
| UpdateObstacle (id : string) (newPosition : option (Vector3 Q))
                 (newDimensions : option Dimensions)
| RemoveObstacle (id : string)
| DetachTransformControls
| DeserializeObstacles (data : list ObstacleData).

Definition obstacleCall (c : ObstacleCall) (st : Runtime * ObstacleManager)
  : Runtime * ObstacleManager :=
  match c with
  | AddObstacle data => addObstacle data st
  | UpdateObstacle id p d => updateObstacle id p d st
  | RemoveObstacle id => removeObstacle id st
  | DetachTransformControls => (fst st, detachTransformControls (snd st))
  | DeserializeObstacles data => deserializeObstacles data st
  end.

(** Every placed sensor has its definition in the catalog. *)
Definition allResolvable (sm : SensorManager) : Prop :=
  forall d, In d (getAllPlacedSensorData sm) -> resolvable sm d = true.

Definition isSome {A : Type} (x : option A) : bool :=
  match x with
  | Some _ => true
  | None => false
  end.

(** The keys of [WorldDimensions]. *)
Inductive Bound : Type := XMin | XMax | YMin | YMax | ZMin | ZMax.

(** [dims[b] = val] *)
Definition setBound (b : Bound) (val : Q) (d : WorldDimensions)
  : WorldDimensions :=
  match b with
  | XMin => mkWorldDimensions val (xMax d) (yMin d) (yMax d) (zMin d) (zMax d)
  | XMax => mkWorldDimensions (xMin d) val (yMin d) (yMax d) (zMin d) (zMax d)
  | YMin => mkWorldDimensions (xMin d) (xMax d) val (yMax d) (zMin d) (zMax d)
  | YMax => mkWorldDimensions (xMin d) (xMax d) (yMin d) val (zMin d) (zMax d)
  | ZMin => mkWorldDimensions (xMin d) (xMax d) (yMin d) (yMax d) val (zMax d)
  | ZMax => mkWorldDimensions (xMin d) (xMax d) (yMin d) (yMax d) (zMin d) val
  end.

(** The application with the world panel.  [panel_dims] is the object
    that the inputs of the bounds write to.  [initWorld] keeps the
    object it is given, so that after a click on the update button the
    bounds of the world manager are this very object: [shared] says
    whether they are. *)
Record Page : Type := mkPage {
  page_app : App;
  panel_dims : WorldDimensions;
  shared : bool
}.

(** The floor is the one that [initWorld] lays for the bounds. *)
Definition laidOut (f : FloorPlane) (d : WorldDimensions) : Prop :=
  floor_sizeX f = xMax d - xMin d
  /\ floor_sizeZ f = zMax d - zMin d
  /\ floor_position f
     = mkVector3 ((xMin d + xMax d) / 2) (yMin d) ((zMin d + zMax d) / 2).

Section Handlers.
Variable raycast : Vector3 Q -> Vector3 R -> Collidable -> list Q.

(** [beamManager.updateBeams ()], as [animate] calls it once per
    frame. *)
Definition frame (app : App) : App :=
  let (rt, bm) :=
    updateBeams raycast (registries app)
                (app_runtime app, app_beams app) in
  mkApp rt (app_world app) (app_sensors app) (app_obstacles app) bm.

(** The [onclick] handler of the button that adds an obstacle. *)
Definition addObstacleClicked (data : ObstacleData) (app : App) : App :=
  if String.eqb (obstacle_id data) ""
     || isSome (getObstacleById (obstacle_id data) (app_obstacles app))
  then app
  else
    let (rt, om) :=
      addObstacle data (app_runtime app, app_obstacles app) in
    mkApp rt (app_world app) (app_sensors app) om (app_beams app).

(** The handler of the delete button of an obstacle, once the user has
    confirmed. *)
Definition deleteObstacleConfirmed (id : string) (app : App) : App :=
  let (rt, om) :=
    removeObstacle id (app_runtime app, app_obstacles app) in
  mkApp rt (app_world app) (app_sensors app) om (app_beams app).

(** The [onclick] handler of the button that adds a sensor; the new
    sensor is visible. *)
Definition addSensorClicked (selectedType id : string)
  (position : Vector3 Q) (rotation : Rotation) (app : App) : App :=
  match getSensorDefinitionById selectedType (app_sensors app) with
  | None => app
  | Some _ =>
      let data :=
        mkPlacedSensorData id selectedType position rotation true in
      if String.eqb id ""
         || isSome (getPlacedSensorById id (app_sensors app))
      then app
      else
        let (rt, sm) :=
          addSensor data (app_runtime app, app_sensors app) in
        frame (mkApp rt (app_world app) sm (app_obstacles app)
                     (app_beams app))
  end.

(** The handler of the show/hide button of the sensor listed under
    [id].  The record that the handler holds is the one in the
    registry, so after [setSensorVisibility] it reads the new flag;
    [seen] is what [sensorData.visible] yields then. *)
Definition toggleSensorClicked (id : string) (app : App) : App :=
  match getPlacedSensorDataById id (app_sensors app) with
  | None => app
  | Some sensorData =>
      let sm :=
        setSensorVisibility (sensor_id sensorData)
                            (negb (visible sensorData))
                            (app_sensors app) in
      let seen :=
        match getPlacedSensorDataById id sm with
        | Some d => visible d
        | None => visible sensorData
        end in
      let bm :=
        setBeamVisibility (sensor_id sensorData) (negb seen)
                          (app_beams app) in
      frame (mkApp (app_runtime app) (app_world app) sm
                   (app_obstacles app) bm)
  end.

(** The handler of the delete button of a sensor, once the user has
    confirmed. *)
Definition deleteSensorConfirmed (id : string) (app : App) : App :=
  let (rt, sm) := removeSensor id (app_runtime app, app_sensors app) in
  frame (mkApp rt (app_world app) sm (app_obstacles app) (app_beams app)).

(** The handler of the button that updates the world, with the bounds
    of the panel. *)
Definition updateWorldClicked (dims : WorldDimensions) (app : App) : App :=
  let (rt, wm) := initWorld dims (app_runtime app, app_world app) in
  mkApp rt wm (app_sensors app) (app_obstacles app) (app_beams app).

(** The [onchange] handler of the input of a bound: it writes the
    number to the bounds of the panel, and so to those of the world
    manager when they are the same object.  The floor stays. *)
Definition worldInputChanged (b : Bound) (val : Q) (pg : Page) : Page :=
  let dims := setBound b val (panel_dims pg) in
  let app := page_app pg in
  mkPage
    (if shared pg
     then mkApp (app_runtime app)
                (mkWorldManager (floorPlane (app_world app))
                                (gridHelper (app_world app))
                                (Some dims))
                (app_sensors app) (app_obstacles app) (app_beams app)
     else app)
    dims (shared pg).

(** What can happen to the page. *)
Inductive Event : Type :=
| DefinitionsLoaded (definitions : list SensorDefinition)
| WorldInputChanged (b : Bound) (val : Q)
| UpdateWorldClicked
| AddObstacleClicked (data : ObstacleData)
| DeleteObstacleConfirmed (id : string)
| AddSensorClicked (selectedType id : string) (position : Vector3 Q)
                   (rotation : Rotation)
| ToggleSensorClicked (id : string)
| DeleteSensorConfirmed (id : string)
| SceneFileLoaded (sceneData : SceneData)
| Frame.

(** The handlers that leave the bounds of the panel alone. *)
Definition onApp (f : App -> App) (pg : Page) : Page :=
  mkPage (f (page_app pg)) (panel_dims pg) (shared pg).

Definition handle (pg : Page) (e : Event) : Page :=
  match e with
  | DefinitionsLoaded defs =>
      onApp (fun app =>
               mkApp (app_runtime app) (app_world app)
                     (loadSensorDefinitions defs (app_sensors app))
                     (app_obstacles app) (app_beams app)) pg
  | WorldInputChanged b val => worldInputChanged b val pg
  | UpdateWorldClicked =>
      mkPage (updateWorldClicked (panel_dims pg) (page_app pg))
             (panel_dims pg) true
  | AddObstacleClicked data => onApp (addObstacleClicked data) pg
  | DeleteObstacleConfirmed id => onApp (deleteObstacleConfirmed id) pg
  | AddSensorClicked t id p r => onApp (addSensorClicked t id p r) pg
  | ToggleSensorClicked id => onApp (toggleSensorClicked id) pg
  | DeleteSensorConfirmed id => onApp (deleteSensorConfirmed id) pg
  | SceneFileLoaded sceneData =>
      mkPage (loadScene sceneData (page_app pg)) (panel_dims pg)
             (match sd_world sceneData with
              | Some _ => false
              | None => shared pg
              end)
  | Frame => onApp frame pg
  end.

(** The page once the constructor of [LiDAR3DVisualizer] has run
    [init]: the default world and the two lights.  The panel was
    built before, when the world manager had no bounds, so that its
    bounds are an object of its own. *)
Definition start : Page :=
  let defaults := mkWorldDimensions 0 30 0 5 0 30 in
  let (rt, wm) := initWorld defaults (Scene.initial, World.empty) in
  let (ambientLight, rt1) := newObject rt in
  let rt2 := sceneAdd ambientLight rt1 in
  let (directionalLight, rt3) := newObject rt2 in
  let rt4 := sceneAdd directionalLight rt3 in
  mkPage (mkApp rt4 wm Sensor.empty Obstacle.empty (mkBeamManager []))
         defaults false.

Definition replay (events : list Event) : Page :=
  fold_left handle events start.

End Handlers.

End Session.

(* ------------------------------------------------------------------ *)
(** ** Further concrete inputs *)

Module MoreExamples.
Import Three Grid Scene Sensor Obstacle World Beams Session Examples.
Local Open Scope string_scope.
Local Open Scope list_scope.
Local Open Scope Q_scope.

(** A sensor with a single ray. *)
Definition oneRay : SensorDefinition :=
  mkSensorDefinition "one" "One ray" 5 0 10 1 singlePlane "one.glb".

(** The beam of that ray where nothing can be hit. *)
Definition oneBeam : BeamMesh :=
  mkBeamMesh 0
    (mkConeGeometry 0
       (Rmax (Q2R 0.01) (Q2R 10 * tan (degToRad 1))) 10)
    (addScaledVector (group_position group1)
                     (rayDirection (quaternion group1) oneRay 0 0) (10 / 2))
    (rayDirection (quaternion group1) oneRay 0 0).

(** An application with one obstacle and one visible sensor, before the
    first frame. *)
Definition desk : App :=
  mkApp (fst withSensor) (snd withFloor) (snd withSensor) (snd withBox)
        (mkBeamManager []).

(** The calls that place [s1] and then hide it. *)
Definition placedThenHidden : list SensorCall :=
  [LoadSensorDefinitions [fullTurn]; AddSensor s1;
   SetSensorVisibility "s1" false].

End MoreExamples.

(* ------------------------------------------------------------------ *)
(** ** [main.ts], [animate]: what the raycaster reads between two renders *)

Module Render.
Import Three Grid Scene Sensor Obstacle World Beams Session.
Local Open Scope Q_scope.

(** The geometry of a mesh that rays are cast against, in the frame of
    the mesh: [BoxGeometry (width, height, depth)] around the origin,
    or [PlaneGeometry (sizeX, sizeZ)], which spans X and Y around the
    origin. *)
Inductive Shape : Type :=
| BoxShape (parameters : Dimensions)
| PlaneShape (sizeX sizeZ : Q).

(** A world matrix of the kind that the meshes of this program have: a
    translation, applied after the quarter turn about X
    ([rotation.x = -Math.PI / 2]) when [laidFlat]. *)
Record Matrix : Type :=
  mkMatrix { translation : Vector3 Q; laidFlat : bool }.

(** The [matrixWorld] of a new [Object3D]. *)
Definition identityMatrix : Matrix := mkMatrix (mkVector3 0 0 0) false.

Definition objectId (c : Collidable) : nat :=
  match c with
  | ObstacleMesh m => mesh_id m
  | Floor f => floor_id f
  end.

Definition shapeOf (c : Collidable) : Shape :=
  match c with
  | ObstacleMesh m => BoxShape (parameters (geometry m))
  | Floor f => PlaneShape (floor_sizeX f) (floor_sizeZ f)
  end.

(** [Object3D.updateMatrix]: the matrix composed from the position and
    the rotation that the mesh has now.  An obstacle is never turned;
    the floor is laid flat.  Both are children of the scene, which is
    not moved, so this is what their [matrixWorld] becomes. *)
Definition composed (c : Collidable) : Matrix :=
  match c with
  | ObstacleMesh m => mkMatrix (mesh_position m) false
  | Floor f => mkMatrix (floor_position f) true
  end.

(** The [matrixWorld] of the meshes, by object id. *)
Definition Matrices : Type := nat -> Matrix.

(** Nothing has been rendered.  A mesh that is created later has an id
    that no mesh had before, so its [matrixWorld] is the identity until
    a render composes it. *)
Definition unrendered : Matrices := fun _ => identityMatrix.

(** The meshes that the managers hold.  [addObstacle] and [initWorld]
    add them to the scene; [removeObstacle] and [initWorld] drop from
    the managers what they remove from the scene. *)
Definition meshes (regs : Registries) : list Collidable :=
  map ObstacleMesh (JSMap.values (obstacles (obstacleManager regs)))
  ++ match floorPlane (worldManager regs) with
     | Some f => [Floor f]
     | None => []
     end.

(** [scene.updateMatrixWorld ()], which [renderer.render] calls: every
    mesh of the scene gets the matrix composed from its position and
    rotation.  The program has no other call that updates a
    [matrixWorld]: [position.set], [rotation.x = ...] and [scene.add]
    leave it as it is.  Dragging an obstacle with the transform
    controls is not modelled. *)
Definition updateMatrixWorld (regs : Registries) (mw : Matrices)
  : Matrices :=
  fun o =>
    match find (fun c => Nat.eqb (objectId c) o) (meshes regs) with
    | Some c => composed c
    | None => mw o
    end.

Section Geometry.

(** The distances from [origin], along [direction], at which the ray
    meets the surface of a shape that a matrix sets in the world. *)
Variable meets : Vector3 Q -> Vector3 R -> Shape -> Matrix -> list Q.

(** What [Mesh.raycast] computes: it reads the geometry of the mesh
    and its [matrixWorld] as it is, and does not update it. *)
Definition raycastWith (mw : Matrices) (origin : Vector3 Q)
  (direction : Vector3 R) (c : Collidable) : list Q :=
  meets origin direction (shapeOf c) (mw (objectId c)).

(** The same for the mesh where its position and rotation put it. *)
Definition raycastPlaced (origin : Vector3 Q) (direction : Vector3 R)
  (c : Collidable) : list Q :=
  meets origin direction (shapeOf c) (composed c).

(** [animate]: [beamManager.updateBeams ()], and then
    [renderer.render (scene, camera)]. *)
Definition animate (s : App * Matrices) : App * Matrices :=
  let app := frame (raycastWith (snd s)) (fst s) in
  (app, updateMatrixWorld (registries app) (snd s)).

End Geometry.

End Render.

(* ------------------------------------------------------------------ *)
(** ** A sensor that looks along +Z at an obstacle added after a render *)

Module Studio.
Import Three Grid Scene Sensor Obstacle World Beams Session Examples Render.
Local Open Scope string_scope.
Local Open Scope list_scope.
Local Open Scope Q_scope.

Definition ringAt : PlacedSensorData :=
  mkPlacedSensorData "s1" "ring" (mkVector3 5.25 0.5 0)
                     (mkRotation 0 0 0) true.

Definition crate : ObstacleData :=
  mkObstacleData "crate" (mkVector3 5 0.5 5) (mkDimensions 1 1 2).

(** The group of [ringAt] and the mesh of [crate] in [studio] below:
    grid, floor and the two lights have the ids 0 to 3. *)
Definition ringGroup : Group :=
  mkGroup 4 "s1" (mkVector3 5.25 0.5 0)
          (eulerOfRotation (mkRotation 0 0 0)) true.

Definition crateMesh : Mesh :=
  mkMesh 5 "crate" (mkVector3 5 0.5 5)
         (mkBoxGeometry 1 (mkDimensions 1 1 2)).

Definition ahead : Vector3 R := mkVector3 0%R 0%R 1%R.

(** The application as [init] leaves it, with the definition
    [singleChannel] loaded and the sensor [s1] placed. *)
Definition studio : App :=
  let app := page_app start in
  let (rt, sm) :=
    addSensor ringAt
      (app_runtime app,
       loadSensorDefinitions [singleChannel] (app_sensors app)) in
  mkApp rt (app_world app) sm (app_obstacles app) (app_beams app).

(** ... once it has been rendered. *)
Definition rendered : App * Matrices :=
  (studio, updateMatrixWorld (registries studio) unrendered).

(** ... and once the obstacle [crate] has been added by its button. *)
Definition clicked : App * Matrices :=
  (addObstacleClicked crate (fst rendered), snd rendered).

(** [x] lies within [size / 2] of [centre]. *)
Definition within (centre size x : Q) : bool :=
  Qle_bool (centre - size / 2) x && Qle_bool x (centre + size / 2).

(** The geometry of a ray that runs along +Z.  A box shows it the face
    that looks towards -Z, if the ray runs between its sides; the faces
    of a box are seen from outside only.  A plane that stands upright,
    as [PlaneGeometry] makes it, is met at the depth of its centre, from
    either side; a plane laid flat is parallel to the ray.  Distances
    are in lowest terms. *)
Definition alongZ (origin : Vector3 Q) (_ : Vector3 R) (s : Shape)
  (m : Matrix) : list Q :=
  let t := translation m in
  match s with
  | BoxShape p =>
      let (upward, forward) :=
        if laidFlat m then (depth p, height p) else (height p, depth p) in
      if within (vx t) (width p) (vx origin)
         && within (vy t) upward (vy origin)
      then [Qred (vz t - forward / 2 - vz origin)]
      else []
  | PlaneShape sizeX sizeZ =>
      if laidFlat m then []
      else if within (vx t) sizeX (vx origin)
              && within (vy t) sizeZ (vy origin)
           then [Qred (vz t - vz origin)]
           else []
  end.

End Studio.

(* ================================================================== *)
(** * Properties *)

(* ------------------------------------------------------------------ *)
(** ** Maps *)

Module JSMapFacts.
Section Facts.
Context {V : Type}.
Implicit Types (m : JSMap.t V) (k : string) (v : V).

Lemma get_set_same k v m : JSMap.get k (JSMap.set k v m) = Some v.
Proof.
  induction m as [|[k' v'] m IH]; simpl.
  - now rewrite String.eqb_refl.
  - destruct (String.eqb k k') eqn:E; simpl; rewrite ?E; auto.
    now rewrite String.eqb_refl.
Qed.

Lemma get_set_other k k' v m :
  k <> k' -> JSMap.get k (JSMap.set k' v m) = JSMap.get k m.
Proof.
  intros N. apply String.eqb_neq in N.
  induction m as [|[k2 v2] m IH]; simpl.
  - now rewrite N.
  - destruct (String.eqb k' k2) eqn:E; simpl.
    + apply String.eqb_eq in E. subst k2. now rewrite N.
    + now rewrite IH.
Qed.

Lemma get_None_not_in k m :
  JSMap.get k m = None <-> ~ In k (JSMap.keys m).
Proof.
  induction m as [|[k' v'] m IH]; simpl.
  - tauto.
  - destruct (String.eqb_spec k k') as [->|N].
    + split; [discriminate | intros H; elim H; now left].
    + rewrite IH. split; intros H; [intros [E|I]; [congruence | tauto] | tauto].
Qed.

Lemma get_Some_in k v m : JSMap.get k m = Some v -> In (k, v) m.
Proof.
  induction m as [|[k' v'] m IH]; simpl; [discriminate|].
  destruct (String.eqb_spec k k') as [->|N].
  - intros [= ->]. now left.
  - intros H. right. auto.
Qed.

Lemma set_absent k v m :
  JSMap.get k m = None -> JSMap.set k v m = m ++ [(k, v)].
Proof.
  induction m as [|[k' v'] m IH]; simpl; auto.
  destruct (String.eqb k k'); [discriminate|].
  intros H. now rewrite IH.
Qed.

Lemma delete_app k m1 m2 :
  JSMap.delete k (m1 ++ m2) = JSMap.delete k m1 ++ JSMap.delete k m2.
Proof. apply filter_app. Qed.

Lemma get_delete_same k m : JSMap.get k (JSMap.delete k m) = None.
Proof.
  induction m as [|[k' v'] m IH]; simpl; auto.
  destruct (String.eqb k k') eqn:E; simpl; rewrite ?E; auto.
Qed.

Lemma get_delete_other k k' m :
  k <> k' -> JSMap.get k (JSMap.delete k' m) = JSMap.get k m.
Proof.
  intros N. induction m as [|[k2 v2] m IH]; simpl; auto.
  destruct (String.eqb_spec k' k2) as [->|N2]; simpl.
  - apply String.eqb_neq in N. now rewrite N.
  - now rewrite IH.
Qed.

Lemma delete_absent k m : JSMap.get k m = None -> JSMap.delete k m = m.
Proof.
  induction m as [|[k' v'] m IH]; simpl; auto.
  destruct (String.eqb k k'); [discriminate|]. simpl.
  intros H. now rewrite IH.
Qed.

Lemma keys_delete k m :
  JSMap.keys (JSMap.delete k m)
  = filter (fun k' => negb (String.eqb k k')) (JSMap.keys m).
Proof.
  induction m as [|[k' v'] m IH]; simpl; auto.
  destruct (String.eqb k k'); simpl; now rewrite IH.
Qed.

Lemma set_delete k v m :
  JSMap.set k v (JSMap.delete k m) = JSMap.delete k m ++ [(k, v)].
Proof. apply set_absent, get_delete_same. Qed.

Lemma set_set k v v' m :
  JSMap.set k v' (JSMap.set k v m) = JSMap.set k v' m.
Proof.
  induction m as [|[k' w] m IH]; simpl.
  - now rewrite String.eqb_refl.
  - destruct (String.eqb k k') eqn:E; simpl; rewrite ?E, ?String.eqb_refl;
      auto. now rewrite IH.
Qed.

Lemma filter_all (A : Type) (f : A -> bool) (l : list A) :
  (forall x, In x l -> f x = true) -> filter f l = l.
Proof.
  induction l as [|x l IH]; simpl; intros H; auto.
  rewrite (H x) by now left. f_equal. apply IH. intros y Hy. apply H.
  now right.
Qed.

Lemma filter_none (A : Type) (f : A -> bool) (l : list A) :
  (forall x, In x l -> f x = false) -> filter f l = [].
Proof.
  induction l as [|x l IH]; simpl; intros H; auto.
  rewrite (H x) by now left. apply IH. intros y Hy. apply H. now right.
Qed.

Lemma filter_twice (A : Type) (f g : A -> bool) (l : list A) :
  filter f (filter g l) = filter (fun x => g x && f x) l.
Proof.
  induction l as [|x l IH]; simpl; auto.
  destruct (g x); simpl; [destruct (f x)|]; now rewrite IH.
Qed.

Lemma touch_app (c : JSMap.Touch V) m1 m2 :
  JSMap.touch c (m1 ++ m2)
  = filter (fun e => negb (JSMap.touches c (fst e))) m1 ++ JSMap.touch c m2.
Proof.
  destruct c as [k|k v|]; simpl.
  - apply delete_app.
  - rewrite !set_delete, delete_app. now rewrite app_assoc.
  - f_equal. symmetry. now apply filter_all.
Qed.

(** A run of touches leaves the untouched entries where they are and
    puts what it creates behind them. *)
Lemma run_app (cs : list (JSMap.Touch V)) m1 m2 :
  JSMap.run cs (m1 ++ m2)
  = filter (fun e => negb (JSMap.touched cs (fst e))) m1 ++ JSMap.run cs m2.
Proof.
  revert m1 m2. induction cs as [|c cs IH]; intros m1 m2; simpl.
  - f_equal. symmetry. now apply filter_all.
  - unfold JSMap.run in *. simpl. rewrite touch_app, IH. f_equal.
    rewrite (@filter_twice (string * V)). apply filter_ext. intros e.
    now rewrite negb_orb.
Qed.

Lemma run_nil_touched (cs : list (JSMap.Touch V)) (e : string * V) :
  In e (JSMap.run cs []) -> JSMap.touched cs (fst e) = true.
Proof.
  induction cs as [|c cs IH]; simpl; [tauto|].
  unfold JSMap.run in *. simpl.
  destruct c as [k|k v|]; simpl.
  - intros H. rewrite IH by exact H. apply orb_true_r.
  - change [(k, v)] with ([(k, v)] ++ []).
    fold (JSMap.run cs ([(k, v)] ++ [])). rewrite run_app.
    intros H. apply in_app_or in H. destruct H as [H|H].
    + apply filter_In in H. destruct H as ([<-|[]] & _). simpl.
      now rewrite String.eqb_refl.
    + unfold JSMap.run in H. rewrite IH by exact H. apply orb_true_r.
  - exact IH.
Qed.

Lemma get_touch_other (c : JSMap.Touch V) k m :
  JSMap.touches c k = false -> JSMap.get k (JSMap.touch c m) = JSMap.get k m.
Proof.
  destruct c as [k'|k' v|]; simpl; auto; intros H;
    apply String.eqb_neq in H;
    assert (N : k <> k') by congruence.
  - now apply get_delete_other.
  - now rewrite get_set_other, get_delete_other.
Qed.

Lemma get_run_untouched (cs : list (JSMap.Touch V)) k m :
  JSMap.touched cs k = false -> JSMap.get k (JSMap.run cs m) = JSMap.get k m.
Proof.
  revert m. induction cs as [|c cs IH]; intros m; simpl; auto.
  intros H. apply orb_false_iff in H. destruct H as (H1 & H2).
  unfold JSMap.run in *. simpl. rewrite IH by exact H2.
  now apply get_touch_other.
Qed.

Lemma run_middle (cs1 cs2 : list (JSMap.Touch V)) (c : JSMap.Touch V) m :
  JSMap.run (cs1 ++ c :: cs2) m
  = JSMap.run cs2 (JSMap.touch c (JSMap.run cs1 m)).
Proof. unfold JSMap.run. now rewrite fold_left_app. Qed.

Lemma get_filter_key (p : string -> bool) k m :
  p k = true ->
  JSMap.get k (filter (fun e => p (fst e)) m) = JSMap.get k m.
Proof.
  intros H. induction m as [|[k' v] m IH]; simpl; auto.
  destruct (String.eqb_spec k k') as [<-|N].
  - rewrite H. simpl. now rewrite String.eqb_refl.
  - destruct (p k'); simpl; auto.
    apply String.eqb_neq in N. now rewrite N.
Qed.

Lemma run_split (cs : list (JSMap.Touch V)) m :
  JSMap.run cs m
  = filter (fun e => negb (JSMap.touched cs (fst e))) m ++ JSMap.run cs [].
Proof. rewrite <- (app_nil_r m) at 1. apply run_app. Qed.

(** Running the same touches twice, each time keeping only the keys that
    satisfy [p], gives what running them once gives. *)
Lemma run_filter_twice (p : string -> bool) (cs : list (JSMap.Touch V)) m :
  let step := fun m0 => filter (fun e => p (fst e)) (JSMap.run cs m0) in
  step (step m) = step m.
Proof.
  intros step. unfold step.
  rewrite (run_split cs m), filter_app.
  set (X := filter (fun e => p (fst e))
              (filter (fun e => negb (JSMap.touched cs (fst e))) m)).
  set (Y := filter (fun e => p (fst e)) (JSMap.run cs [])).
  rewrite run_app, (run_split cs Y).
  rewrite (filter_none (fun e => negb (JSMap.touched cs (fst e))) Y).
  - simpl. rewrite filter_app. fold Y. f_equal.
    rewrite !filter_all; auto.
    + intros e He. apply filter_In in He. destruct He as (He & _).
      unfold X in He. apply filter_In in He. tauto.
    + intros e He. unfold X in He. apply filter_In in He.
      destruct He as (He & _). apply filter_In in He. tauto.
  - intros e He. apply filter_In in He. destruct He as (He & _).
    now rewrite (run_nil_touched _ _ He).
Qed.

(** Deleting, key by key, the keys that fail [p] keeps the entries whose
    key satisfies [p]. *)
Lemma delete_failing (p : string -> bool) (ks : list string) m :
  fold_left (fun acc k => if negb (p k) then JSMap.delete k acc else acc)
            ks m
  = filter (fun e => p (fst e) || negb (existsb (String.eqb (fst e)) ks)) m.
Proof.
  revert m. induction ks as [|k ks IH]; intros m; simpl.
  - symmetry. apply filter_all. intros e _. apply orb_true_r.
  - rewrite IH. destruct (p k) eqn:E; simpl.
    + apply filter_ext_in. intros e _.
      destruct (String.eqb_spec (fst e) k) as [->|N]; simpl; auto.
      rewrite E. reflexivity.
    + unfold JSMap.delete. rewrite (@filter_twice (string * V)).
      apply filter_ext. intros e.
      rewrite (String.eqb_sym k (fst e)).
      destruct (String.eqb_spec (fst e) k) as [->|N]; simpl; auto.
      rewrite E. reflexivity.
Qed.

Lemma delete_failing_keys (p : string -> bool) m :
  fold_left (fun acc k => if negb (p k) then JSMap.delete k acc else acc)
            (JSMap.keys m) m
  = filter (fun e => p (fst e)) m.
Proof.
  rewrite delete_failing. apply filter_ext_in. intros e He.
  assert (H : existsb (String.eqb (fst e)) (JSMap.keys m) = true).
  { apply existsb_exists. exists (fst e). split.
    - now apply in_map.
    - apply String.eqb_refl. }
  rewrite H. apply orb_false_r.
Qed.

Lemma keys_set_absent k v m :
  ~ In k (JSMap.keys m) -> JSMap.keys (JSMap.set k v m) = JSMap.keys m ++ [k].
Proof.
  intros H. apply get_None_not_in in H. rewrite set_absent by exact H.
  unfold JSMap.keys. now rewrite map_app.
Qed.

Lemma keys_set_present k v m :
  In k (JSMap.keys m) -> JSMap.keys (JSMap.set k v m) = JSMap.keys m.
Proof.
  induction m as [|[k' v'] m IH]; simpl; [tauto|].
  destruct (String.eqb_spec k k') as [->|N]; simpl; auto.
  intros [E|H]; [congruence|]. now rewrite IH.
Qed.

Lemma NoDup_keys_set k v m :
  NoDup (JSMap.keys m) -> NoDup (JSMap.keys (JSMap.set k v m)).
Proof.
  intros H. destruct (in_dec string_dec k (JSMap.keys m)) as [I|N].
  - now rewrite keys_set_present.
  - rewrite keys_set_absent by exact N.
    apply NoDup_app; [exact H | repeat constructor; tauto |].
    intros x Hx [<-|[]]. contradiction.
Qed.

Lemma NoDup_keys_delete k m :
  NoDup (JSMap.keys m) -> NoDup (JSMap.keys (JSMap.delete k m)).
Proof. intros H. rewrite keys_delete. now apply NoDup_filter. Qed.

Lemma In_set k v m (e : string * V) :
  In e (JSMap.set k v m) -> e = (k, v) \/ In e m.
Proof.
  induction m as [|[k' v'] m IH]; simpl.
  - intros [H|[]]; auto.
  - destruct (String.eqb k k'); simpl; intros [H|H]; auto.
    destruct (IH H); auto.
Qed.

Lemma In_delete k m (e : string * V) :
  In e (JSMap.delete k m) -> In e m.
Proof. intros H. apply filter_In in H. tauto. Qed.

Lemma keyed_empty (key : V -> string) : JSMap.keyed key [].
Proof. split; [constructor | intros k v []]. Qed.

Lemma keyed_set (key : V -> string) k v m :
  key v = k -> JSMap.keyed key m -> JSMap.keyed key (JSMap.set k v m).
Proof.
  intros E (N & K). split.
  - now apply NoDup_keys_set.
  - intros k' v' H. apply In_set in H. destruct H as [[= -> ->]|H]; auto.
Qed.

Lemma keyed_delete (key : V -> string) k m :
  JSMap.keyed key m -> JSMap.keyed key (JSMap.delete k m).
Proof.
  intros (N & K). split.
  - now apply NoDup_keys_delete.
  - intros k' v' H. apply In_delete in H. auto.
Qed.

Lemma keyed_tail (key : V -> string) k v m :
  JSMap.keyed key ((k, v) :: m) ->
  key v = k /\ ~ In k (JSMap.keys m) /\ JSMap.keyed key m.
Proof.
  intros (N & K). simpl in N. inversion N; subst. repeat split; auto.
  - apply K. now left.
  - intros k' v' H. apply K. now right.
Qed.

(** Setting the values of a keyed map one after the other, in order,
    builds that map again. *)
Lemma ofList_values_app (key : V -> string) m (acc : JSMap.t V) :
  NoDup (JSMap.keys (acc ++ m)) ->
  (forall k v, In (k, v) m -> key v = k) ->
  fold_left (fun a v => JSMap.set (key v) v a) (JSMap.values m) acc
  = acc ++ m.
Proof.
  revert acc. induction m as [|[k v] m IH]; intros acc N K; simpl.
  - now rewrite app_nil_r.
  - assert (E : key v = k) by (apply K; now left).
    rewrite E.
    assert (A : JSMap.get k acc = None).
    { apply get_None_not_in. intros I. unfold JSMap.keys in N.
      rewrite map_app in N. simpl in N.
      apply NoDup_remove_2 in N. apply N. apply in_or_app. now left. }
    rewrite set_absent by exact A.
    replace (acc ++ (k, v) :: m) with ((acc ++ [(k, v)]) ++ m)
      by now rewrite <- app_assoc.
    apply IH.
    + now rewrite <- app_assoc.
    + intros k' v' H. apply K. now right.
Qed.

Lemma ofList_values (key : V -> string) m :
  JSMap.keyed key m -> JSMap.ofList key (JSMap.values m) = m.
Proof.
  intros (N & K). unfold JSMap.ofList, JSMap.empty.
  now rewrite ofList_values_app.
Qed.

Lemma keyed_fold_set (key : V -> string) (l : list V) m :
  JSMap.keyed key m ->
  JSMap.keyed key (fold_left (fun a v => JSMap.set (key v) v a) l m).
Proof.
  revert m. induction l as [|v l IH]; intros m K; simpl; auto.
  apply IH. now apply keyed_set.
Qed.

Lemma keyed_ofList (key : V -> string) (l : list V) :
  JSMap.keyed key (JSMap.ofList key l).
Proof. apply keyed_fold_set, keyed_empty. Qed.

Lemma keys_ofList_app (key : V -> string) (l : list V) m k :
  In k (JSMap.keys (fold_left (fun a v => JSMap.set (key v) v a) l m))
  <-> In k (JSMap.keys m) \/ In k (map key l).
Proof.
  revert m. induction l as [|v l IH]; intros m; simpl; [tauto|].
  rewrite IH.
  destruct (in_dec string_dec (key v) (JSMap.keys m)) as [I|N].
  - rewrite keys_set_present by exact I. split; [tauto|].
    intros [H|[<-|H]]; auto.
  - rewrite keys_set_absent by exact N. rewrite in_app_iff. simpl. tauto.
Qed.

(** The map built from a list holds a key exactly when a record of the
    list has it, and every entry is a record of the list. *)
Lemma keys_ofList (key : V -> string) (l : list V) k :
  In k (JSMap.keys (JSMap.ofList key l)) <-> In k (map key l).
Proof.
  unfold JSMap.ofList. rewrite keys_ofList_app. simpl. tauto.
Qed.

Lemma In_ofList_app (key : V -> string) (l : list V) m (e : string * V) :
  In e (fold_left (fun a v => JSMap.set (key v) v a) l m) ->
  In e m \/ In (snd e) l.
Proof.
  revert m. induction l as [|v l IH]; intros m; simpl; [tauto|].
  intros H. apply IH in H. destruct H as [H|H]; auto.
  apply In_set in H. destruct H as [->|H]; auto.
Qed.

Lemma In_ofList (key : V -> string) (l : list V) (e : string * V) :
  In e (JSMap.ofList key l) -> In (snd e) l.
Proof.
  intros H. apply In_ofList_app in H. destruct H as [[]|H]. exact H.
Qed.

Lemma ofList_NoDup (key : V -> string) (l : list V) :
  NoDup (map key l) ->
  JSMap.values (JSMap.ofList key l) = l.
Proof.
  intros N.
  assert (K : JSMap.keyed key (map (fun v => (key v, v)) l)).
  { split.
    - unfold JSMap.keys. rewrite map_map. exact N.
    - intros k v H. apply in_map_iff in H. now destruct H as (x & [= <- <-] & _). }
  assert (E : JSMap.values (map (fun v => (key v, v)) l) = l).
  { unfold JSMap.values. rewrite map_map. apply map_id. }
  rewrite <- E at 1. now rewrite (ofList_values K).
Qed.

Lemma fold_left_filter (A B : Type) (p : A -> bool) (f : B -> A -> B)
  (l : list A) (b : B) :
  fold_left (fun acc a => if p a then f acc a else acc) l b
  = fold_left f (filter p l) b.
Proof.
  revert b. induction l as [|a l IH]; intros b; simpl; auto.
  destruct (p a); simpl; apply IH.
Qed.

End Facts.

Section MapEntries.
Context {V W : Type} (h : string -> V -> W).

Lemma keys_mapEntries (m : JSMap.t V) :
  JSMap.keys (JSMap.mapEntries h m) = JSMap.keys m.
Proof.
  unfold JSMap.keys, JSMap.mapEntries. rewrite map_map. reflexivity.
Qed.

Lemma values_mapEntries (m : JSMap.t V) :
  JSMap.values (JSMap.mapEntries h m)
  = map (fun e : string * V => h (fst e) (snd e)) m.
Proof.
  unfold JSMap.values, JSMap.mapEntries. rewrite map_map. reflexivity.
Qed.

Lemma set_mapEntries (k : string) (v : V) (m : JSMap.t V) :
  JSMap.mapEntries h (JSMap.set k v m)
  = JSMap.set k (h k v) (JSMap.mapEntries h m).
Proof.
  induction m as [|[k' v'] m IH]; simpl; auto.
  destruct (String.eqb k k'); simpl; auto. now rewrite <- IH.
Qed.

Lemma delete_mapEntries (k : string) (m : JSMap.t V) :
  JSMap.mapEntries h (JSMap.delete k m)
  = JSMap.delete k (JSMap.mapEntries h m).
Proof.
  induction m as [|[k' v] m IH]; simpl; auto.
  destruct (String.eqb k k'); simpl; now rewrite <- IH.
Qed.

Lemma get_mapEntries (k : string) (m : JSMap.t V) :
  JSMap.get k (JSMap.mapEntries h m) = option_map (h k) (JSMap.get k m).
Proof.
  induction m as [|[k0 v0] m IH]; simpl; auto.
  destruct (String.eqb k k0) eqn:E; auto.
  apply String.eqb_eq in E. now subst.
Qed.
End MapEntries.

Section MapValues.
Context {V W : Type} (h : V -> W).

Lemma keys_mapValues (m : JSMap.t V) :
  JSMap.keys (JSMap.mapValues h m) = JSMap.keys m.
Proof.
  unfold JSMap.keys, JSMap.mapValues. rewrite map_map. reflexivity.
Qed.

Lemma get_mapValues (k : string) (m : JSMap.t V) :
  JSMap.get k (JSMap.mapValues h m) = option_map h (JSMap.get k m).
Proof.
  induction m as [|[k' v] m IH]; simpl; auto.
  now destruct (String.eqb k k').
Qed.

Lemma delete_mapValues (k : string) (m : JSMap.t V) :
  JSMap.mapValues h (JSMap.delete k m)
  = JSMap.delete k (JSMap.mapValues h m).
Proof.
  induction m as [|[k' v] m IH]; simpl; auto.
  destruct (String.eqb k k'); simpl; now rewrite <- IH.
Qed.

Lemma set_mapValues (k : string) (v : V) (m : JSMap.t V) :
  JSMap.mapValues h (JSMap.set k v m)
  = JSMap.set k (h v) (JSMap.mapValues h m).
Proof.
  induction m as [|[k' v'] m IH]; simpl; auto.
  destruct (String.eqb k k'); simpl; auto. now rewrite <- IH.
Qed.
End MapValues.
End JSMapFacts.

(* ------------------------------------------------------------------ *)
(** ** The angular grid *)

Module GridFacts.
Import Three Grid Scene Sensor Obstacle World Beams Examples.
Local Open Scope Q_scope.

Lemma loopIndices_length (n : Z) :
  List.length (loopIndices n) = Z.to_nat n.
Proof. unfold loopIndices. now rewrite length_map, length_seq. Qed.

Lemma loopIndices_nth (n : Z) (k : nat) :
  (k < Z.to_nat n)%nat -> nth k (loopIndices n) 0%Z = Z.of_nat k.
Proof.
  intros Hk. unfold loopIndices.
  change 0%Z with (Z.of_nat 0). rewrite map_nth, seq_nth; auto.
Qed.

Lemma In_loopIndices (n k : Z) :
  In k (loopIndices n) <-> (0 <= k < n)%Z.
Proof.
  unfold loopIndices. rewrite in_map_iff. split.
  - intros (m & <- & Hm). apply in_seq in Hm. lia.
  - intros Hk. exists (Z.to_nat k). split; [lia|]. apply in_seq. lia.
Qed.

Lemma degToRad_Qeq (a b : Q) : a == b -> degToRad a = degToRad b.
Proof. intros H. unfold degToRad. now rewrite (Qeq_eqR _ _ H). Qed.

Lemma NoDup_loopIndices (n : Z) : NoDup (loopIndices n).
Proof.
  unfold loopIndices. apply Finite.Injective_map_NoDup.
  - intros a b H. lia.
  - apply seq_NoDup.
Qed.

(** The pairs of two lists without repetition do not repeat. *)
Lemma NoDup_rays (cs js : list Z) :
  NoDup cs -> NoDup js -> NoDup (list_prod cs js).
Proof.
  intros Hc Hj. induction Hc as [|c cs Hn Hc IH]; simpl; [constructor|].
  apply NoDup_app; auto.
  - apply Finite.Injective_map_NoDup; auto.
    intros a b H. now injection H.
  - intros [i k] H1 H2. apply in_map_iff in H1.
    destruct H1 as (x & [= <- <-] & _).
    apply in_prod_iff in H2. tauto.
Qed.

(** C3, as stated, fails.  A definition with [hFov = 0] is not a full
    turn and gets [ceil (0 / 5) = 0] horizontal steps: no ray at all,
    and so less than one sample per channel.  A definition with
    [hFov = -10] gets no ray either, while [ceil (-10 / 5)] is [-2]. *)
Lemma numHorizontalSteps_zero_span :
  (~ hFov zeroSpan == 360
   /\ Qceiling (hFov zeroSpan / 5) = 0%Z
   /\ rays zeroSpan = []
   /\ ~ (1 <= List.length (loopIndices (numHorizontalSteps zeroSpan)))%nat)
  /\ (~ hFov negSpan == 360
      /\ Qceiling (hFov negSpan / 5) = (-2)%Z
      /\ rays negSpan = []
      /\ Z.of_nat (List.length (loopIndices (numHorizontalSteps negSpan)))
         <> Qceiling (hFov negSpan / 5)).
Proof.
  split; split; try split; try split; try reflexivity.
  - intros H. discriminate H.
  - vm_compute. lia.
  - intros H. discriminate H.
  - vm_compute. discriminate.
Qed.

(** C3, amended: the horizontal steps of a channel are
    [j = 0, ..., samples - 1], each once, where [samples] is 72 when
    [hFov == 360] and otherwise [ceil (hFov / 5)] when that is positive
    and 0 when it is not; there is at least one sample when [hFov] is
    positive and none when [hFov <= 0]; for [hFov == 180] there are 36.
    A sensor has [channels] times [samples] rays. *)
Theorem numHorizontalSteps_spec (d : SensorDefinition) :
  let samples := List.length (loopIndices (numHorizontalSteps d)) in
  (hFov d == 360 -> samples = 72%nat)
  /\ (~ hFov d == 360 ->
      samples = Z.to_nat (Qceiling (hFov d / 5))
      /\ Z.of_nat samples = Z.max 0 (Qceiling (hFov d / 5)))
  /\ (~ hFov d == 360 -> 0 < hFov d ->
      Z.of_nat samples = Qceiling (hFov d / 5) /\ (1 <= samples)%nat)
  /\ (hFov d <= 0 -> samples = 0%nat)
  /\ (hFov d == 180 -> samples = 36%nat)
  /\ (forall i j : Z,
        In (i, j) (rays d)
        <-> (0 <= i < channels d)%Z /\ (0 <= j < Z.of_nat samples)%Z)
  /\ NoDup (rays d)
  /\ List.length (rays d) = (Z.to_nat (channels d) * samples)%nat.
Proof.
  intros samples.
  assert (S : samples = Z.to_nat (numHorizontalSteps d))
    by apply loopIndices_length.
  assert (P : 0 < hFov d -> (1 <= Qceiling (hFov d / 5))%Z).
  { intros Hpos.
    assert (Hc := Qle_ceiling (hFov d / 5)).
    assert (Hd : 0 < hFov d / 5).
    { apply Qlt_shift_div_l; [reflexivity|]. now rewrite Qmult_0_l. }
    assert (Hz : inject_Z 0 < inject_Z (Qceiling (hFov d / 5))).
    { eapply Qlt_le_trans; [exact Hd | exact Hc]. }
    rewrite <- Zlt_Qlt in Hz. lia. }
  assert (N : hFov d <= 0 -> (Qceiling (hFov d / 5) <= 0)%Z).
  { intros Hneg.
    assert (Hd : hFov d / 5 <= inject_Z 0).
    { apply Qle_shift_div_r; [reflexivity|]. now rewrite Qmult_0_l. }
    apply Qceiling_resp_le in Hd. rewrite Qceiling_Z in Hd. exact Hd. }
  assert (F : hFov d == 360 -> numHorizontalSteps d = 72%Z).
  { intros H. unfold numHorizontalSteps.
    now rewrite (proj2 (Qeq_bool_iff (hFov d) 360) H). }
  assert (G : ~ hFov d == 360 ->
              numHorizontalSteps d = Qceiling (hFov d / 5)).
  { intros H. unfold numHorizontalSteps.
    destruct (Qeq_bool (hFov d) 360) eqn:E; auto.
    apply Qeq_bool_iff in E. contradiction. }
  split; [intros H; now rewrite S, (F H)|].
  split; [intros H; rewrite S, (G H); lia|].
  split; [intros H Hpos; rewrite S, (G H); specialize (P Hpos); lia|].
  split.
  { intros Hneg. rewrite S, G.
    - specialize (N Hneg). lia.
    - intros H. rewrite H in Hneg. now apply Hneg. }
  split.
  { intros H. rewrite S, G.
    - rewrite (Qceiling_comp (hFov d / 5) (180 / 5)); [reflexivity|].
      now rewrite H.
    - intros H'. rewrite H in H'. discriminate H'. }
  split; [|split].
  - intros i j. unfold rays. rewrite in_prod_iff, !In_loopIndices.
    rewrite S. split; intros (A & B); split; auto; lia.
  - apply NoDup_rays; apply NoDup_loopIndices.
  - unfold rays. rewrite length_prod, loopIndices_length. reflexivity.
Qed.

Lemma numHorizontalSteps_spec_witness :
  List.length (loopIndices (numHorizontalSteps fullTurn)) = 72%nat
  /\ List.length (loopIndices (numHorizontalSteps halfTurn)) = 36%nat
  /\ (1 <= List.length (loopIndices (numHorizontalSteps halfTurn)))%nat
  /\ List.length (loopIndices (numHorizontalSteps negSpan)) = 0%nat.
Proof.
  split; [|split; [|split]].
  - apply (proj1 (numHorizontalSteps_spec fullTurn)). reflexivity.
  - apply (proj1 (proj2 (proj2 (proj2 (proj2
             (numHorizontalSteps_spec halfTurn)))))).
    reflexivity.
  - apply (proj1 (proj2 (proj2 (numHorizontalSteps_spec halfTurn)))).
    + intros H. discriminate H.
    + reflexivity.
  - apply (proj1 (proj2 (proj2 (proj2
             (numHorizontalSteps_spec negSpan))))).
    discriminate.
Defined.


Lemma degToRad_minus (a b : Q) :
  (degToRad a - degToRad b)%R = degToRad (a - b).
Proof. unfold degToRad. rewrite Q2R_minus. ring. Qed.

Lemma degToRad_0 : degToRad 0 = 0%R.
Proof. unfold degToRad. rewrite RMicromega.Q2R_0. ring. Qed.

Lemma vAngleRad_verticalEven (d : SensorDefinition) (i : Z) :
  beamLayout d = verticalEven -> (1 < channels d)%Z ->
  vAngleRad d i
  = degToRad (- (vFov d / 2)
              + inject_Z i * (vFov d / inject_Z (channels d - 1))).
Proof.
  intros HL HC. unfold vAngleRad, vAngleStep.
  destruct (Z.eqb_spec (channels d) 1) as [E|_]; [lia|].
  rewrite HL, Z.max_r by lia. reflexivity.
Qed.

(** C4: with the layout [verticalEven] and more than one channel, channel
    [i] has the vertical angle [-vFov/2 + i (vFov / (channels - 1))]
    degrees; there is one angle per channel, the first is [-vFov/2], the
    last is [+vFov/2], and consecutive angles differ by the same step. *)
Theorem verticalEven_angles (d : SensorDefinition) :
  beamLayout d = verticalEven -> (1 < channels d)%Z ->
  (forall i : Z,
      vAngleRad d i
      = degToRad (- (vFov d / 2)
                  + inject_Z i * (vFov d / inject_Z (channels d - 1))))
  /\ List.length (verticalAngles d) = Z.to_nat (channels d)
  /\ (forall k : nat, (k < Z.to_nat (channels d))%nat ->
        nth k (verticalAngles d) 0%R = vAngleRad d (Z.of_nat k))
  /\ vAngleRad d 0 = degToRad (- (vFov d / 2))
  /\ vAngleRad d (channels d - 1) = degToRad (vFov d / 2)
  /\ (forall i : Z,
        (vAngleRad d (i + 1) - vAngleRad d i)%R
        = degToRad (vFov d / inject_Z (channels d - 1))).
Proof.
  intros HL HC.
  assert (NZ : ~ inject_Z (channels d - 1) == 0).
  { intros H. unfold Qeq in H. simpl in H. lia. }
  repeat split.
  - intros i. now apply vAngleRad_verticalEven.
  - unfold verticalAngles. rewrite length_map. apply loopIndices_length.
  - intros k Hk. unfold verticalAngles.
    rewrite <- (loopIndices_nth (channels d) Hk).
    rewrite <- (map_nth (vAngleRad d)).
    apply nth_indep. rewrite length_map, loopIndices_length. exact Hk.
  - rewrite vAngleRad_verticalEven by assumption.
    apply degToRad_Qeq. change (inject_Z 0) with 0. ring.
  - rewrite vAngleRad_verticalEven by assumption.
    apply degToRad_Qeq. field. exact NZ.
  - intros i. rewrite !vAngleRad_verticalEven by assumption.
    rewrite degToRad_minus. apply degToRad_Qeq.
    rewrite inject_Z_plus. change (inject_Z 1) with 1. ring.
Qed.

Lemma verticalEven_angles_witness :
  vAngleRad fullTurn 0 = degToRad (- (30 / 2))
  /\ vAngleRad fullTurn 15 = degToRad (30 / 2)
  /\ List.length (verticalAngles fullTurn) = 16%nat.
Proof.
  destruct (verticalEven_angles fullTurn) as (_ & HN & _ & H0 & HL & _).
  - reflexivity.
  - reflexivity.
  - split; [exact H0 | split; [exact HL | exact HN]].
Defined.

(** C5: with a single channel, whatever the layout, and with the layout
    [singlePlane], whatever the number of channels, the vertical angle of
    every ray is 0. *)
Theorem flat_vertical_angle (d : SensorDefinition) :
  channels d = 1%Z \/ beamLayout d = singlePlane ->
  (forall i : Z, vAngleRad d i = 0%R)
  /\ Forall (fun a => a = 0%R) (verticalAngles d).
Proof.
  intros H.
  assert (A : forall i : Z, vAngleRad d i = 0%R).
  { intros i. unfold vAngleRad. destruct H as [H|H].
    - rewrite H. reflexivity.
    - rewrite H. now destruct (channels d =? 1)%Z. }
  split; [exact A|].
  unfold verticalAngles. apply Forall_forall.
  intros a Ha. apply in_map_iff in Ha. destruct Ha as (i & <- & _).
  apply A.
Qed.

Lemma flat_vertical_angle_witness :
  vAngleRad singleChannel 0 = 0%R /\ vAngleRad planar 3 = 0%R.
Proof.
  split.
  - apply (flat_vertical_angle singleChannel). left. reflexivity.
  - apply (flat_vertical_angle planar). right. reflexivity.
Defined.

End GridFacts.

(* ------------------------------------------------------------------ *)
(** ** The direction of a ray *)

Module DirectionFacts.
Import Three Grid Scene Sensor Examples.
Local Open Scope R_scope.

Lemma half_angle (a : R) :
  sin a = 2 * sin (a / 2) * cos (a / 2)
  /\ cos a = cos (a / 2) * cos (a / 2) - sin (a / 2) * sin (a / 2)
  /\ sin (a / 2) * sin (a / 2) + cos (a / 2) * cos (a / 2) = 1.
Proof.
  split; [|split].
  - rewrite <- sin_2a. f_equal. lra.
  - rewrite <- cos_2a. f_equal. lra.
  - generalize (sin2_cos2 (a / 2)). unfold Rsqr. tauto.
Qed.

(** The closed formula of [setFromEuler] is the product of the three
    axis rotations in the order Y, X, Z. *)
Lemma setFromEuler_product (e : Euler) :
  setFromEuler e
  = multiplyQuaternions
      (multiplyQuaternions (axisAngleY (ey e)) (axisAngleX (ex e)))
      (axisAngleZ (ez e)).
Proof.
  unfold setFromEuler, multiplyQuaternions, axisAngleX, axisAngleY,
    axisAngleZ; simpl.
  f_equal; ring.
Qed.

(** Applying that quaternion turns a vector about Z, then about X, then
    about Y (the axes of the parent frame), which is the same as turning
    about Y, X and Z in the sensor's own frame. *)
Lemma applyQuaternion_setFromEuler (e : Euler) (v : Vector3 R) :
  applyQuaternion (setFromEuler e) v
  = rotateY (ey e) (rotateX (ex e) (rotateZ (ez e) v)).
Proof.
  destruct (half_angle (ex e)) as (Sx & Cx & Ux).
  destruct (half_angle (ey e)) as (Sy & Cy & Uy).
  destruct (half_angle (ez e)) as (Sz & Cz & Uz).
  unfold applyQuaternion, setFromEuler, rotateX, rotateY, rotateZ; simpl.
  rewrite Sx, Sy, Sz, Cx, Cy, Cz.
  set (s1 := sin (ex e / 2)) in *. set (c1 := cos (ex e / 2)) in *.
  set (s2 := sin (ey e / 2)) in *. set (c2 := cos (ey e / 2)) in *.
  set (s3 := sin (ez e / 2)) in *. set (c3 := cos (ez e / 2)) in *.
  clearbody s1 c1 s2 c2 s3 c3. clear Sx Sy Sz Cx Cy Cz.
  f_equal; nsatz.
Qed.

Lemma lengthSq_localDirection (h v : R) : lengthSq (localDirection h v) = 1.
Proof.
  unfold lengthSq, localDirection; simpl.
  generalize (sin2_cos2 h) (sin2_cos2 v). unfold Rsqr. intros A B. nsatz.
Qed.

Lemma lengthSq_rotateX (a : R) (v : Vector3 R) :
  lengthSq (rotateX a v) = lengthSq v.
Proof.
  unfold lengthSq, rotateX; simpl.
  generalize (sin2_cos2 a). unfold Rsqr. intros A. nsatz.
Qed.

Lemma lengthSq_rotateY (a : R) (v : Vector3 R) :
  lengthSq (rotateY a v) = lengthSq v.
Proof.
  unfold lengthSq, rotateY; simpl.
  generalize (sin2_cos2 a). unfold Rsqr. intros A. nsatz.
Qed.

Lemma lengthSq_rotateZ (a : R) (v : Vector3 R) :
  lengthSq (rotateZ a v) = lengthSq v.
Proof.
  unfold lengthSq, rotateZ; simpl.
  generalize (sin2_cos2 a). unfold Rsqr. intros A. nsatz.
Qed.

Lemma normalize_unit (v : Vector3 R) : lengthSq v = 1 -> normalize v = v.
Proof.
  intros H. unfold normalize, length. rewrite H, sqrt_1.
  destruct (Req_EM_T 1 0) as [E|_]; [lra|].
  destruct v as [x y z]; simpl. f_equal; field.
Qed.

(** The world direction of a ray already has length 1 before it is
    normalized. *)
Lemma rayDirection_rotations (e : Euler) (d : SensorDefinition) (i j : Z) :
  rayDirection (setFromEuler e) d i j
  = rotateY (ey e) (rotateX (ex e) (rotateZ (ez e)
      (localDirection (hAngleRad d j) (vAngleRad d i)))).
Proof.
  unfold rayDirection. rewrite applyQuaternion_setFromEuler.
  apply normalize_unit.
  now rewrite lengthSq_rotateY, lengthSq_rotateX, lengthSq_rotateZ,
    lengthSq_localDirection.
Qed.

Lemma quaternion_of_rotation (g : Group) (r : Rotation) :
  group_rotation g = eulerOfRotation r ->
  quaternion g = orientationFromYawPitchRoll r.
Proof.
  intros Hg. unfold quaternion. rewrite Hg, setFromEuler_product.
  reflexivity.
Qed.

Lemma applyQuaternion_orientation (r : Rotation) (v : Vector3 R) :
  applyQuaternion (orientationFromYawPitchRoll r) v
  = rotateY (degToRad (yaw r))
      (rotateX (degToRad (pitch r)) (rotateZ (degToRad (roll r)) v)).
Proof.
  change (orientationFromYawPitchRoll r)
    with (multiplyQuaternions
            (multiplyQuaternions (axisAngleY (ey (eulerOfRotation r)))
                                 (axisAngleX (ex (eulerOfRotation r))))
            (axisAngleZ (ez (eulerOfRotation r)))).
  rewrite <- setFromEuler_product.
  apply (applyQuaternion_setFromEuler (eulerOfRotation r)).
Qed.

End DirectionFacts.

(* ------------------------------------------------------------------ *)
(** ** Resolving the distance of a ray *)

Module RayFacts.
Import Three Grid Scene Sensor Obstacle World Beams Examples.
Local Open Scope string_scope.
Local Open Scope list_scope.
Local Open Scope Q_scope.

Lemma insertByDistance_perm (x : Intersection) (l : list Intersection) :
  Permutation (insertByDistance x l) (x :: l).
Proof.
  induction l as [|y l IH]; simpl; auto.
  destruct (Qle_bool (distance x) (distance y)); auto.
  rewrite IH. apply perm_swap.
Qed.

Lemma sortByDistance_perm (l : list Intersection) :
  Permutation (sortByDistance l) l.
Proof.
  induction l as [|x l IH]; simpl; auto.
  rewrite insertByDistance_perm. now constructor.
Qed.

Lemma insertByDistance_sorted (x : Intersection) (l : list Intersection) :
  StronglySorted byDistance l ->
  StronglySorted byDistance (insertByDistance x l).
Proof.
  induction 1 as [|y l Hs IH Hy]; simpl.
  - repeat constructor.
  - destruct (Qle_bool (distance x) (distance y)) eqn:E.
    + apply Qle_bool_iff in E. constructor.
      * now constructor.
      * constructor; [exact E|].
        eapply Forall_impl; [|exact Hy].
        intros z Hz. unfold byDistance in *. now apply Qle_trans with (distance y).
    + constructor; [exact IH|].
      assert (Hyx : distance y <= distance x).
      { apply Qlt_le_weak, Qnot_le_lt. intros H.
        apply Qle_bool_iff in H. congruence. }
      apply (Permutation_Forall (Permutation_sym (insertByDistance_perm x l))).
      constructor; assumption.
Qed.

Lemma sortByDistance_sorted (l : list Intersection) :
  StronglySorted byDistance (sortByDistance l).
Proof.
  induction l as [|x l IH]; simpl.
  - constructor.
  - now apply insertByDistance_sorted.
Qed.

(** The first element of the sorted hits is a hit, and no hit is nearer. *)
Lemma sortByDistance_head (l : list Intersection) (h : Intersection)
  (t : list Intersection) :
  sortByDistance l = h :: t ->
  In h l /\ forall x, In x l -> distance h <= distance x.
Proof.
  intros E. assert (P := sortByDistance_perm l).
  assert (S := sortByDistance_sorted l). rewrite E in P, S.
  split.
  - apply (Permutation_in _ P). now left.
  - intros x Hx. apply (Permutation_in _ (Permutation_sym P)) in Hx.
    destruct Hx as [<-|Hx]; [apply Qle_refl|].
    inversion S as [|? ? _ HF]; subst.
    rewrite Forall_forall in HF. now apply HF.
Qed.

Lemma sortByDistance_nil (l : list Intersection) :
  sortByDistance l = [] -> l = [].
Proof.
  intros E. apply Permutation_nil. rewrite <- E.
  apply sortByDistance_perm.
Qed.

Lemma Qltb_lt (a b : Q) : Qltb a b = true <-> a < b.
Proof.
  unfold Qltb. rewrite negb_true_iff. split.
  - intros H. apply Qnot_le_lt. intros L. apply Qle_bool_iff in L.
    congruence.
  - intros H. destruct (Qle_bool b a) eqn:E; auto.
    apply Qle_bool_iff in E. exfalso. now apply (Qlt_not_le _ _ H).
Qed.

Lemma Qltb_ge (a b : Q) : Qltb a b = false <-> b <= a.
Proof.
  unfold Qltb. rewrite negb_false_iff. apply Qle_bool_iff.
Qed.

Section Rays.
Variable raycast : Vector3 Q -> Vector3 R -> Collidable -> list Q.

(** The hits that [intersectObjects] reports are the surface hits with
    a distance between [near] and [far]. *)
Lemma In_intersectObjects (near far : Q) (origin : Vector3 Q)
  (direction : Vector3 R) (objects : list Collidable) (d : Q) :
  In d (map distance
          (intersectObjects raycast near far origin direction objects))
  <-> In d (flat_map (raycast origin direction) objects)
      /\ near <= d /\ d <= far.
Proof.
  unfold intersectObjects.
  assert (P := Permutation_map distance
                 (sortByDistance_perm
                    (flat_map (intersectObject raycast near far origin
                                               direction) objects))).
  split.
  - intros Hs. apply (Permutation_in _ P) in Hs.
    apply in_map_iff in Hs. destruct Hs as (x & <- & Hx).
    apply in_flat_map in Hx.
    destruct Hx as (o & Ho & Hx). unfold intersectObject in Hx.
    apply in_map_iff in Hx. destruct Hx as (d & <- & Hd).
    apply filter_In in Hd. destruct Hd as (Hd & Hf).
    apply negb_true_iff, orb_false_iff in Hf. destruct Hf as (F1 & F2).
    apply Qltb_ge in F1, F2. simpl. repeat split; auto.
    apply in_flat_map. now exists o.
  - intros (Hd & Hn & Hf). apply (Permutation_in _ (Permutation_sym P)).
    apply in_flat_map in Hd. destruct Hd as (o & Ho & Hd).
    apply in_map_iff.
    exists (mkIntersection d o). split; [reflexivity|].
    apply in_flat_map. exists o. split; [exact Ho|].
    unfold intersectObject.
    apply (in_map (fun d0 : Q => mkIntersection d0 o)).
    apply filter_In. split; [exact Hd|].
    apply negb_true_iff, orb_false_iff. split; now apply Qltb_ge.
Qed.

Lemma intersectObjects_head (near far : Q) (origin : Vector3 Q)
  (direction : Vector3 R) (objects : list Collidable)
  (h : Intersection) (t : list Intersection) :
  intersectObjects raycast near far origin direction objects = h :: t ->
  forall d : Q,
    In d (map distance
            (intersectObjects raycast near far origin direction objects))
    -> distance h <= d.
Proof.
  intros E d Hd. rewrite E in Hd.
  assert (S := sortByDistance_sorted
                 (flat_map (intersectObject raycast near far origin
                                            direction) objects)).
  fold (intersectObjects raycast near far origin direction objects) in S.
  rewrite E in S. inversion S as [|? ? _ HF]; subst.
  apply in_map_iff in Hd. destruct Hd as (x & <- & [<-|Hx]).
  - apply Qle_refl.
  - rewrite Forall_forall in HF. now apply HF.
Qed.

(* Whatever [raycast] reports for the objects handed to the
   raycaster: the resolved distance is the nearest reported hit in
   front of the origin when that is below [maxRange], and [maxRange]
   when none is reported within [maxRange]. *)
Lemma rayDistance_nearest (regs : Registries)
  (definition : SensorDefinition) (sensorGroup : Group) (i j : Z) :
  let hits :=
    flat_map (raycast (group_position sensorGroup)
                (rayDirection (quaternion sensorGroup) definition i j))
             (collidableObjects regs) in
  (forall d : Q,
      In d hits -> 0 <= d -> d < maxRange definition ->
      (forall d' : Q, In d' hits -> 0 <= d' -> d <= d') ->
      rayDistance raycast regs definition sensorGroup i j == d)
  /\ ((forall d' : Q,
          In d' hits -> ~ (0 <= d' /\ d' <= maxRange definition)) ->
      rayDistance raycast regs definition sensorGroup i j
      = maxRange definition).
Proof.
  intros hits. unfold rayDistance, resolveDistance.
  assert (HI := fun d =>
    In_intersectObjects 0 (maxRange definition)
      (group_position sensorGroup)
      (rayDirection (quaternion sensorGroup) definition i j)
      (collidableObjects regs) d).
  fold hits in HI.
  destruct (intersectObjects raycast 0 (maxRange definition)
              (group_position sensorGroup)
              (rayDirection (quaternion sensorGroup) definition i j)
              (collidableObjects regs)) as [|h t] eqn:E.
  - split; [|reflexivity].
    intros d Hd H0 Hlt _. exfalso.
    apply (proj2 (HI d)). repeat split; auto. now apply Qlt_le_weak.
  - assert (Hh : In (distance h) hits /\ 0 <= distance h
                 /\ distance h <= maxRange definition).
    { apply HI. now left. }
    destruct Hh as (A & B & C). split.
    + intros d Hd H0 Hlt Hmin. apply Qle_antisym.
      * eapply intersectObjects_head; [exact E|]. rewrite E. apply HI.
        repeat split; auto. now apply Qlt_le_weak.
      * now apply Hmin.
    + intros Hnone. exfalso. apply (Hnone _ A). now split.
Qed.

Lemma castBeam_shapes (regs : Registries) (definition : SensorDefinition)
  (sensorGroup : Group) (i j : Z) (acc : Runtime * list BeamMesh) :
  map beamShape
      (snd (castBeam raycast regs definition sensorGroup i j acc))
  = map beamShape (snd acc)
    ++ map (shapeOfSample (beamLayout definition))
           (filter drawn
                   [raySample raycast regs definition sensorGroup (i, j)]).
Proof.
  unfold castBeam, drawn, raySample; simpl.
  destruct (Qltb (rayDistance raycast regs definition sensorGroup i j)
                 0.01); simpl.
  - now rewrite app_nil_r.
  - rewrite map_app. reflexivity.
Qed.

Lemma castBeams_shapes (regs : Registries) (definition : SensorDefinition)
  (sensorGroup : Group) (acc : Runtime * list BeamMesh) :
  map beamShape (snd (castBeams raycast regs definition sensorGroup acc))
  = map beamShape (snd acc)
    ++ map (shapeOfSample (beamLayout definition))
           (filter drawn
                   (map (raySample raycast regs definition sensorGroup)
                        (rays definition))).
Proof.
  unfold castBeams, rays.
  generalize (loopIndices (numHorizontalSteps definition)) as js.
  generalize (loopIndices (channels definition)) as cs.
  intros cs js. revert acc.
  induction cs as [|i cs IH]; intros acc; simpl.
  - now rewrite app_nil_r.
  - rewrite IH. clear IH.
    rewrite map_app, filter_app, map_app, app_assoc. f_equal.
    revert acc. induction js as [|j js IHj]; intros acc; simpl.
    + now rewrite app_nil_r.
    + rewrite IHj, castBeam_shapes. simpl.
      destruct (drawn (raySample raycast regs definition sensorGroup
                                 (i, j))); simpl;
        now rewrite <- app_assoc.
Qed.

(** C7: a ray whose resolved distance is below 0.01 adds no beam and
    leaves the state of the loop as it was; the loops go on with the
    other rays, so that the beams of a sensor are those of the rays
    with a distance of at least 0.01, one each, in the order of the
    loops. *)
Theorem short_rays_skipped (regs : Registries)
  (definition : SensorDefinition) (sensorGroup : Group) :
  (forall (i j : Z) (acc : Runtime * list BeamMesh),
      rayDistance raycast regs definition sensorGroup i j < 0.01 ->
      castBeam raycast regs definition sensorGroup i j acc = acc)
  /\ (forall (i j : Z) (acc : Runtime * list BeamMesh),
        0.01 <= rayDistance raycast regs definition sensorGroup i j ->
        exists beamMesh : BeamMesh,
          snd (castBeam raycast regs definition sensorGroup i j acc)
          = snd acc ++ [beamMesh]
          /\ cone_height (beam_geometry beamMesh)
             = rayDistance raycast regs definition sensorGroup i j)
  /\ (forall rt : Runtime,
        map beamShape
            (snd (castBeams raycast regs definition sensorGroup (rt, [])))
        = map (shapeOfSample (beamLayout definition))
              (filter (fun s => negb (Qltb (sample_distance s) 0.01))
                      (map (raySample raycast regs definition sensorGroup)
                           (rays definition)))).
Proof.
  split; [|split].
  - intros i j acc H. unfold castBeam. apply Qltb_lt in H.
    now rewrite H.
  - intros i j acc H. unfold castBeam. apply Qltb_ge in H.
    rewrite H. simpl. eexists. split; reflexivity.
  - intros rt. now rewrite castBeams_shapes.
Qed.

End Rays.

Lemma short_rays_skipped_witness :
  castBeam touching scene1 fullTurn group1 0 0 (Scene.initial, [])
  = (Scene.initial, []).
Proof.
  apply (proj1 (short_rays_skipped touching scene1 fullTurn group1)).
  reflexivity.
Defined.

End RayFacts.

(* ------------------------------------------------------------------ *)
(** ** Re-evaluation of the engine *)

Module BeamFacts.
Import Three Grid Scene Sensor Obstacle World Beams Examples.
Import JSMapFacts RayFacts.
Local Open Scope string_scope.
Local Open Scope list_scope.
Local Open Scope Q_scope.

Lemma clearBeamsForSensor_beamMeshes (k : string)
  (st : Runtime * BeamManager) :
  beamMeshes (snd (clearBeamsForSensor k st))
  = JSMap.delete k (beamMeshes (snd st)).
Proof.
  destruct st as [rt bm]. unfold clearBeamsForSensor; simpl.
  destruct (JSMap.get k (beamMeshes bm)) eqn:E; simpl; auto.
  symmetry. now apply delete_absent.
Qed.

Lemma clearBeamsForSensor_visuals (k : string)
  (st : Runtime * BeamManager) :
  visuals (snd (clearBeamsForSensor k st))
  = JSMap.delete k (visuals (snd st)).
Proof.
  unfold visuals. rewrite clearBeamsForSensor_beamMeshes.
  apply delete_mapValues.
Qed.

Section Engine.
Variable raycast : Vector3 Q -> Vector3 R -> Collidable -> list Q.

Lemma generateBeamsForSensor_visuals (regs : Registries)
  (sensorData : PlacedSensorData) (definition : SensorDefinition)
  (sensorGroup : Group) (st : Runtime * BeamManager) :
  visuals (snd (generateBeamsForSensor raycast regs sensorData definition
                                       sensorGroup st))
  = JSMap.touch
      (JSMap.Renew
         (sensor_id sensorData)
         (("beams_" ++ sensor_id sensorData)%string, true,
          map (shapeOfSample (beamLayout definition))
              (filter drawn
                      (map (raySample raycast regs definition sensorGroup)
                           (rays definition)))))
      (visuals (snd st)).
Proof.
  unfold generateBeamsForSensor.
  assert (C := clearBeamsForSensor_visuals (sensor_id sensorData) st).
  destruct (clearBeamsForSensor (sensor_id sensorData) st) as [rt0 bm0].
  simpl in C.
  destruct (newObject rt0) as [gid rt1] eqn:EN.
  assert (S := castBeams_shapes raycast regs definition sensorGroup
                                (sceneAdd gid rt1, [])).
  destruct (castBeams raycast regs definition sensorGroup
                      (sceneAdd gid rt1, [])) as [rt3 added].
  simpl in S. simpl. unfold visuals in *. simpl.
  rewrite set_set, set_mapValues, C. unfold groupShape; simpl.
  now rewrite S.
Qed.

Lemma updateSensorBeams_visuals (regs : Registries)
  (st : Runtime * BeamManager) (sensorData : PlacedSensorData) :
  visuals (snd (updateSensorBeams raycast regs st sensorData))
  = JSMap.touch (sensorTouch raycast regs sensorData) (visuals (snd st)).
Proof.
  unfold updateSensorBeams, sensorTouch.
  destruct (negb (visible sensorData)).
  - apply clearBeamsForSensor_visuals.
  - destruct (getSensorDefinitionById _ _) as [definition|];
      [|reflexivity].
    destruct (getPlacedSensorById _ _) as [sensorGroup|]; [|reflexivity].
    apply generateBeamsForSensor_visuals.
Qed.

Lemma sensorsLoop_visuals (regs : Registries)
  (sensors : list PlacedSensorData) (st : Runtime * BeamManager) :
  visuals (snd (fold_left (updateSensorBeams raycast regs) sensors st))
  = JSMap.run (map (sensorTouch raycast regs) sensors) (visuals (snd st)).
Proof.
  revert st. induction sensors as [|s sensors IH]; intros st; simpl; auto.
  rewrite IH, updateSensorBeams_visuals. reflexivity.
Qed.

Lemma goneLoop_visuals (ids ks : list string)
  (st : Runtime * BeamManager) :
  visuals (snd (fold_left (clearIfGone ids) ks st))
  = fold_left
      (fun acc k =>
         if negb (existsb (String.eqb k) ids)
         then JSMap.delete k acc else acc)
      ks (visuals (snd st)).
Proof.
  revert st. induction ks as [|k ks IH]; intros st; simpl; auto.
  rewrite IH. f_equal. unfold clearIfGone.
  destruct (negb (existsb (String.eqb k) ids)); auto.
  apply clearBeamsForSensor_visuals.
Qed.

(** What an evaluation leaves in [beamMeshes], identities apart: the
    touches of the sensors run over the former content, and of the
    result the entries of the current sensors. *)
Lemma updateBeams_visuals (regs : Registries)
  (st : Runtime * BeamManager) :
  visuals (snd (updateBeams raycast regs st))
  = filter
      (fun e =>
         existsb (String.eqb (fst e))
                 (map sensor_id
                      (getAllPlacedSensorData (sensorManager regs))))
      (JSMap.run
         (map (sensorTouch raycast regs)
              (getAllPlacedSensorData (sensorManager regs)))
         (visuals (snd st))).
Proof.
  unfold updateBeams. rewrite goneLoop_visuals.
  rewrite <- sensorsLoop_visuals.
  set (st1 := fold_left (updateSensorBeams raycast regs) _ st).
  replace (JSMap.keys (beamMeshes (snd st1)))
    with (JSMap.keys (visuals (snd st1)))
    by apply keys_mapValues.
  apply (delete_failing_keys
           (fun k => existsb (String.eqb k)
                       (map sensor_id
                            (getAllPlacedSensorData
                               (sensorManager regs))))).
Qed.

Lemma sensorTouch_touches (regs : Registries) (s : PlacedSensorData)
  (k : string) :
  JSMap.touches (sensorTouch raycast regs s) k = true -> sensor_id s = k.
Proof.
  unfold sensorTouch.
  destruct (negb (visible s)); simpl.
  - apply String.eqb_eq.
  - destruct (getSensorDefinitionById _ _); [|discriminate].
    destruct (getPlacedSensorById _ _); [|discriminate].
    apply String.eqb_eq.
Qed.

Lemma sensorTouches_untouched (regs : Registries)
  (sensors : list PlacedSensorData) (k : string) :
  ~ In k (map sensor_id sensors) ->
  JSMap.touched (map (sensorTouch raycast regs) sensors) k = false.
Proof.
  intros N. unfold JSMap.touched.
  destruct (existsb _ _) eqn:E; auto.
  apply existsb_exists in E. destruct E as (c & Hc & T).
  apply in_map_iff in Hc. destruct Hc as (s & <- & Hs).
  apply sensorTouch_touches in T. elim N. rewrite <- T.
  now apply in_map.
Qed.

(** With distinct sensor ids, a visible sensor whose definition and
    group are found has after the evaluation the beams of its drawn
    samples, and these are computed from the registries alone. *)
Lemma updateBeams_samples (regs : Registries)
  (st : Runtime * BeamManager) (s : PlacedSensorData)
  (definition : SensorDefinition) (sensorGroup : Group) :
  NoDup (map sensor_id (getAllPlacedSensorData (sensorManager regs))) ->
  In s (getAllPlacedSensorData (sensorManager regs)) ->
  visible s = true ->
  getSensorDefinitionById (definitionId s) (sensorManager regs)
  = Some definition ->
  getPlacedSensorById (sensor_id s) (sensorManager regs)
  = Some sensorGroup ->
  JSMap.get (sensor_id s) (visuals (snd (updateBeams raycast regs st)))
  = Some (("beams_" ++ sensor_id s)%string, true,
          map (shapeOfSample (beamLayout definition))
              (filter (fun x => negb (Qltb (sample_distance x) 0.01))
                      (map (raySample raycast regs definition sensorGroup)
                           (rays definition)))).
Proof.
  intros N I V D G. rewrite updateBeams_visuals.
  rewrite (get_filter_key
             (fun k => existsb (String.eqb k)
                         (map sensor_id
                              (getAllPlacedSensorData
                                 (sensorManager regs))))).
  2:{ apply existsb_exists. exists (sensor_id s).
      split; [now apply in_map | apply String.eqb_refl]. }
  apply in_split in I. destruct I as (l1 & l2 & E). rewrite E in *.
  rewrite map_app in N. simpl in N.
  apply NoDup_remove_2 in N.
  rewrite map_app. simpl. rewrite run_middle.
  rewrite get_run_untouched.
  - unfold sensorTouch at 1. rewrite V, D, G. simpl.
    apply get_set_same.
  - apply sensorTouches_untouched. intros H. apply N.
    apply in_or_app. now right.
Qed.

(** C9: with the registries unchanged, a second evaluation leaves in
    [beamMeshes] the same groups as the first, with the same beams:
    same positions, same directions and same distances.  With distinct
    sensor ids, both times the beams of a visible sensor are those of
    the samples of its rays, whose origins, directions and distances
    are computed from the registries alone. *)
Theorem updateBeams_twice (regs : Registries)
  (st : Runtime * BeamManager) :
  let once := updateBeams raycast regs st in
  let twice := updateBeams raycast regs once in
  visuals (snd twice) = visuals (snd once)
  /\ (NoDup (map sensor_id
                 (getAllPlacedSensorData (sensorManager regs))) ->
      forall (s : PlacedSensorData) (definition : SensorDefinition)
             (sensorGroup : Group),
        In s (getAllPlacedSensorData (sensorManager regs)) ->
        visible s = true ->
        getSensorDefinitionById (definitionId s) (sensorManager regs)
        = Some definition ->
        getPlacedSensorById (sensor_id s) (sensorManager regs)
        = Some sensorGroup ->
        let beams :=
          Some (("beams_" ++ sensor_id s)%string, true,
                map (shapeOfSample (beamLayout definition))
                    (filter
                       (fun x => negb (Qltb (sample_distance x) 0.01))
                       (map (raySample raycast regs definition
                                       sensorGroup)
                            (rays definition)))) in
        JSMap.get (sensor_id s) (visuals (snd once)) = beams
        /\ JSMap.get (sensor_id s) (visuals (snd twice)) = beams).
Proof.
  intros once twice. split.
  - unfold twice, once.
    rewrite (updateBeams_visuals regs (updateBeams raycast regs st)).
    rewrite (updateBeams_visuals regs st).
    apply (run_filter_twice
             (fun k => existsb (String.eqb k)
                         (map sensor_id
                              (getAllPlacedSensorData
                                 (sensorManager regs))))).
  - intros N s definition sensorGroup I V D G beams. split.
    + now apply updateBeams_samples.
    + now apply updateBeams_samples.
Qed.

End Engine.

Lemma updateBeams_twice_witness :
  JSMap.get "s1"
    (visuals (snd (updateBeams noHits scene1
                     (updateBeams noHits scene1 staleState))))
  = JSMap.get "s1" (visuals (snd (updateBeams noHits scene1 staleState))).
Proof.
  destruct (updateBeams_twice noHits scene1 staleState) as (_ & H).
  destruct (H (NoDup_cons "s1" (@in_nil string "s1") (NoDup_nil string))
              s1 fullTurn group1) as (A & B).
  - simpl. now left.
  - reflexivity.
  - reflexivity.
  - reflexivity.
  - exact (eq_trans B (eq_sym A)).
Defined.

End BeamFacts.

(* ------------------------------------------------------------------ *)
(** ** Release of the beams of a sensor that yields none *)

Module ResourceFacts.
Import Three Grid Scene Sensor Obstacle World Beams Examples.
Import JSMapFacts BeamFacts.
Local Open Scope string_scope.
Local Open Scope list_scope.
Local Open Scope nat_scope.

Lemma grows_refl (rt : Runtime) : grows rt rt.
Proof. unfold grows. repeat split; auto. Qed.

Lemma grows_trans (a b c : Runtime) : grows a b -> grows b c -> grows a c.
Proof.
  intros (A1 & A2 & A3 & A4) (B1 & B2 & B3 & B4).
  unfold grows. repeat split; try lia.
  - intros o Ho. destruct (B3 o Ho) as [H|H]; [|right; lia].
    destruct (A3 o H); auto.
  - intros x Hx. destruct (B4 x Hx) as [H|H]; [|right; lia].
    destruct (A4 x H); auto.
Qed.

Lemma grows_dispose (g : nat) (rt : Runtime) : grows rt (dispose g rt).
Proof.
  unfold grows, dispose; simpl. repeat split; auto.
  intros x Hx. apply in_remove in Hx. tauto.
Qed.

Lemma grows_sceneRemove (o : nat) (rt : Runtime) :
  grows rt (sceneRemove o rt).
Proof.
  unfold grows, sceneRemove; simpl. repeat split; auto.
  intros x Hx. apply in_remove in Hx. tauto.
Qed.

Lemma grows_newGeometry (rt : Runtime) : grows rt (snd (newGeometry rt)).
Proof.
  unfold grows, newGeometry; simpl. repeat split; auto.
  intros x [<-|Hx]; auto.
Qed.

Lemma grows_newObject (rt : Runtime) : grows rt (snd (newObject rt)).
Proof. unfold grows, newObject; simpl. repeat split; auto. Qed.

(** Adding to the scene an object that has just been created. *)
Lemma grows_sceneAdd_new (rt : Runtime) :
  grows rt (sceneAdd (fst (newObject rt)) (snd (newObject rt))).
Proof.
  unfold grows, sceneAdd, newObject; simpl. repeat split; auto.
  intros o Ho. apply in_app_or in Ho. destruct Ho as [Ho|[<-|[]]]; auto.
  apply in_remove in Ho. tauto.
Qed.

Lemma disposeAll_grows (cs : list BeamMesh) (rt : Runtime) :
  grows rt (fold_left (fun r child => dispose (cone_id (beam_geometry child)) r)
                      cs rt).
Proof.
  revert rt. induction cs as [|c cs IH]; intros rt; simpl.
  - apply grows_refl.
  - eapply grows_trans; [apply grows_dispose | apply IH].
Qed.

Lemma disposeAll_live (cs : list BeamMesh) (rt : Runtime) (x : nat) :
  In x (liveGeometries
          (fold_left
             (fun r child => dispose (cone_id (beam_geometry child)) r)
             cs rt)) ->
  In x (liveGeometries rt)
  /\ forall child, In child cs -> cone_id (beam_geometry child) <> x.
Proof.
  revert rt. induction cs as [|c cs IH]; intros rt Hx; simpl in *.
  - split; [exact Hx | intros child []].
  - apply IH in Hx. destruct Hx as (Hx & Hcs). simpl in Hx.
    apply in_remove in Hx. destruct Hx as (Hx & Hc). split; [exact Hx|].
    intros child [<-|Hchild]; auto.
Qed.

Lemma disposeAll_scene (cs : list BeamMesh) (rt : Runtime) :
  sceneChildren
    (fold_left (fun r child => dispose (cone_id (beam_geometry child)) r)
               cs rt)
  = sceneChildren rt.
Proof.
  revert rt. induction cs as [|c cs IH]; intros rt; simpl; auto.
  now rewrite IH.
Qed.

(** Resources that were handed out before stay handed out, and stay
    released once they are. *)
Lemma grows_keeps (g : BeamGroup) (rt rt' : Runtime) :
  grows rt rt' -> allocated g rt ->
  allocated g rt' /\ (released g rt -> released g rt').
Proof.
  intros (G1 & G2 & G3 & G4) (A1 & A2). split.
  - split; [lia|]. intros child Hc. specialize (A2 child Hc). lia.
  - intros (R1 & R2). split.
    + intros H. destruct (G3 _ H) as [H'|H']; [tauto | lia].
    + intros child Hc H. destruct (G4 _ H) as [H'|H'].
      * exact (R2 child Hc H').
      * specialize (A2 child Hc). lia.
Qed.

Lemma grows_clearBeamsForSensor (k : string) (st : Runtime * BeamManager) :
  grows (fst st) (fst (clearBeamsForSensor k st)).
Proof.
  destruct st as [rt bm]. unfold clearBeamsForSensor; simpl.
  destruct (JSMap.get k (beamMeshes bm)) as [g|]; simpl.
  - eapply grows_trans; [apply disposeAll_grows | apply grows_sceneRemove].
  - apply grows_refl.
Qed.

(** Clearing the beams of a sensor releases the resources of its group. *)
Lemma clearBeamsForSensor_releases (k : string) (g : BeamGroup)
  (st : Runtime * BeamManager) :
  JSMap.get k (beamMeshes (snd st)) = Some g ->
  released g (fst (clearBeamsForSensor k st)).
Proof.
  destruct st as [rt bm]. unfold clearBeamsForSensor; simpl. intros ->.
  simpl. split; simpl.
  - apply remove_In.
  - intros child Hc H. apply disposeAll_live in H.
    destruct H as (_ & H). exact (H child Hc eq_refl).
Qed.

Lemma get_delete_None (V : Type) (k k' : string) (m : JSMap.t V) :
  JSMap.get k m = None -> JSMap.get k (JSMap.delete k' m) = None.
Proof.
  intros H. destruct (String.eqb_spec k k') as [->|N].
  - apply get_delete_same.
  - now rewrite get_delete_other.
Qed.

Lemma clear_same (k : string) (g : BeamGroup)
  (st : Runtime * BeamManager) :
  held k g st -> gone k g (clearBeamsForSensor k st).
Proof.
  intros (H & A). unfold gone.
  rewrite clearBeamsForSensor_beamMeshes, get_delete_same.
  split; [reflexivity|].
  destruct (grows_keeps (grows_clearBeamsForSensor k st) A) as (A' & _).
  split; [|exact A']. now apply clearBeamsForSensor_releases.
Qed.

Lemma clear_gone (k k' : string) (g : BeamGroup)
  (st : Runtime * BeamManager) :
  gone k g st -> gone k g (clearBeamsForSensor k' st).
Proof.
  intros (H & R & A). unfold gone.
  rewrite clearBeamsForSensor_beamMeshes.
  destruct (grows_keeps (grows_clearBeamsForSensor k' st) A) as (A' & R').
  auto using get_delete_None.
Qed.

Lemma clear_other (k k' : string) (g : BeamGroup)
  (st : Runtime * BeamManager) :
  k <> k' -> held k g st -> held k g (clearBeamsForSensor k' st).
Proof.
  intros N (H & A). unfold held.
  rewrite clearBeamsForSensor_beamMeshes, get_delete_other by exact N.
  destruct (grows_keeps (grows_clearBeamsForSensor k' st) A) as (A' & _).
  auto.
Qed.

Section Engine.
Variable raycast : Vector3 Q -> Vector3 R -> Collidable -> list Q.

Lemma grows_castBeam (regs : Registries) (definition : SensorDefinition)
  (sensorGroup : Group) (i j : Z) (acc : Runtime * list BeamMesh) :
  grows (fst acc)
        (fst (castBeam raycast regs definition sensorGroup i j acc)).
Proof.
  unfold castBeam.
  destruct (Qltb _ _); [apply grows_refl|].
  destruct acc as [rt l]; simpl.
  eapply grows_trans; [apply grows_newGeometry|].
  apply (grows_newObject (snd (newGeometry rt))).
Qed.

Lemma grows_castBeams (regs : Registries) (definition : SensorDefinition)
  (sensorGroup : Group) (acc : Runtime * list BeamMesh) :
  grows (fst acc)
        (fst (castBeams raycast regs definition sensorGroup acc)).
Proof.
  unfold castBeams.
  generalize (loopIndices (numHorizontalSteps definition)) as js.
  generalize (loopIndices (channels definition)) as cs.
  intros cs js. revert acc.
  induction cs as [|i cs IH]; intros acc; simpl.
  - apply grows_refl.
  - eapply grows_trans; [|apply IH].
    clear IH. revert acc.
    induction js as [|j js IHj]; intros acc; simpl.
    + apply grows_refl.
    + eapply grows_trans; [apply grows_castBeam | apply IHj].
Qed.

Lemma generateBeamsForSensor_beamMeshes (regs : Registries)
  (sensorData : PlacedSensorData) (definition : SensorDefinition)
  (sensorGroup : Group) (st : Runtime * BeamManager) :
  exists g : BeamGroup,
    beamMeshes (snd (generateBeamsForSensor raycast regs sensorData
                       definition sensorGroup st))
    = JSMap.set (sensor_id sensorData) g
                (JSMap.delete (sensor_id sensorData)
                              (beamMeshes (snd st))).
Proof.
  unfold generateBeamsForSensor.
  assert (C := clearBeamsForSensor_beamMeshes (sensor_id sensorData) st).
  destruct (clearBeamsForSensor (sensor_id sensorData) st) as [rt0 bm0].
  simpl in C.
  destruct (newObject rt0) as [gid rt1].
  destruct (castBeams raycast regs definition sensorGroup
                      (sceneAdd gid rt1, [])) as [rt3 added].
  simpl. eexists. rewrite set_set, C. reflexivity.
Qed.

Lemma grows_generateBeamsForSensor (regs : Registries)
  (sensorData : PlacedSensorData) (definition : SensorDefinition)
  (sensorGroup : Group) (st : Runtime * BeamManager) :
  grows (fst st)
        (fst (generateBeamsForSensor raycast regs sensorData definition
                                     sensorGroup st)).
Proof.
  unfold generateBeamsForSensor.
  assert (C := grows_clearBeamsForSensor (sensor_id sensorData) st).
  destruct (clearBeamsForSensor (sensor_id sensorData) st) as [rt0 bm0].
  simpl in C.
  assert (A := grows_sceneAdd_new rt0).
  destruct (newObject rt0) as [gid rt1]. simpl in A.
  assert (B := grows_castBeams regs definition sensorGroup
                               (sceneAdd gid rt1, [])).
  destruct (castBeams raycast regs definition sensorGroup
                      (sceneAdd gid rt1, [])) as [rt3 added].
  simpl in *. eauto using grows_trans.
Qed.

Lemma grows_updateSensorBeams (regs : Registries)
  (st : Runtime * BeamManager) (sensorData : PlacedSensorData) :
  grows (fst st) (fst (updateSensorBeams raycast regs st sensorData)).
Proof.
  unfold updateSensorBeams.
  destruct (negb (visible sensorData)).
  - apply grows_clearBeamsForSensor.
  - destruct (getSensorDefinitionById _ _); [|apply grows_refl].
    destruct (getPlacedSensorById _ _); [|apply grows_refl].
    apply grows_generateBeamsForSensor.
Qed.

Lemma generate_other_held (regs : Registries)
  (sensorData : PlacedSensorData) (definition : SensorDefinition)
  (sensorGroup : Group) (k : string) (g : BeamGroup)
  (st : Runtime * BeamManager) :
  k <> sensor_id sensorData -> held k g st ->
  held k g (generateBeamsForSensor raycast regs sensorData definition
                                   sensorGroup st).
Proof.
  intros N (H & A). unfold held.
  destruct (generateBeamsForSensor_beamMeshes regs sensorData definition
              sensorGroup st) as (g' & ->).
  rewrite get_set_other, get_delete_other by exact N.
  destruct (grows_keeps
              (grows_generateBeamsForSensor regs sensorData definition
                                            sensorGroup st) A)
    as (A' & _).
  auto.
Qed.

Lemma generate_other_gone (regs : Registries)
  (sensorData : PlacedSensorData) (definition : SensorDefinition)
  (sensorGroup : Group) (k : string) (g : BeamGroup)
  (st : Runtime * BeamManager) :
  k <> sensor_id sensorData -> gone k g st ->
  gone k g (generateBeamsForSensor raycast regs sensorData definition
                                   sensorGroup st).
Proof.
  intros N (H & R & A). unfold gone.
  destruct (generateBeamsForSensor_beamMeshes regs sensorData definition
              sensorGroup st) as (g' & ->).
  rewrite get_set_other, get_delete_other by exact N.
  destruct (grows_keeps
              (grows_generateBeamsForSensor regs sensorData definition
                                            sensorGroup st) A)
    as (A' & R').
  auto.
Qed.

(** One sensor of the first loop, when every sensor named [k] is
    invisible. *)
Lemma updateSensorBeams_gone (regs : Registries) (k : string)
  (g : BeamGroup) (sensorData : PlacedSensorData)
  (st : Runtime * BeamManager) :
  (sensor_id sensorData = k -> visible sensorData = false) ->
  gone k g st -> gone k g (updateSensorBeams raycast regs st sensorData).
Proof.
  intros Hk G. unfold updateSensorBeams.
  destruct (visible sensorData) eqn:V; simpl.
  - assert (N : k <> sensor_id sensorData).
    { intros E. symmetry in E. specialize (Hk E). discriminate. }
    destruct (getSensorDefinitionById _ _); auto.
    destruct (getPlacedSensorById _ _); auto.
    now apply generate_other_gone.
  - now apply clear_gone.
Qed.

Lemma updateSensorBeams_held (regs : Registries) (k : string)
  (g : BeamGroup) (sensorData : PlacedSensorData)
  (st : Runtime * BeamManager) :
  (sensor_id sensorData = k -> visible sensorData = false) ->
  held k g st ->
  if String.eqb (sensor_id sensorData) k
  then gone k g (updateSensorBeams raycast regs st sensorData)
  else held k g (updateSensorBeams raycast regs st sensorData).
Proof.
  intros Hk G. unfold updateSensorBeams.
  destruct (String.eqb_spec (sensor_id sensorData) k) as [E|N].
  - rewrite (Hk E). simpl. rewrite E. now apply clear_same.
  - assert (N' : k <> sensor_id sensorData) by congruence.
    destruct (visible sensorData); simpl.
    + destruct (getSensorDefinitionById _ _); auto.
      destruct (getPlacedSensorById _ _); auto.
      now apply generate_other_held.
    + now apply clear_other.
Qed.

Lemma sensorsLoop_gone (regs : Registries) (k : string) (g : BeamGroup)
  (sensors : list PlacedSensorData) (st : Runtime * BeamManager) :
  (forall s, In s sensors -> sensor_id s = k -> visible s = false) ->
  gone k g st ->
  gone k g (fold_left (updateSensorBeams raycast regs) sensors st).
Proof.
  revert st. induction sensors as [|s sensors IH]; intros st Hk G;
    simpl; auto.
  apply IH.
  - intros s' Hs'. apply Hk. now right.
  - apply updateSensorBeams_gone; auto. apply Hk. now left.
Qed.

Lemma sensorsLoop_held (regs : Registries) (k : string) (g : BeamGroup)
  (sensors : list PlacedSensorData) (st : Runtime * BeamManager) :
  (forall s, In s sensors -> sensor_id s = k -> visible s = false) ->
  held k g st ->
  if existsb (String.eqb k) (map sensor_id sensors)
  then gone k g (fold_left (updateSensorBeams raycast regs) sensors st)
  else held k g (fold_left (updateSensorBeams raycast regs) sensors st).
Proof.
  revert st. induction sensors as [|s sensors IH]; intros st Hk G;
    simpl; auto.
  assert (Hs : sensor_id s = k -> visible s = false)
    by (apply Hk; now left).
  assert (Hrest : forall s', In s' sensors -> sensor_id s' = k ->
                             visible s' = false)
    by (intros s' Hs'; apply Hk; now right).
  assert (U := updateSensorBeams_held regs s Hs G).
  rewrite (String.eqb_sym k (sensor_id s)).
  destruct (String.eqb (sensor_id s) k); simpl.
  - now apply sensorsLoop_gone.
  - now apply IH.
Qed.

Lemma goneLoop_gone (ids ks : list string) (k : string) (g : BeamGroup)
  (st : Runtime * BeamManager) :
  gone k g st -> gone k g (fold_left (clearIfGone ids) ks st).
Proof.
  revert st. induction ks as [|k' ks IH]; intros st G; simpl; auto.
  apply IH. unfold clearIfGone.
  destruct (negb (existsb (String.eqb k') ids)); auto.
  now apply clear_gone.
Qed.

Lemma goneLoop_held (ids ks : list string) (k : string) (g : BeamGroup)
  (st : Runtime * BeamManager) :
  existsb (String.eqb k) ids = false -> In k ks ->
  held k g st -> gone k g (fold_left (clearIfGone ids) ks st).
Proof.
  intros Hid. revert st.
  induction ks as [|k' ks IH]; intros st Hin G; simpl; [destruct Hin|].
  destruct (String.eqb_spec k' k) as [->|N].
  - apply goneLoop_gone. unfold clearIfGone. rewrite Hid. simpl.
    now apply clear_same.
  - apply IH.
    + destruct Hin as [E|Hin]; [congruence | exact Hin].
    + unfold clearIfGone.
      destruct (negb (existsb (String.eqb k') ids)); auto.
      apply clear_other; auto.
Qed.

Lemma castBeam_allocated (regs : Registries)
  (definition : SensorDefinition) (sensorGroup : Group) (i j : Z)
  (acc : Runtime * list BeamMesh) :
  (forall c, In c (snd acc) ->
             cone_id (beam_geometry c) < nextGeometryId (fst acc)) ->
  forall c,
    In c (snd (castBeam raycast regs definition sensorGroup i j acc)) ->
    cone_id (beam_geometry c)
    < nextGeometryId
        (fst (castBeam raycast regs definition sensorGroup i j acc)).
Proof.
  intros H c. unfold castBeam.
  destruct (Qltb _ _); [apply H|].
  destruct acc as [rt l]; simpl in *. intros Hc.
  apply in_app_or in Hc. destruct Hc as [Hc|[<-|[]]]; simpl.
  - specialize (H c Hc). lia.
  - lia.
Qed.

Lemma castBeams_allocated (regs : Registries)
  (definition : SensorDefinition) (sensorGroup : Group)
  (acc : Runtime * list BeamMesh) :
  (forall c, In c (snd acc) ->
             cone_id (beam_geometry c) < nextGeometryId (fst acc)) ->
  forall c,
    In c (snd (castBeams raycast regs definition sensorGroup acc)) ->
    cone_id (beam_geometry c)
    < nextGeometryId
        (fst (castBeams raycast regs definition sensorGroup acc)).
Proof.
  unfold castBeams.
  generalize (loopIndices (numHorizontalSteps definition)) as js.
  generalize (loopIndices (channels definition)) as cs.
  intros cs js. revert acc.
  induction cs as [|i cs IH]; intros acc H; simpl; auto.
  apply IH. clear IH. revert acc H.
  induction js as [|j js IHj]; intros acc H; simpl; auto.
  apply IHj. now apply castBeam_allocated.
Qed.

Lemma generateBeamsForSensor_allAllocated (regs : Registries)
  (sensorData : PlacedSensorData) (definition : SensorDefinition)
  (sensorGroup : Group) (st : Runtime * BeamManager) :
  allAllocated st ->
  allAllocated (generateBeamsForSensor raycast regs sensorData definition
                                       sensorGroup st).
Proof.
  intros A k g Hin.
  assert (G := grows_generateBeamsForSensor regs sensorData definition
                                            sensorGroup st).
  revert Hin G. unfold generateBeamsForSensor.
  assert (C := clearBeamsForSensor_beamMeshes (sensor_id sensorData) st).
  assert (GC := grows_clearBeamsForSensor (sensor_id sensorData) st).
  destruct (clearBeamsForSensor (sensor_id sensorData) st) as [rt0 bm0].
  simpl in C, GC. unfold newObject.
  assert (B := grows_castBeams regs definition sensorGroup
                 (sceneAdd (nextObjectId rt0)
                    (mkRuntime (S (nextObjectId rt0)) (nextGeometryId rt0)
                               (sceneChildren rt0) (liveGeometries rt0)),
                  [])).
  assert (CA := castBeams_allocated regs definition sensorGroup
                 (sceneAdd (nextObjectId rt0)
                    (mkRuntime (S (nextObjectId rt0)) (nextGeometryId rt0)
                               (sceneChildren rt0) (liveGeometries rt0)),
                  [])
                 (fun c (H : In c []) => False_ind _ H)).
  destruct (castBeams raycast regs definition sensorGroup _)
    as [rt3 added].
  simpl in *. rewrite set_set, C. intros Hin G.
  apply In_set in Hin. destruct Hin as [E|Hin].
  - injection E as -> ->.
    split; simpl; [|exact CA]. destruct B as (B1 & _). simpl in B1. lia.
  - apply In_delete in Hin.
    exact (proj1 (grows_keeps G (A k g Hin))).
Qed.

Lemma clearBeamsForSensor_allAllocated (k : string)
  (st : Runtime * BeamManager) :
  allAllocated st -> allAllocated (clearBeamsForSensor k st).
Proof.
  intros A k' g Hin. rewrite clearBeamsForSensor_beamMeshes in Hin.
  apply In_delete in Hin.
  exact (proj1 (grows_keeps (grows_clearBeamsForSensor k st)
                            (A k' g Hin))).
Qed.

(** An evaluation keeps every id in [beamMeshes] below the counters of
    the runtime; it is so to begin with, when [beamMeshes] is empty. *)
Lemma updateBeams_allAllocated (regs : Registries)
  (st : Runtime * BeamManager) :
  allAllocated st -> allAllocated (updateBeams raycast regs st).
Proof.
  intros A. unfold updateBeams.
  set (sensors := getAllPlacedSensorData (sensorManager regs)).
  assert (A1 : allAllocated
                 (fold_left (updateSensorBeams raycast regs) sensors st)).
  { clearbody sensors. revert st A.
    induction sensors as [|s sensors IH]; intros st A; simpl; auto.
    apply IH. unfold updateSensorBeams.
    destruct (negb (visible s)).
    - now apply clearBeamsForSensor_allAllocated.
    - destruct (getSensorDefinitionById _ _); auto.
      destruct (getPlacedSensorById _ _); auto.
      now apply generateBeamsForSensor_allAllocated. }
  revert A1.
  generalize (fold_left (updateSensorBeams raycast regs) sensors st)
    as st1.
  intros st1.
  generalize (JSMap.keys (beamMeshes (snd st1))) as ks.
  intros ks. revert st1.
  induction ks as [|k ks IH]; intros st1 A1; simpl; auto.
  apply IH. unfold clearIfGone.
  destruct (negb (existsb (String.eqb k) (map sensor_id sensors))); auto.
  now apply clearBeamsForSensor_allAllocated.
Qed.

(* Whatever the registries hold: when no record under the id [k] is
   visible, the evaluation leaves no entry for [k], and the beam group
   it had is no child of the scene and the geometries of its beams
   are disposed. *)
Lemma unseen_sensor_released (regs : Registries) (k : string)
  (g : BeamGroup) (st : Runtime * BeamManager) :
  JSMap.get k (beamMeshes (snd st)) = Some g ->
  allocated g (fst st) ->
  (forall s : PlacedSensorData,
      In s (getAllPlacedSensorData (sensorManager regs)) ->
      sensor_id s = k -> visible s = false) ->
  JSMap.get k (beamMeshes (snd (updateBeams raycast regs st))) = None
  /\ released g (fst (updateBeams raycast regs st)).
Proof.
  intros Hget Hal Hk.
  assert (G : gone k g (updateBeams raycast regs st)).
  { unfold updateBeams.
    assert (L := sensorsLoop_held regs
                   (getAllPlacedSensorData (sensorManager regs)) Hk
                   (conj Hget Hal)).
    destruct (existsb (String.eqb k)
                (map sensor_id
                     (getAllPlacedSensorData (sensorManager regs))))
      eqn:E.
    - now apply goneLoop_gone.
    - apply goneLoop_held; auto.
      destruct L as (L & _).
      destruct (in_dec string_dec k
                  (JSMap.keys
                     (beamMeshes
                        (snd (fold_left (updateSensorBeams raycast regs)
                                (getAllPlacedSensorData
                                   (sensorManager regs)) st)))))
        as [I|NI]; auto.
      apply get_None_not_in in NI. congruence. }
  destruct G as (G1 & G2 & _). auto.
Qed.

End Engine.

End ResourceFacts.

(* ------------------------------------------------------------------ *)
(** ** The obstacle registry *)

Module ObstacleFacts.
Import Three Scene Obstacle Examples.
Import JSMapFacts.
Local Open Scope string_scope.
Local Open Scope list_scope.

Lemma serializeObstacles_records (om : ObstacleManager) :
  serializeObstacles om = JSMap.values (records om).
Proof.
  unfold serializeObstacles, records. rewrite values_mapEntries.
  apply map_ext. now intros [k o].
Qed.

Lemma addObstacle_obstacles (data : ObstacleData)
  (st : Runtime * ObstacleManager) :
  exists obstacle : Mesh,
    obstacles (snd (addObstacle data st))
    = JSMap.set (obstacle_id data) obstacle (obstacles (snd st))
    /\ mesh_name obstacle = obstacle_id data
    /\ mesh_position obstacle = obstacle_position data
    /\ parameters (geometry obstacle) = dimensions data.
Proof.
  destruct st as [rt om]. unfold addObstacle; simpl.
  eexists. split; [reflexivity|]. simpl. auto.
Qed.

Lemma addObstacle_records (data : ObstacleData)
  (st : Runtime * ObstacleManager) :
  records (snd (addObstacle data st))
  = JSMap.set (obstacle_id data) data (records (snd st)).
Proof.
  destruct (addObstacle_obstacles data st) as (o & E & _ & P & D).
  unfold records. rewrite E, set_mapEntries, P, D. now destruct data.
Qed.

Lemma addObstacles_records (data : list ObstacleData)
  (st : Runtime * ObstacleManager) :
  records (snd (fold_left (fun acc d => addObstacle d acc) data st))
  = fold_left (fun m d => JSMap.set (obstacle_id d) d m) data
              (records (snd st)).
Proof.
  revert st. induction data as [|d data IH]; intros st; simpl; auto.
  now rewrite IH, addObstacle_records.
Qed.

Lemma removeObstacle_obstacles (id : string) (obstacle : Mesh)
  (st : Runtime * ObstacleManager) :
  JSMap.get id (obstacles (snd st)) = Some obstacle ->
  obstacles (snd (removeObstacle id st))
  = JSMap.delete id (obstacles (snd st)).
Proof.
  destruct st as [rt om]. unfold removeObstacle; simpl. intros ->. simpl.
  destruct (attached om) as [o|]; [|reflexivity].
  now destruct (Nat.eqb o (mesh_id obstacle)).
Qed.

Lemma removeObstacle_absent (id : string) (st : Runtime * ObstacleManager) :
  JSMap.get id (obstacles (snd st)) = None -> removeObstacle id st = st.
Proof.
  destruct st as [rt om]. unfold removeObstacle; simpl. now intros ->.
Qed.

(** The first half of [deserializeObstacles] empties the registry. *)
Lemma removeAll_obstacles (m : JSMap.t Mesh) :
  JSMap.keyed mesh_name m ->
  forall st : Runtime * ObstacleManager,
    obstacles (snd st) = m ->
    obstacles
      (snd (fold_left (fun acc obs => removeObstacle (mesh_name obs) acc)
                      (JSMap.values m) st))
    = [].
Proof.
  induction m as [|[k o] m IH]; intros K st E; simpl; auto.
  apply keyed_tail in K. destruct K as (Hn & Hk & K).
  apply (IH K). rewrite Hn.
  rewrite (@removeObstacle_obstacles k o) by (rewrite E; simpl;
                                            now rewrite String.eqb_refl).
  rewrite E. simpl. rewrite String.eqb_refl. simpl.
  apply delete_absent. now apply get_None_not_in.
Qed.

Lemma deserializeObstacles_records (data : list ObstacleData)
  (st : Runtime * ObstacleManager) :
  wellFormed (snd st) ->
  records (snd (deserializeObstacles data st))
  = JSMap.ofList obstacle_id data.
Proof.
  intros W. unfold deserializeObstacles.
  rewrite addObstacles_records. unfold JSMap.ofList. f_equal.
  unfold records, getAllObstacles.
  now rewrite (removeAll_obstacles W st eq_refl).
Qed.

(** The operations keep the registry well-formed. *)
Lemma wellFormed_empty : wellFormed Obstacle.empty.
Proof. apply keyed_empty. Qed.

Lemma wellFormed_addObstacle (data : ObstacleData)
  (st : Runtime * ObstacleManager) :
  wellFormed (snd st) -> wellFormed (snd (addObstacle data st)).
Proof.
  intros W. unfold wellFormed.
  destruct (addObstacle_obstacles data st) as (o & -> & N & _).
  now apply keyed_set.
Qed.

Lemma wellFormed_removeObstacle (id : string)
  (st : Runtime * ObstacleManager) :
  wellFormed (snd st) -> wellFormed (snd (removeObstacle id st)).
Proof.
  intros W. destruct (JSMap.get id (obstacles (snd st))) as [o|] eqn:E.
  - unfold wellFormed. rewrite (removeObstacle_obstacles _ _ E).
    now apply keyed_delete.
  - now rewrite removeObstacle_absent.
Qed.

Lemma wellFormed_updateObstacle (id : string)
  (newPosition : option (Vector3 Q)) (newDimensions : option Dimensions)
  (st : Runtime * ObstacleManager) :
  wellFormed (snd st) ->
  wellFormed (snd (updateObstacle id newPosition newDimensions st)).
Proof.
  destruct st as [rt om]. unfold updateObstacle, wellFormed; simpl.
  intros W. destruct (JSMap.get id (obstacles om)) as [o|] eqn:E; auto.
  assert (N : mesh_name o = id).
  { destruct W as (_ & K). apply K. now apply get_Some_in. }
  destruct newPosition, newDimensions; simpl; apply keyed_set; auto.
Qed.

Lemma wellFormed_deserializeObstacles (data : list ObstacleData)
  (st : Runtime * ObstacleManager) :
  wellFormed (snd st) -> wellFormed (snd (deserializeObstacles data st)).
Proof.
  intros W. unfold deserializeObstacles.
  set (cleared := fold_left _ (getAllObstacles (snd st)) st).
  assert (C : wellFormed (snd cleared)).
  { unfold wellFormed, cleared, getAllObstacles.
    rewrite (removeAll_obstacles W st eq_refl). apply keyed_empty. }
  clearbody cleared. revert cleared C.
  induction data as [|d data IH]; intros c C; simpl; auto.
  apply IH. now apply wellFormed_addObstacle.
Qed.

End ObstacleFacts.

(* ------------------------------------------------------------------ *)
(** ** The placed sensors *)

Module SensorFacts.
Import Three Grid Scene Sensor Examples.
Import JSMapFacts.
Local Open Scope string_scope.
Local Open Scope list_scope.

Lemma addSensor_resolvable (data : PlacedSensorData)
  (st : Runtime * SensorManager) :
  resolvable (snd st) data = true ->
  sensorDefinitions (snd (addSensor data st)) = sensorDefinitions (snd st)
  /\ placedSensorData (snd (addSensor data st))
     = JSMap.set (sensor_id data) data (placedSensorData (snd st))
  /\ JSMap.mapValues groupRecord (placedSensors (snd (addSensor data st)))
     = JSMap.set (sensor_id data) (groupOfData data)
                 (JSMap.mapValues groupRecord (placedSensors (snd st))).
Proof.
  destruct st as [rt sm]. unfold resolvable, getSensorDefinitionById,
    addSensor; simpl.
  destruct (JSMap.get (definitionId data) (sensorDefinitions sm));
    [|discriminate].
  intros _. simpl. repeat split. now rewrite set_mapValues.
Qed.

Lemma addSensor_unresolvable (data : PlacedSensorData)
  (st : Runtime * SensorManager) :
  resolvable (snd st) data = false -> addSensor data st = st.
Proof.
  destruct st as [rt sm]. unfold resolvable, getSensorDefinitionById,
    addSensor; simpl.
  now destruct (JSMap.get (definitionId data) (sensorDefinitions sm)).
Qed.

Lemma resolvable_definitions (sm sm' : SensorManager)
  (d : PlacedSensorData) :
  sensorDefinitions sm' = sensorDefinitions sm ->
  resolvable sm' d = resolvable sm d.
Proof.
  intros E. unfold resolvable, getSensorDefinitionById. now rewrite E.
Qed.

(** The second half of [deserializeSensors]. *)
Lemma addSensors_effect (data : list PlacedSensorData)
  (st : Runtime * SensorManager) :
  let st' := fold_left (fun acc d => addSensor d acc) data st in
  sensorDefinitions (snd st') = sensorDefinitions (snd st)
  /\ placedSensorData (snd st')
     = fold_left (fun m d => JSMap.set (sensor_id d) d m)
                 (filter (resolvable (snd st)) data)
                 (placedSensorData (snd st))
  /\ JSMap.mapValues groupRecord (placedSensors (snd st'))
     = fold_left (fun m d => JSMap.set (sensor_id d) (groupOfData d) m)
                 (filter (resolvable (snd st)) data)
                 (JSMap.mapValues groupRecord (placedSensors (snd st))).
Proof.
  revert st. induction data as [|d data IH]; intros st; simpl; auto.
  destruct (resolvable (snd st) d) eqn:R.
  - destruct (addSensor_resolvable d st R) as (A1 & A2 & A3).
    destruct (IH (addSensor d st)) as (B1 & B2 & B3).
    assert (RE : forall d', resolvable (snd (addSensor d st)) d'
                            = resolvable (snd st) d')
      by (intros d'; now apply resolvable_definitions).
    rewrite (filter_ext _ _ RE) in B2, B3.
    simpl. rewrite B1, B2, B3, A1, A2, A3. auto.
  - rewrite (addSensor_unresolvable d st R). apply IH.
Qed.

Lemma removeSensor_present (id : string) (g : Group)
  (st : Runtime * SensorManager) :
  JSMap.get id (placedSensors (snd st)) = Some g ->
  sensorDefinitions (snd (removeSensor id st)) = sensorDefinitions (snd st)
  /\ placedSensors (snd (removeSensor id st))
     = JSMap.delete id (placedSensors (snd st))
  /\ placedSensorData (snd (removeSensor id st))
     = JSMap.delete id (placedSensorData (snd st)).
Proof.
  destruct st as [rt sm]. unfold removeSensor; simpl. intros ->. auto.
Qed.

Lemma removeSensor_absent (id : string) (st : Runtime * SensorManager) :
  JSMap.get id (placedSensors (snd st)) = None -> removeSensor id st = st.
Proof.
  destruct st as [rt sm]. unfold removeSensor; simpl. now intros ->.
Qed.

(** The first half of [deserializeSensors] empties both maps. *)
Lemma removeAll_sensors (md : JSMap.t PlacedSensorData) :
  JSMap.keyed sensor_id md ->
  forall st : Runtime * SensorManager,
    placedSensorData (snd st) = md ->
    JSMap.keys (placedSensors (snd st)) = JSMap.keys md ->
    let st' := fold_left (fun acc s => removeSensor (sensor_id s) acc)
                         (JSMap.values md) st in
    sensorDefinitions (snd st') = sensorDefinitions (snd st)
    /\ placedSensors (snd st') = []
    /\ placedSensorData (snd st') = [].
Proof.
  induction md as [|[k d] md IH]; intros K st E1 E2; simpl.
  - repeat split; auto.
    destruct (placedSensors (snd st)); [reflexivity | discriminate].
  - apply keyed_tail in K. destruct K as (Hn & Hk & K).
    destruct (placedSensors (snd st)) as [|[k' g] mg] eqn:EG;
      [discriminate|].
    simpl in E2. injection E2 as -> E2.
    assert (G : JSMap.get k (placedSensors (snd st)) = Some g).
    { rewrite EG. simpl. now rewrite String.eqb_refl. }
    destruct (removeSensor_present _ _ G) as (R1 & R2 & R3).
    rewrite Hn.
    destruct (IH K (removeSensor k st)) as (A & B & C).
    + rewrite R3, E1. simpl. rewrite String.eqb_refl. simpl.
      apply delete_absent. now apply get_None_not_in.
    + rewrite R2, EG. simpl. rewrite String.eqb_refl. simpl.
      rewrite delete_absent; auto.
      apply get_None_not_in. now rewrite E2.
    + rewrite A, R1. auto.
Qed.

Lemma wellFormed_keys (sm : SensorManager) :
  wellFormed sm ->
  JSMap.keys (placedSensors sm) = JSMap.keys (placedSensorData sm).
Proof.
  intros (_ & S).
  rewrite <- (keys_mapValues groupRecord), S. apply keys_mapValues.
Qed.

Lemma deserializeSensors_effect (data : list PlacedSensorData)
  (st : Runtime * SensorManager) :
  wellFormed (snd st) ->
  let st' := deserializeSensors data st in
  sensorDefinitions (snd st') = sensorDefinitions (snd st)
  /\ placedSensorData (snd st')
     = JSMap.ofList sensor_id (filter (resolvable (snd st)) data)
  /\ JSMap.mapValues groupRecord (placedSensors (snd st'))
     = JSMap.mapValues groupOfData (placedSensorData (snd st')).
Proof.
  intros W. unfold deserializeSensors, getAllPlacedSensorData.
  destruct (removeAll_sensors (proj1 W) st eq_refl (wellFormed_keys W))
    as (C1 & C2 & C3).
  set (cleared := fold_left _ (JSMap.values _) st) in *.
  destruct (addSensors_effect data cleared) as (A1 & A2 & A3).
  assert (RE : forall d', resolvable (snd cleared) d'
                          = resolvable (snd st) d')
    by (intros d'; now apply resolvable_definitions).
  rewrite (filter_ext _ _ RE) in A2, A3.
  rewrite C3 in A2. rewrite C2 in A3. simpl in A3.
  split; [now rewrite A1|]. split; [exact A2|].
  rewrite A3, A2. clear.
  generalize (filter (resolvable (snd st)) data) as l.
  intros l. change (@nil (string * GroupRecord))
    with (JSMap.mapValues groupOfData (@nil (string * PlacedSensorData))).
  generalize (@nil (string * PlacedSensorData)) as m.
  induction l as [|d l IH]; intros m; simpl; auto.
  rewrite <- IH. now rewrite set_mapValues.
Qed.

Lemma synced_get (sm : SensorManager) (id : string) (g : Group)
  (d : PlacedSensorData) :
  wellFormed sm ->
  JSMap.get id (placedSensors sm) = Some g ->
  JSMap.get id (placedSensorData sm) = Some d ->
  groupRecord g = groupOfData d /\ sensor_id d = id.
Proof.
  intros ((_ & K) & S) G D. split.
  - assert (E := get_mapValues groupRecord id (placedSensors sm)).
    rewrite S, get_mapValues, G, D in E. simpl in E. congruence.
  - apply K. now apply get_Some_in.
Qed.

(** The operations keep the manager well-formed. *)
Lemma wellFormed_catalog (definitions : list SensorDefinition) :
  wellFormed (loadSensorDefinitions definitions Sensor.empty).
Proof. split; [apply keyed_empty | reflexivity]. Qed.

Lemma wellFormed_addSensor (data : PlacedSensorData)
  (st : Runtime * SensorManager) :
  wellFormed (snd st) -> wellFormed (snd (addSensor data st)).
Proof.
  intros W. destruct (resolvable (snd st) data) eqn:R.
  - destruct (addSensor_resolvable data st R) as (_ & A2 & A3).
    destruct W as (K & S). split.
    + rewrite A2. now apply keyed_set.
    + now rewrite A3, A2, set_mapValues, S.
  - now rewrite addSensor_unresolvable.
Qed.

Lemma wellFormed_removeSensor (id : string) (st : Runtime * SensorManager) :
  wellFormed (snd st) -> wellFormed (snd (removeSensor id st)).
Proof.
  intros W. destruct (JSMap.get id (placedSensors (snd st))) as [g|] eqn:E.
  - destruct (removeSensor_present _ _ E) as (_ & R2 & R3).
    destruct W as (K & S). split.
    + rewrite R3. now apply keyed_delete.
    + now rewrite R2, R3, !delete_mapValues, S.
  - now rewrite removeSensor_absent.
Qed.

Lemma wellFormed_updateSensor (id : string)
  (newPosition : option (Vector3 Q)) (newRotation : option Rotation)
  (sm : SensorManager) :
  wellFormed sm -> wellFormed (updateSensor id newPosition newRotation sm).
Proof.
  intros W. unfold updateSensor.
  destruct (JSMap.get id (placedSensors sm)) as [g|] eqn:G; auto.
  destruct (JSMap.get id (placedSensorData sm)) as [d|] eqn:D; auto.
  destruct (@synced_get sm id g d W G D) as (E & I).
  destruct W as (K & S).
  unfold groupRecord, groupOfData in E. injection E as E1 E2 E3 E4.
  destruct newPosition, newRotation; simpl; split; simpl;
    try (apply keyed_set; auto);
    rewrite !set_mapValues, S; unfold groupRecord, groupOfData; simpl;
    congruence.
Qed.

Lemma wellFormed_setSensorVisibility (id : string) (v : bool)
  (sm : SensorManager) :
  wellFormed sm -> wellFormed (setSensorVisibility id v sm).
Proof.
  intros W. unfold setSensorVisibility.
  destruct (JSMap.get id (placedSensors sm)) as [g|] eqn:G; auto.
  destruct (JSMap.get id (placedSensorData sm)) as [d|] eqn:D; auto.
  destruct (@synced_get sm id g d W G D) as (E & I).
  destruct W as (K & S).
  unfold groupRecord, groupOfData in E. injection E as E1 E2 E3 E4.
  split; simpl.
  - apply keyed_set; auto.
  - rewrite !set_mapValues, S. unfold groupRecord, groupOfData; simpl.
    congruence.
Qed.

Lemma wellFormed_deserializeSensors (data : list PlacedSensorData)
  (st : Runtime * SensorManager) :
  wellFormed (snd st) -> wellFormed (snd (deserializeSensors data st)).
Proof.
  intros W. destruct (deserializeSensors_effect data st W) as (_ & A & B).
  split; [|exact B]. rewrite A. apply keyed_ofList.
Qed.

End SensorFacts.

(* ------------------------------------------------------------------ *)
(** ** Saving and loading the registries *)

Module PersistenceFacts.
Import Three Grid Scene Sensor Obstacle Examples.
Import JSMapFacts ObstacleFacts SensorFacts.
Local Open Scope string_scope.
Local Open Scope list_scope.

(** C10: deserialization replaces the registry.  Whatever was registered
    before, the obstacle registry afterwards is the map built from the
    records of [data] alone, and the sensor registry is the map built
    from those records of [data] whose definition is in the catalog, each
    with the group that [addSensor] makes for it.  When the ids of the
    records differ from one another, serializing gives them back in
    order. *)
Theorem deserialize_replaces (rt rt' : Runtime) (om : ObstacleManager)
  (sm : SensorManager) (obstacleData : list ObstacleData)
  (sensorData : list PlacedSensorData) :
  Obstacle.wellFormed om -> Sensor.wellFormed sm ->
  let om' := snd (deserializeObstacles obstacleData (rt, om)) in
  let sm' := snd (deserializeSensors sensorData (rt', sm)) in
  records om' = JSMap.ofList obstacle_id obstacleData
  /\ (NoDup (map obstacle_id obstacleData) ->
      serializeObstacles om' = obstacleData)
  /\ placedSensorData sm'
     = JSMap.ofList sensor_id (filter (resolvable sm) sensorData)
  /\ JSMap.mapValues groupRecord (placedSensors sm')
     = JSMap.mapValues groupOfData (placedSensorData sm')
  /\ (NoDup (map sensor_id sensorData) ->
      serializeSensors sm' = filter (resolvable sm) sensorData).
Proof.
  intros WO WS om' sm'.
  assert (RO := deserializeObstacles_records obstacleData (rt, om) WO).
  destruct (deserializeSensors_effect sensorData (rt', sm) WS)
    as (_ & RS & RG).
  fold om' in RO. fold sm' in RS, RG. simpl in RS.
  repeat split; auto.
  - intros N. rewrite serializeObstacles_records, RO.
    now apply ofList_NoDup.
  - intros N. unfold serializeSensors. rewrite RS.
    apply ofList_NoDup.
    clear - N. induction sensorData as [|d l IH]; simpl; [constructor|].
    inversion N; subst.
    destruct (resolvable sm d); simpl; auto.
    constructor; auto. intros H. apply in_map_iff in H.
    destruct H as (x & E & Hx). apply filter_In in Hx.
    apply H1. rewrite <- E. apply in_map. tauto.
Qed.

Lemma deserialize_replaces_witness :
  records (snd (deserializeObstacles [box] withBox))
  = JSMap.ofList obstacle_id [box]
  /\ placedSensorData (snd (deserializeSensors [orphan1; hidden1] withSensor))
     = JSMap.ofList sensor_id [hidden1].
Proof.
  destruct (@deserialize_replaces (fst withBox) (fst withSensor)
              (snd withBox) (snd withSensor) [box] [orphan1; hidden1])
    as (A & _ & B & _).
  - apply (wellFormed_addObstacle box (Scene.initial, Obstacle.empty)).
    apply ObstacleFacts.wellFormed_empty.
  - apply (wellFormed_addSensor s1 (fst withFloor, catalog)).
    apply wellFormed_catalog.
  - split; [exact A | exact B].
Defined.

(** C8: serializing both registries, clearing them and deserializing the
    lists gives registries that serialize to the same lists: as many
    obstacles and sensors as before, with the same ids in the same
    order.  Every obstacle is written with the position of its mesh and
    the width, height and depth of its geometry, and the mesh restored
    under its id has that position and those dimensions; every sensor
    is restored with its definition, position, rotation and visibility,
    and its group holds what the group held before. *)
Theorem serialize_roundtrip (rt : Runtime) (om : ObstacleManager)
  (sm : SensorManager) :
  Obstacle.wellFormed om -> Sensor.wellFormed sm ->
  (forall d, In d (serializeSensors sm) -> resolvable sm d = true) ->
  let obstacleList := serializeObstacles om in
  let sensorList := serializeSensors sm in
  let st1 := deserializeObstacles [] (rt, om) in
  let st2 := deserializeSensors [] (fst st1, sm) in
  let st3 := deserializeObstacles obstacleList (fst st2, snd st1) in
  let st4 := deserializeSensors sensorList (fst st3, snd st2) in
  (serializeObstacles (snd st1) = [] /\ serializeSensors (snd st2) = [])
  /\ serializeObstacles (snd st3) = obstacleList
  /\ serializeSensors (snd st4) = sensorList
  /\ List.length (serializeObstacles (snd st3))
     = JSMap.size (obstacles om)
  /\ List.length (serializeSensors (snd st4))
     = JSMap.size (placedSensorData sm)
  /\ JSMap.mapValues groupRecord (placedSensors (snd st4))
     = JSMap.mapValues groupRecord (placedSensors sm)
  /\ JSMap.keys (obstacles (snd st3)) = JSMap.keys (obstacles om)
  /\ (forall (id : string) (obstacle : Mesh),
        getObstacleById id om = Some obstacle ->
        In (mkObstacleData
              id (mesh_position obstacle)
              (mkDimensions (width (parameters (geometry obstacle)))
                            (height (parameters (geometry obstacle)))
                            (depth (parameters (geometry obstacle)))))
           obstacleList
        /\ exists restored : Mesh,
             getObstacleById id (snd st3) = Some restored
             /\ mesh_name restored = id
             /\ mesh_position restored = mesh_position obstacle
             /\ width (parameters (geometry restored))
                = width (parameters (geometry obstacle))
             /\ height (parameters (geometry restored))
                = height (parameters (geometry obstacle))
             /\ depth (parameters (geometry restored))
                = depth (parameters (geometry obstacle)))
  /\ (forall (id : string) (sensorData : PlacedSensorData),
        getPlacedSensorDataById id sm = Some sensorData ->
        In sensorData sensorList
        /\ getPlacedSensorDataById id (snd st4) = Some sensorData
        /\ option_map groupRecord (getPlacedSensorById id (snd st4))
           = Some (sensor_id sensorData, position sensorData,
                   eulerOfRotation (rotation sensorData),
                   visible sensorData)).
Proof.
  intros WO WS HR obstacleList sensorList st1 st2 st3 st4.
  assert (W1 : Obstacle.wellFormed (snd st1))
    by now apply wellFormed_deserializeObstacles.
  assert (W2 : Sensor.wellFormed (snd st2))
    by now apply wellFormed_deserializeSensors.
  assert (W3 : Obstacle.wellFormed (snd st3))
    by now apply wellFormed_deserializeObstacles.
  assert (R1 := deserializeObstacles_records [] (rt, om) WO).
  destruct (deserializeSensors_effect [] (fst st1, sm) WS)
    as (D2 & R2 & _).
  fold st1 in R1. fold st2 in R2, D2. simpl in D2.
  assert (R3 := deserializeObstacles_records obstacleList
                  (fst st2, snd st1) W1).
  destruct (deserializeSensors_effect sensorList (fst st3, snd st2) W2)
    as (_ & R4 & G4).
  fold st3 in R3. fold st4 in R4, G4. simpl in R4.
  assert (KO : JSMap.keyed obstacle_id (records om)).
  { destruct WO as (N & K). split.
    - unfold records. now rewrite keys_mapEntries.
    - intros k v H. unfold records, JSMap.mapEntries in H.
      apply in_map_iff in H. now destruct H as (e & [= <- <-] & _). }
  assert (E3 : records (snd st3) = records om).
  { rewrite R3. unfold obstacleList.
    rewrite serializeObstacles_records. now apply ofList_values. }
  assert (E4 : placedSensorData (snd st4) = placedSensorData sm).
  { rewrite R4. rewrite filter_all.
    - unfold sensorList, serializeSensors. apply ofList_values.
      apply WS.
    - intros d Hd. unfold resolvable, getSensorDefinitionById.
      rewrite D2. now apply HR. }
  split; [split|].
  - now rewrite serializeObstacles_records, R1.
  - unfold serializeSensors. now rewrite R2.
  - split; [|split; [|split; [|split; [|split; [|split; [|split]]]]]].
    + unfold obstacleList. now rewrite !serializeObstacles_records, E3.
    + unfold sensorList, serializeSensors. now rewrite E4.
    + rewrite serializeObstacles_records, E3.
      unfold JSMap.values, records, JSMap.mapEntries, JSMap.size.
      now rewrite !length_map.
    + unfold serializeSensors. rewrite E4.
      unfold JSMap.values, JSMap.size. now rewrite length_map.
    + rewrite G4, E4. symmetry. apply WS.
    + assert (K := f_equal JSMap.keys E3). unfold records in K.
      now rewrite !keys_mapEntries in K.
    + intros id obstacle G. unfold getObstacleById in *. split.
      * unfold obstacleList, serializeObstacles.
        apply get_Some_in in G.
        apply (in_map (fun e : string * Mesh =>
                         let (id0, o) := e in
                         mkObstacleData id0 (mesh_position o)
                                        (parameters (geometry o)))) in G.
        simpl in G. now destruct (parameters (geometry obstacle)).
      * assert (X := f_equal (JSMap.get id) E3). unfold records in X.
        rewrite !get_mapEntries, G in X. simpl in X.
        destruct (JSMap.get id (obstacles (snd st3))) as [restored|] eqn:G3;
          [|discriminate X].
        simpl in X. injection X as XP XD.
        exists restored. split; [reflexivity|].
        split.
        { apply (proj2 W3). now apply get_Some_in. }
        rewrite XP, XD. auto.
    + intros id sensorData G. unfold getPlacedSensorDataById in *.
      split; [|split].
      * unfold sensorList, serializeSensors.
        apply get_Some_in in G. apply (in_map snd) in G. exact G.
      * now rewrite E4.
      * unfold getPlacedSensorById.
        rewrite <- (get_mapValues groupRecord), G4, get_mapValues, E4, G.
        reflexivity.
Qed.

Lemma serialize_roundtrip_witness :
  serializeObstacles
    (snd (deserializeObstacles (serializeObstacles (snd withSlab))
            (fst (deserializeSensors []
                    (fst (deserializeObstacles [] (fst withSensor,
                                                   snd withSlab)),
                     snd withSensor)),
             snd (deserializeObstacles [] (fst withSensor, snd withSlab)))))
  = [box; slab].
Proof.
  destruct (@serialize_roundtrip (fst withSensor) (snd withSlab)
              (snd withSensor)) as (_ & A & _).
  - apply (wellFormed_addObstacle slab withBox).
    apply (wellFormed_addObstacle box (Scene.initial, Obstacle.empty)).
    apply ObstacleFacts.wellFormed_empty.
  - apply (wellFormed_addSensor s1 (fst withFloor, catalog)).
    apply wellFormed_catalog.
  - intros d [<-|[]]. reflexivity.
  - exact A.
Defined.

End PersistenceFacts.

(* ------------------------------------------------------------------ *)
(** ** The direction of the rays of a placed sensor *)

Module PoseFacts.
Import Three Grid Scene Sensor Examples.
Import JSMapFacts DirectionFacts SensorFacts.
Local Open Scope string_scope.
Local Open Scope list_scope.

(** C6: for a placed sensor, the world direction of ray [(i, j)] is the
    local vector [(sin h cos v, sin v, cos h cos v)] rotated by the
    orientation quaternion of its group and normalized.  That quaternion
    is the product of the yaw rotation about Y, the pitch rotation about
    X and the roll rotation about Z of the sensor's record; rotating by
    it is turning by roll about Z, then by pitch about X, then by yaw
    about Y.  The horizontal angle of step [j] is
    [-hFov/2 + j (hFov / N)] degrees.  The rotated vector has length 1,
    so normalizing leaves it as it is. *)
Theorem rayDirection_spec (sm : SensorManager) (id : string)
  (sensorData : PlacedSensorData) (sensorGroup : Group)
  (d : SensorDefinition) (i j : Z) :
  wellFormed sm ->
  getPlacedSensorDataById id sm = Some sensorData ->
  getPlacedSensorById id sm = Some sensorGroup ->
  let orientation := orientationFromYawPitchRoll (rotation sensorData) in
  let h :=
    degToRad (- (hFov d / 2)
              + inject_Z j * (hFov d / inject_Z (numHorizontalSteps d)))%Q in
  let v := vAngleRad d i in
  let local :=
    mkVector3 (sin h * cos v)%R (sin v) (cos h * cos v)%R in
  quaternion sensorGroup = orientation
  /\ rayDirection (quaternion sensorGroup) d i j
     = normalize (applyQuaternion orientation local)
  /\ (forall u : Vector3 R,
        applyQuaternion orientation u
        = rotateY (degToRad (yaw (rotation sensorData)))
            (rotateX (degToRad (pitch (rotation sensorData)))
               (rotateZ (degToRad (roll (rotation sensorData))) u)))
  /\ rayDirection (quaternion sensorGroup) d i j
     = rotateY (degToRad (yaw (rotation sensorData)))
         (rotateX (degToRad (pitch (rotation sensorData)))
            (rotateZ (degToRad (roll (rotation sensorData))) local))
  /\ Three.length (rayDirection (quaternion sensorGroup) d i j) = 1%R.
Proof.
  intros W HD HG orientation h v local.
  destruct (@synced_get sm id sensorGroup sensorData W HG HD) as (E & _).
  assert (ER : group_rotation sensorGroup
               = eulerOfRotation (rotation sensorData)).
  { unfold groupRecord, groupOfData in E. congruence. }
  assert (Q := quaternion_of_rotation sensorGroup ER).
  assert (L : localDirection (hAngleRad d j) (vAngleRad d i) = local)
    by reflexivity.
  assert (D : rayDirection (quaternion sensorGroup) d i j
              = rotateY (degToRad (yaw (rotation sensorData)))
                  (rotateX (degToRad (pitch (rotation sensorData)))
                     (rotateZ (degToRad (roll (rotation sensorData)))
                        local))).
  { unfold quaternion. rewrite rayDirection_rotations, ER, L.
    reflexivity. }
  split; [exact Q|]. split.
  { unfold orientation. rewrite <- Q. unfold rayDirection. now rewrite L. }
  split; [apply applyQuaternion_orientation|].
  split; [exact D|].
  rewrite D. unfold Three.length.
  rewrite lengthSq_rotateY, lengthSq_rotateX, lengthSq_rotateZ.
  rewrite <- L, lengthSq_localDirection. apply sqrt_1.
Qed.

Lemma rayDirection_spec_witness :
  quaternion group1 = orientationFromYawPitchRoll (rotation s1)
  /\ rayDirection (quaternion group1) fullTurn 0 0
     = rotateY (degToRad 90)
         (rotateX (degToRad 0)
            (rotateZ (degToRad 0)
               (mkVector3
                  (sin (hAngleRad fullTurn 0) * cos (vAngleRad fullTurn 0))%R
                  (sin (vAngleRad fullTurn 0))
                  (cos (hAngleRad fullTurn 0)
                   * cos (vAngleRad fullTurn 0))%R))).
Proof.
  destruct (@rayDirection_spec (snd withSensor) "s1" s1 group1 fullTurn 0 0)
    as (A & _ & _ & B & _).
  - apply (wellFormed_addSensor s1 (fst withFloor, catalog)).
    apply wellFormed_catalog.
  - reflexivity.
  - reflexivity.
  - split; [exact A | exact B].
Defined.

End PoseFacts.

(* ------------------------------------------------------------------ *)
(** ** More about the rays and the beams of a sensor *)

Unset Implicit Arguments.

Module EngineFacts.
Import Three Grid Scene Sensor Obstacle World Beams Views Examples
  MoreExamples.
Import JSMapFacts GridFacts DirectionFacts RayFacts BeamFacts.
Local Open Scope string_scope.
Local Open Scope list_scope.
Local Open Scope Q_scope.

Lemma rayDirection_length (sensorGroup : Group) (d : SensorDefinition)
  (i j : Z) :
  Three.length (rayDirection (quaternion sensorGroup) d i j) = 1%R.
Proof.
  unfold quaternion. rewrite rayDirection_rotations. unfold Three.length.
  rewrite lengthSq_rotateY, lengthSq_rotateX, lengthSq_rotateZ,
    lengthSq_localDirection.
  apply sqrt_1.
Qed.

Lemma rays_length (d : SensorDefinition) :
  List.length (rays d)
  = (Z.to_nat (channels d) * Z.to_nat (numHorizontalSteps d))%nat.
Proof.
  unfold rays. now rewrite length_prod, !loopIndices_length.
Qed.

(** X3: with at least one horizontal step, the horizontal angles start
    at [-hFov/2], go up by [hFov / N] from one step to the next, and end
    one step short of [+hFov/2]; for a full turn the step is 5
    degrees. *)
Theorem horizontal_angles (d : SensorDefinition) :
  (0 < numHorizontalSteps d)%Z ->
  hAngleRad d 0 = degToRad (- (hFov d / 2))
  /\ (forall j : Z,
        (hAngleRad d (j + 1) - hAngleRad d j)%R
        = degToRad (hFov d / inject_Z (numHorizontalSteps d)))
  /\ hAngleRad d (numHorizontalSteps d - 1)
     = degToRad (hFov d / 2 - hFov d / inject_Z (numHorizontalSteps d))
  /\ (hFov d == 360 ->
      forall j : Z,
        (hAngleRad d (j + 1) - hAngleRad d j)%R = degToRad 5).
Proof.
  intros HN.
  assert (NZ : ~ inject_Z (numHorizontalSteps d) == 0).
  { intros H. unfold Qeq in H. simpl in H. lia. }
  assert (S : forall j : Z,
             (hAngleRad d (j + 1) - hAngleRad d j)%R
             = degToRad (hFov d / inject_Z (numHorizontalSteps d))).
  { intros j. unfold hAngleRad. rewrite degToRad_minus.
    apply degToRad_Qeq. rewrite inject_Z_plus.
    change (inject_Z 1) with 1. ring. }
  repeat split.
  - unfold hAngleRad. apply degToRad_Qeq. change (inject_Z 0) with 0. ring.
  - exact S.
  - unfold hAngleRad. apply degToRad_Qeq.
    unfold Zminus. rewrite inject_Z_plus.
    change (inject_Z (- (1))) with (- (1)). field. exact NZ.
  - intros H j. rewrite S. apply degToRad_Qeq.
    unfold numHorizontalSteps.
    rewrite (proj2 (Qeq_bool_iff (hFov d) 360) H), H. reflexivity.
Qed.

Lemma horizontal_angles_witness :
  hAngleRad halfTurn 0 = degToRad (- (180 / 2))
  /\ hAngleRad halfTurn 35 = degToRad (180 / 2 - 180 / 36).
Proof.
  destruct (horizontal_angles halfTurn) as (A & _ & B & _).
  - reflexivity.
  - split; [exact A | exact B].
Defined.

Section Engine.
Variable raycast : Vector3 Q -> Vector3 R -> Collidable -> list Q.

Lemma rayDistance_bounds (regs : Registries) (d : SensorDefinition)
  (sensorGroup : Group) (i j : Z) :
  rayDistance raycast regs d sensorGroup i j <= maxRange d
  /\ (0 <= maxRange d -> 0 <= rayDistance raycast regs d sensorGroup i j).
Proof.
  unfold rayDistance, resolveDistance.
  destruct (intersectObjects raycast 0 (maxRange d)
              (group_position sensorGroup)
              (rayDirection (quaternion sensorGroup) d i j)
              (collidableObjects regs)) as [|h t] eqn:E.
  - split; [apply Qle_refl | auto].
  - assert (H : In (distance h)
                  (map distance
                     (intersectObjects raycast 0 (maxRange d)
                        (group_position sensorGroup)
                        (rayDirection (quaternion sensorGroup) d i j)
                        (collidableObjects regs)))).
    { rewrite E. now left. }
    apply In_intersectObjects in H. tauto.
Qed.

(** Every beam that the loops add is the beam of a drawn sample. *)
Lemma castBeams_children (regs : Registries) (d : SensorDefinition)
  (sensorGroup : Group) (rt : Runtime) (b : BeamMesh) :
  In b (snd (castBeams raycast regs d sensorGroup (rt, []))) ->
  exists ij : Z * Z,
    In ij (rays d)
    /\ drawn (raySample raycast regs d sensorGroup ij) = true
    /\ beamShape b
       = shapeOfSample (beamLayout d)
                       (raySample raycast regs d sensorGroup ij).
Proof.
  intros H. apply (in_map beamShape) in H.
  rewrite castBeams_shapes in H. simpl in H.
  apply in_map_iff in H. destruct H as (s & Hs & H).
  apply filter_In in H. destruct H as (H & D).
  apply in_map_iff in H. destruct H as (ij & <- & Hij).
  exists ij. auto.
Qed.

(** X1: the direction of every ray is a unit vector, and so is the axis
    of every beam; the resolved distance of a ray never exceeds
    [maxRange]; every beam has a height between 0.01 and [maxRange] and
    a radius of at least 0.01. *)
Theorem beam_bounds (regs : Registries) (d : SensorDefinition)
  (sensorGroup : Group) (rt : Runtime) :
  (forall i j : Z,
      Three.length (rayDirection (quaternion sensorGroup) d i j) = 1%R
      /\ rayDistance raycast regs d sensorGroup i j <= maxRange d)
  /\ (forall b : BeamMesh,
        In b (snd (castBeams raycast regs d sensorGroup (rt, []))) ->
        Three.length (beam_axis b) = 1%R
        /\ 0.01 <= cone_height (beam_geometry b)
        /\ cone_height (beam_geometry b) <= maxRange d
        /\ (Q2R 0.01 <= cone_radius (beam_geometry b))%R).
Proof.
  split.
  - intros i j. split; [apply rayDirection_length|].
    apply rayDistance_bounds.
  - intros b Hb. apply castBeams_children in Hb.
    destruct Hb as ([i j] & _ & D & S).
    unfold beamShape, shapeOfSample, raySample in S. simpl in S.
    injection S as S1 S2 S3 S4. rewrite S1, S2, S4.
    repeat split.
    + apply rayDirection_length.
    + unfold drawn in D. apply negb_true_iff, Qltb_ge in D. exact D.
    + apply rayDistance_bounds.
    + apply Rmax_l.
Qed.

(** X2: a sensor never gets more beams than it has rays, which are
    [channels] times the number of horizontal steps; where nothing can
    be hit, every ray resolves to [maxRange], and the sensor gets a
    beam for every ray, or none at all when [maxRange] is below
    0.01. *)
Theorem beam_count (regs : Registries) (d : SensorDefinition)
  (sensorGroup : Group) (rt : Runtime) :
  let beams := snd (castBeams raycast regs d sensorGroup (rt, [])) in
  let n := (Z.to_nat (channels d)
            * Z.to_nat (numHorizontalSteps d))%nat in
  (List.length beams <= n)%nat
  /\ (collidableObjects regs = [] ->
      (forall i j : Z,
          rayDistance raycast regs d sensorGroup i j = maxRange d)
      /\ List.length beams = if Qltb (maxRange d) 0.01 then 0%nat else n).
Proof.
  intros beams n.
  assert (L : List.length beams
              = List.length
                  (filter drawn
                     (map (raySample raycast regs d sensorGroup)
                          (rays d)))).
  { unfold beams. rewrite <- (length_map beamShape), castBeams_shapes.
    simpl. now rewrite length_map. }
  split.
  - rewrite L. unfold n. rewrite <- rays_length.
    rewrite <- (length_map (raySample raycast regs d sensorGroup)).
    apply filter_length_le.
  - intros E.
    assert (A : forall i j : Z,
               rayDistance raycast regs d sensorGroup i j = maxRange d).
    { intros i j. unfold rayDistance, intersectObjects. now rewrite E. }
    split; [exact A|]. rewrite L. unfold n. rewrite <- rays_length.
    destruct (Qltb (maxRange d) 0.01) eqn:T.
    + rewrite filter_none; [reflexivity|].
      intros s Hs. apply in_map_iff in Hs. destruct Hs as ([i j] & <- & _).
      unfold drawn, raySample. simpl. now rewrite A, T.
    + rewrite filter_all; [apply length_map|].
      intros s Hs. apply in_map_iff in Hs. destruct Hs as ([i j] & <- & _).
      unfold drawn, raySample. simpl. now rewrite A, T.
Qed.

End Engine.

Lemma beam_bounds_witness :
  Three.length (beam_axis oneBeam) = 1%R
  /\ 0.01 <= cone_height (beam_geometry oneBeam)
  /\ cone_height (beam_geometry oneBeam) <= 10
  /\ (Q2R 0.01 <= cone_radius (beam_geometry oneBeam))%R.
Proof.
  apply (proj2 (beam_bounds noHits hiddenScene oneRay group1 Scene.initial)
               oneBeam).
  left. reflexivity.
Defined.

Lemma beam_count_witness :
  rayDistance noHits hiddenScene fullTurn group1 0 0 = maxRange fullTurn
  /\ List.length
       (snd (castBeams noHits hiddenScene fullTurn group1
                       (Scene.initial, [])))
     = (16 * 72)%nat.
Proof.
  destruct (proj2 (beam_count noHits hiddenScene fullTurn group1
                              Scene.initial) eq_refl) as (A & B).
  split; [apply A | exact B].
Defined.

End EngineFacts.

(* ------------------------------------------------------------------ *)
(** ** What an evaluation leaves in [beamMeshes] *)

Module EvaluationFacts.
Import Three Grid Scene Sensor Obstacle World Beams Views Examples
  MoreExamples.
Import JSMapFacts RayFacts BeamFacts.
Local Open Scope string_scope.
Local Open Scope list_scope.

Lemma keys_visuals (bm : BeamManager) :
  JSMap.keys (visuals bm) = JSMap.keys (beamMeshes bm).
Proof. apply keys_mapValues. Qed.

Lemma setBeamVisibility_absent (k : string) (v : bool) (bm : BeamManager) :
  JSMap.get k (beamMeshes bm) = None -> setBeamVisibility k v bm = bm.
Proof. unfold setBeamVisibility. now intros ->. Qed.

Lemma setBeamVisibility_present (k : string) (v : bool) (bm : BeamManager)
  (g : BeamGroup) :
  JSMap.get k (beamMeshes bm) = Some g ->
  beamMeshes (setBeamVisibility k v bm)
  = JSMap.set k (mkBeamGroup (beams_id g) (beams_name g) v (children g))
              (beamMeshes bm).
Proof. unfold setBeamVisibility. now intros ->. Qed.

Section Engine.
Variable raycast : Vector3 Q -> Vector3 R -> Collidable -> list Q.

Lemma sensorTouch_own (regs : Registries) (s : PlacedSensorData) :
  (visible s = true ->
   getSensorDefinitionById (definitionId s) (sensorManager regs) <> None
   /\ getPlacedSensorById (sensor_id s) (sensorManager regs) <> None) ->
  JSMap.touches (sensorTouch raycast regs s) (sensor_id s) = true.
Proof.
  intros H. unfold sensorTouch.
  destruct (visible s); simpl; [|apply String.eqb_refl].
  destruct (H eq_refl) as (D & G).
  destruct (getSensorDefinitionById _ _); [|congruence].
  destruct (getPlacedSensorById _ _); [|congruence].
  apply String.eqb_refl.
Qed.

Lemma listed_touched (regs : Registries) (k : string) :
  consistent regs ->
  existsb (String.eqb k)
          (map sensor_id (getAllPlacedSensorData (sensorManager regs)))
  = true ->
  JSMap.touched
    (map (sensorTouch raycast regs)
         (getAllPlacedSensorData (sensorManager regs))) k
  = true.
Proof.
  intros C H. apply existsb_exists in H. destruct H as (k' & Hk & E).
  apply String.eqb_eq in E. subst k'.
  apply in_map_iff in Hk. destruct Hk as (s & <- & Hs).
  apply existsb_exists. exists (sensorTouch raycast regs s).
  split; [now apply in_map|]. apply sensorTouch_own. now apply C.
Qed.

Lemma touched_listed (regs : Registries)
  (sensors : list PlacedSensorData) (k : string) :
  JSMap.touched (map (sensorTouch raycast regs) sensors) k = true ->
  existsb (String.eqb k) (map sensor_id sensors) = true.
Proof.
  intros H. apply existsb_exists in H. destruct H as (c & Hc & T).
  apply in_map_iff in Hc. destruct Hc as (s & <- & Hs).
  apply sensorTouch_touches in T. apply existsb_exists.
  exists k. split; [|apply String.eqb_refl].
  rewrite <- T. now apply in_map.
Qed.

(** With consistent registries, what an evaluation leaves is what the
    touches of the sensors create from nothing. *)
Lemma updateBeams_from_nothing (regs : Registries)
  (st : Runtime * BeamManager) :
  consistent regs ->
  visuals (snd (updateBeams raycast regs st))
  = JSMap.run (map (sensorTouch raycast regs)
                   (getAllPlacedSensorData (sensorManager regs))) [].
Proof.
  intros C. rewrite updateBeams_visuals, run_split, filter_app.
  rewrite filter_none.
  - simpl. apply filter_all. intros e He.
    apply run_nil_touched in He. eapply touched_listed. exact He.
  - intros e He. apply filter_In in He. destruct He as (_ & He).
    apply negb_true_iff in He.
    destruct (existsb (String.eqb (fst e)) _) eqn:E; auto.
    apply (@listed_touched regs (fst e) C) in E. congruence.
Qed.

Lemma run_nil_renewals (regs : Registries)
  (sensors : list PlacedSensorData) :
  NoDup (map sensor_id sensors) ->
  JSMap.run (map (sensorTouch raycast regs) sensors) []
  = renewals (map (sensorTouch raycast regs) sensors).
Proof.
  induction sensors as [|s sensors IH]; intros N; simpl; auto.
  inversion N as [|? ? Hn N']; subst.
  unfold JSMap.run in *. simpl.
  assert (T := sensorTouch_touches raycast regs s).
  destruct (sensorTouch raycast regs s) as [k|k v|]; simpl.
  - now apply IH.
  - specialize (T k (String.eqb_refl k)). subst k.
    change [(sensor_id s, v)] with ([(sensor_id s, v)] ++ []).
    fold (JSMap.run (map (sensorTouch raycast regs) sensors)
                    ([(sensor_id s, v)] ++ [])).
    rewrite run_app. simpl.
    rewrite (@sensorTouches_untouched raycast regs sensors _ Hn). simpl.
    f_equal. now apply IH.
  - now apply IH.
Qed.

Lemma keys_renewals (regs : Registries) (l : list PlacedSensorData) :
  (forall s, In s l -> visible s = true ->
     getSensorDefinitionById (definitionId s) (sensorManager regs) <> None
     /\ getPlacedSensorById (sensor_id s) (sensorManager regs) <> None) ->
  JSMap.keys (renewals (map (sensorTouch raycast regs) l))
  = map sensor_id (filter visible l).
Proof.
  induction l as [|s l IH]; intros H; simpl; auto.
  unfold JSMap.keys in *. rewrite map_app, IH
    by (intros s' Hs'; apply H; now right).
  unfold sensorTouch.
  destruct (visible s) eqn:V; simpl; auto.
  destruct (H s (or_introl eq_refl) V) as (D & G).
  destruct (getSensorDefinitionById _ _); [|congruence].
  destruct (getPlacedSensorById _ _); [|congruence].
  reflexivity.
Qed.

Lemma In_renewals (regs : Registries) (l : list PlacedSensorData)
  (k : string) (v : GroupShape) :
  In (k, v) (renewals (map (sensorTouch raycast regs) l)) ->
  fst (fst v) = ("beams_" ++ k)%string /\ snd (fst v) = true.
Proof.
  intros H. unfold renewals in H. apply in_flat_map in H.
  destruct H as (c & Hc & H). apply in_map_iff in Hc.
  destruct Hc as (s & <- & _). unfold sensorTouch in H.
  destruct (negb (visible s)); [destruct H|].
  destruct (getSensorDefinitionById _ _); [|destruct H].
  destruct (getPlacedSensorById _ _); [|destruct H].
  destruct H as [[= <- <-]|[]]. simpl. auto.
Qed.

(** X4: after an evaluation [beamMeshes] has entries for current
    sensors only.  When no id is used twice and every visible sensor
    has its definition and its group, it has exactly one entry per
    visible sensor, in the order of the registry, and each group is
    named [beams_] followed by the id and is shown. *)
Theorem beamMeshes_after_update (regs : Registries)
  (st : Runtime * BeamManager) :
  let sensors := getAllPlacedSensorData (sensorManager regs) in
  let after := beamMeshes (snd (updateBeams raycast regs st)) in
  (forall k, In k (JSMap.keys after) -> In k (map sensor_id sensors))
  /\ (consistent regs -> NoDup (map sensor_id sensors) ->
      JSMap.keys after = map sensor_id (filter visible sensors)
      /\ forall k g, In (k, g) after ->
           beams_name g = ("beams_" ++ k)%string /\ beams_visible g = true).
Proof.
  intros sensors after. split.
  - intros k Hk. unfold after in Hk. rewrite <- keys_visuals in Hk.
    rewrite updateBeams_visuals in Hk.
    unfold JSMap.keys in Hk. apply in_map_iff in Hk.
    destruct Hk as (e & <- & He). apply filter_In in He.
    destruct He as (_ & He). apply existsb_exists in He.
    destruct He as (k' & Hk' & E). apply String.eqb_eq in E.
    now rewrite E.
  - intros C N.
    assert (V : visuals (snd (updateBeams raycast regs st))
                = renewals (map (sensorTouch raycast regs) sensors)).
    { rewrite updateBeams_from_nothing by exact C.
      now apply run_nil_renewals. }
    split.
    + unfold after. rewrite <- keys_visuals, V.
      apply keys_renewals. intros s Hs. now apply C.
    + intros k g H.
      assert (H' : In (k, groupShape g)
                      (visuals (snd (updateBeams raycast regs st)))).
      { unfold visuals, JSMap.mapValues.
        apply (in_map (fun e : string * BeamGroup =>
                         (fst e, groupShape (snd e))) _ _ H). }
      rewrite V in H'. apply In_renewals in H'. exact H'.
Qed.

(** X5: [setBeamVisibility] does nothing for an id without beams and
    otherwise changes the flag of that one group only.  With consistent
    registries, what an evaluation leaves does not depend on what
    [beamMeshes] held before; in particular it forgets the flag that
    [setBeamVisibility] has set. *)
Theorem evaluation_forgets (regs : Registries) (rt : Runtime)
  (bm : BeamManager) (k : string) (v : bool) :
  (JSMap.get k (beamMeshes bm) = None -> setBeamVisibility k v bm = bm)
  /\ (forall g, JSMap.get k (beamMeshes bm) = Some g ->
        JSMap.get k (beamMeshes (setBeamVisibility k v bm))
        = Some (mkBeamGroup (beams_id g) (beams_name g) v (children g))
        /\ JSMap.keys (beamMeshes (setBeamVisibility k v bm))
           = JSMap.keys (beamMeshes bm)
        /\ forall k', k' <> k ->
             JSMap.get k' (beamMeshes (setBeamVisibility k v bm))
             = JSMap.get k' (beamMeshes bm))
  /\ (consistent regs ->
      (forall st st' : Runtime * BeamManager,
          visuals (snd (updateBeams raycast regs st))
          = visuals (snd (updateBeams raycast regs st')))
      /\ visuals (snd (updateBeams raycast regs
                         (rt, setBeamVisibility k v bm)))
         = visuals (snd (updateBeams raycast regs (rt, bm)))).
Proof.
  split; [apply setBeamVisibility_absent|]. split.
  - intros g G. rewrite (setBeamVisibility_present k v bm g G).
    split; [apply get_set_same|]. split.
    + apply keys_set_present. apply get_Some_in in G.
      apply (in_map fst) in G. exact G.
    + intros k' N. now apply get_set_other.
  - intros C. split.
    + intros st st'. now rewrite !updateBeams_from_nothing.
    + now rewrite !updateBeams_from_nothing.
Qed.

End Engine.

Lemma beamMeshes_after_update_witness :
  JSMap.keys (beamMeshes (snd (updateBeams noHits scene1 staleState)))
  = ["s1"%string]
  /\ forall k g,
       In (k, g) (beamMeshes (snd (updateBeams noHits scene1 staleState))) ->
       beams_name g = ("beams_" ++ k)%string /\ beams_visible g = true.
Proof.
  refine (proj2 (beamMeshes_after_update noHits scene1 staleState) _ _).
  - intros s [<-|[]] _. split; discriminate.
  - repeat constructor; simpl; tauto.
Defined.

Lemma evaluation_forgets_witness :
  visuals (snd (updateBeams noHits scene1
                  (fst staleState,
                   setBeamVisibility "s1" false (snd staleState))))
  = visuals (snd (updateBeams noHits scene1 staleState)).
Proof.
  apply (proj2 (proj2 (evaluation_forgets noHits scene1 (fst staleState)
                         (snd staleState) "s1" false))).
  intros s [<-|[]] _. split; discriminate.
Defined.

End EvaluationFacts.

(* ------------------------------------------------------------------ *)
(** ** The resources of the beams *)

Module LeakFacts.
Import Three Grid Scene Sensor Obstacle World Beams Views Examples
  MoreExamples.
Import JSMapFacts RayFacts BeamFacts ResourceFacts.
Local Open Scope string_scope.
Local Open Scope list_scope.
Local Open Scope nat_scope.

Lemma remove_as_filter (a : nat) (l : list nat) :
  remove Nat.eq_dec a l = filter (fun x => negb (Nat.eqb x a)) l.
Proof.
  induction l as [|x l IH]; simpl; auto.
  destruct (Nat.eq_dec a x) as [<-|N].
  - now rewrite Nat.eqb_refl.
  - assert (E : Nat.eqb x a = false) by (apply Nat.eqb_neq; congruence).
    rewrite E. simpl. now rewrite IH.
Qed.

Lemma remove_absent (a : nat) (l : list nat) :
  ~ In a l -> remove Nat.eq_dec a l = l.
Proof. apply notin_remove. Qed.

(** Disposing the geometries of a list of beams takes exactly their ids
    out of the live geometries. *)
Lemma disposeAll_filter (cs : list BeamMesh) (rt : Runtime) :
  liveGeometries
    (fold_left (fun r child => dispose (cone_id (beam_geometry child)) r)
               cs rt)
  = filter (fun x => negb (existsb (Nat.eqb x) (geometryIds cs)))
           (liveGeometries rt).
Proof.
  revert rt. induction cs as [|c cs IH]; intros rt; simpl.
  - symmetry. now apply filter_all.
  - rewrite IH. simpl. rewrite remove_as_filter, filter_twice.
    apply filter_ext. intros x. now rewrite negb_orb.
Qed.

Lemma disposeAll_counters (cs : list BeamMesh) (rt : Runtime) :
  let rt' :=
    fold_left (fun r child => dispose (cone_id (beam_geometry child)) r)
              cs rt in
  nextObjectId rt' = nextObjectId rt
  /\ nextGeometryId rt' = nextGeometryId rt
  /\ sceneChildren rt' = sceneChildren rt.
Proof.
  revert rt. induction cs as [|c cs IH]; intros rt; simpl; auto.
  destruct (IH (dispose (cone_id (beam_geometry c)) rt)) as (A & B & C).
  simpl in *. auto.
Qed.

Lemma bounded_clearBeamsForSensor (k : string)
  (st : Runtime * BeamManager) :
  bounded (fst st) -> bounded (fst (clearBeamsForSensor k st)).
Proof.
  destruct st as [rt bm]. unfold clearBeamsForSensor; simpl.
  destruct (JSMap.get k (beamMeshes bm)) as [g|]; simpl; auto.
  intros (B1 & B2).
  destruct (disposeAll_counters (children g) rt) as (A & B & C).
  split; simpl.
  - intros o Ho. apply in_remove in Ho. destruct Ho as (Ho & _).
    rewrite C in Ho. rewrite A. auto.
  - intros x Hx. rewrite disposeAll_filter in Hx.
    apply filter_In in Hx. rewrite B. apply B2. tauto.
Qed.

Section Engine.
Variable raycast : Vector3 Q -> Vector3 R -> Collidable -> list Q.

(** What the loops do to the runtime: the scene stays as it is, and the
    geometries of the beams they add are numbered from the counter on
    and become live. *)
Lemma castBeam_runtime (regs : Registries) (d : SensorDefinition)
  (sensorGroup : Group) (i j : Z) (acc : Runtime * list BeamMesh) :
  let acc' := castBeam raycast regs d sensorGroup i j acc in
  exists added : list BeamMesh,
    snd acc' = snd acc ++ added
    /\ sceneChildren (fst acc') = sceneChildren (fst acc)
    /\ liveGeometries (fst acc')
       = rev (geometryIds added) ++ liveGeometries (fst acc)
    /\ geometryIds added
       = seq (nextGeometryId (fst acc)) (List.length added)
    /\ nextGeometryId (fst acc')
       = nextGeometryId (fst acc) + List.length added
    /\ nextObjectId (fst acc) <= nextObjectId (fst acc').
Proof.
  unfold castBeam. destruct (Qltb _ _).
  - exists []. simpl. rewrite app_nil_r. repeat split; auto; lia.
  - destruct acc as [rt l]. simpl. eexists [_]. simpl.
    repeat split; auto; lia.
Qed.

Lemma castBeams_runtime (regs : Registries) (d : SensorDefinition)
  (sensorGroup : Group) (acc : Runtime * list BeamMesh) :
  let acc' := castBeams raycast regs d sensorGroup acc in
  exists added : list BeamMesh,
    snd acc' = snd acc ++ added
    /\ sceneChildren (fst acc') = sceneChildren (fst acc)
    /\ liveGeometries (fst acc')
       = rev (geometryIds added) ++ liveGeometries (fst acc)
    /\ geometryIds added
       = seq (nextGeometryId (fst acc)) (List.length added)
    /\ nextGeometryId (fst acc')
       = nextGeometryId (fst acc) + List.length added
    /\ nextObjectId (fst acc) <= nextObjectId (fst acc').
Proof.
  assert (Step : forall (f : Runtime * list BeamMesh -> Z ->
                              Runtime * list BeamMesh) (l : list Z),
             (forall a z,
                 exists added,
                   snd (f a z) = snd a ++ added
                   /\ sceneChildren (fst (f a z)) = sceneChildren (fst a)
                   /\ liveGeometries (fst (f a z))
                      = rev (geometryIds added) ++ liveGeometries (fst a)
                   /\ geometryIds added
                      = seq (nextGeometryId (fst a)) (List.length added)
                   /\ nextGeometryId (fst (f a z))
                      = nextGeometryId (fst a) + List.length added
                   /\ nextObjectId (fst a) <= nextObjectId (fst (f a z)))
             -> forall a,
                 exists added,
                   snd (fold_left f l a) = snd a ++ added
                   /\ sceneChildren (fst (fold_left f l a))
                      = sceneChildren (fst a)
                   /\ liveGeometries (fst (fold_left f l a))
                      = rev (geometryIds added) ++ liveGeometries (fst a)
                   /\ geometryIds added
                      = seq (nextGeometryId (fst a)) (List.length added)
                   /\ nextGeometryId (fst (fold_left f l a))
                      = nextGeometryId (fst a) + List.length added
                   /\ nextObjectId (fst a)
                      <= nextObjectId (fst (fold_left f l a))).
  { intros f l Hf. induction l as [|z l IH]; intros a; simpl.
    - exists []. simpl. rewrite app_nil_r. repeat split; auto; lia.
    - destruct (Hf a z) as (a1 & E1 & S1 & L1 & G1 & N1 & O1).
      destruct (IH (f a z)) as (a2 & E2 & S2 & L2 & G2 & N2 & O2).
      exists (a1 ++ a2). unfold geometryIds in *.
      rewrite E2, E1, S2, S1, L2, L1, N2, N1, map_app, rev_app_distr,
        length_app, seq_app, G1, G2, N1.
      rewrite <- !app_assoc. repeat split; auto; lia. }
  unfold castBeams. apply Step. intros a i. apply Step. intros a' j.
  apply castBeam_runtime.
Qed.

(** X6: generating the beams of a sensor and clearing them again leaves
    the scene, the live geometries and [beamMeshes] as clearing alone
    does: every group and every geometry that the generation creates
    is released by [clearBeamsForSensor]. *)
Theorem generate_then_clear (regs : Registries)
  (sensorData : PlacedSensorData) (definition : SensorDefinition)
  (sensorGroup : Group) (st : Runtime * BeamManager) :
  bounded (fst st) ->
  let cleared := clearBeamsForSensor (sensor_id sensorData) st in
  let generated :=
    generateBeamsForSensor raycast regs sensorData definition
                           sensorGroup st in
  let again := clearBeamsForSensor (sensor_id sensorData) generated in
  sceneChildren (fst again) = sceneChildren (fst cleared)
  /\ liveGeometries (fst again) = liveGeometries (fst cleared)
  /\ beamMeshes (snd again) = beamMeshes (snd cleared).
Proof.
  intros B cleared generated again.
  assert (BC := bounded_clearBeamsForSensor (sensor_id sensorData) st B).
  assert (MC := clearBeamsForSensor_beamMeshes (sensor_id sensorData) st).
  fold cleared in BC, MC.
  unfold again, generated, generateBeamsForSensor. fold cleared.
  destruct cleared as [rt0 bm0]. simpl in BC, MC.
  unfold newObject.
  destruct (castBeams_runtime regs definition sensorGroup
              (sceneAdd (nextObjectId rt0)
                 (mkRuntime (S (nextObjectId rt0)) (nextGeometryId rt0)
                            (sceneChildren rt0) (liveGeometries rt0)),
               []))
    as (added & E & S & L & G & N & O).
  destruct (castBeams raycast regs definition sensorGroup _)
    as [rt3 l3].
  simpl in E, S, L, G, N, O. subst l3.
  unfold clearBeamsForSensor. simpl.
  rewrite set_set, get_set_same. simpl.
  destruct BC as (B1 & B2).
  assert (F : ~ In (nextObjectId rt0) (sceneChildren rt0)).
  { intros H. specialize (B1 _ H). lia. }
  destruct (disposeAll_counters added rt3) as (_ & _ & C).
  split; [|split].
  - rewrite C, S, (@remove_absent _ _ F), remove_app,
      (@remove_absent _ _ F).
    simpl. destruct (Nat.eq_dec _ _); [|congruence]. apply app_nil_r.
  - rewrite disposeAll_filter, L, filter_app.
    rewrite filter_none, filter_all; auto.
    + intros x Hx. apply negb_true_iff.
      destruct (existsb (Nat.eqb x) (geometryIds added)) eqn:X; auto.
      apply existsb_exists in X. destruct X as (y & Hy & Exy).
      apply Nat.eqb_eq in Exy. subst y. rewrite G in Hy.
      apply in_seq in Hy. specialize (B2 _ Hx). lia.
    + intros x Hx. apply negb_false_iff, existsb_exists.
      exists x. split; [|apply Nat.eqb_refl]. now apply in_rev.
  - rewrite set_absent, delete_app by (rewrite MC; apply get_delete_same).
    simpl. rewrite String.eqb_refl. simpl. rewrite app_nil_r.
    apply delete_absent. rewrite MC. apply get_delete_same.
Qed.

End Engine.

(** *** Tidy states *)

Lemma get_split (V : Type) (k : string) (v : V) (m : JSMap.t V) :
  JSMap.get k m = Some v ->
  exists m1 m2, m = m1 ++ (k, v) :: m2 /\ ~ In k (JSMap.keys m1).
Proof.
  induction m as [|[k' v'] m IH]; simpl; [discriminate|].
  destruct (String.eqb_spec k k') as [<-|N].
  - intros [= <-]. exists [], m. split; [reflexivity | intros []].
  - intros H. destruct (IH H) as (m1 & m2 & -> & Hn).
    exists ((k', v') :: m1), m2. split; [reflexivity|].
    simpl. intros [E|I]; [congruence | contradiction].
Qed.

Lemma delete_split (V : Type) (k : string) (v : V) (m1 m2 : JSMap.t V) :
  ~ In k (JSMap.keys m1) -> ~ In k (JSMap.keys m2) ->
  JSMap.delete k (m1 ++ (k, v) :: m2) = m1 ++ m2.
Proof.
  intros H1 H2. rewrite delete_app. simpl. rewrite String.eqb_refl. simpl.
  rewrite !delete_absent; auto; now apply get_None_not_in.
Qed.

Lemma NoDup_app_disjoint (A : Type) (l1 l2 : list A) :
  NoDup (l1 ++ l2) -> forall x, In x l1 -> ~ In x l2.
Proof.
  induction l1 as [|a l1 IH]; simpl; intros N x H; [destruct H|].
  inversion N as [|? ? Ha N']; subst. destruct H as [<-|H].
  - intros I. apply Ha. apply in_or_app. now right.
  - now apply IH.
Qed.

Lemma outside_nil (l : list nat) : outside [] l = l.
Proof. unfold outside. now apply filter_all. Qed.

Lemma outside_outside (a b l : list nat) :
  outside a (outside b l) = outside (b ++ a) l.
Proof.
  unfold outside. rewrite filter_twice. apply filter_ext. intros x.
  now rewrite existsb_app, negb_orb.
Qed.

Lemma outside_perm (a b l : list nat) :
  (forall x, In x a <-> In x b) -> outside a l = outside b l.
Proof.
  intros H. unfold outside. apply filter_ext. intros x. f_equal.
  destruct (existsb (Nat.eqb x) b) eqn:E.
  - apply existsb_exists in E. destruct E as (y & Hy & E).
    apply existsb_exists. exists y. split; [now apply H | exact E].
  - destruct (existsb (Nat.eqb x) a) eqn:E'; auto.
    apply existsb_exists in E'. destruct E' as (y & Hy & E').
    assert (X : existsb (Nat.eqb x) b = true).
    { apply existsb_exists. exists y. split; [now apply H | exact E']. }
    congruence.
Qed.

Lemma In_outside (ids l : list nat) (x : nat) :
  In x (outside ids l) <-> In x l /\ ~ In x ids.
Proof.
  unfold outside. rewrite filter_In, negb_true_iff. split.
  - intros (H & E). split; auto. intros I.
    assert (X : existsb (Nat.eqb x) ids = true).
    { apply existsb_exists. exists x. split; [exact I|apply Nat.eqb_refl]. }
    congruence.
  - intros (H & N). split; auto.
    destruct (existsb (Nat.eqb x) ids) eqn:E; auto.
    apply existsb_exists in E. destruct E as (y & Hy & E).
    apply Nat.eqb_eq in E. subst y. contradiction.
Qed.

Lemma outside_disjoint (ids l : list nat) :
  (forall x, In x l -> ~ In x ids) -> outside ids l = l.
Proof.
  intros H. unfold outside. apply filter_all. intros x Hx.
  apply negb_true_iff.
  destruct (existsb (Nat.eqb x) ids) eqn:E; auto.
  apply existsb_exists in E. destruct E as (y & Hy & E).
  apply Nat.eqb_eq in E. subst y. elim (H x Hx Hy).
Qed.

Lemma outside_inside (ids l : list nat) :
  (forall x, In x l -> In x ids) -> outside ids l = [].
Proof.
  intros H. unfold outside. apply filter_none. intros x Hx.
  apply negb_false_iff, existsb_exists. exists x.
  split; [now apply H | apply Nat.eqb_refl].
Qed.

Lemma remove_as_outside (a : nat) (l : list nat) :
  remove Nat.eq_dec a l = outside [a] l.
Proof.
  rewrite remove_as_filter. unfold outside. apply filter_ext. intros x.
  simpl. now rewrite orb_false_r.
Qed.

Lemma groupIds_app (m1 m2 : JSMap.t BeamGroup) :
  groupIds (m1 ++ m2) = groupIds m1 ++ groupIds m2.
Proof. unfold groupIds, JSMap.values. now rewrite !map_app. Qed.

Lemma beamGeometryIds_app (m1 m2 : JSMap.t BeamGroup) :
  beamGeometryIds (m1 ++ m2) = beamGeometryIds m1 ++ beamGeometryIds m2.
Proof.
  unfold beamGeometryIds, JSMap.values. now rewrite map_app, flat_map_app.
Qed.

(** Clearing the beams of a sensor keeps a tidy state tidy and does not
    touch what is not the engine's. *)
Lemma clearBeamsForSensor_tidy (k : string) (st : Runtime * BeamManager) :
  tidy st ->
  tidy (clearBeamsForSensor k st)
  /\ foreignScene (clearBeamsForSensor k st) = foreignScene st
  /\ foreignLive (clearBeamsForSensor k st) = foreignLive st.
Proof.
  intros T.
  assert (B := bounded_clearBeamsForSensor k st (proj1 T)).
  destruct st as [rt bm]. unfold clearBeamsForSensor in *. simpl in *.
  destruct (JSMap.get k (beamMeshes bm)) as [g|] eqn:G; [|auto].
  destruct T as (_ & NK & NG & NX & IS & IL). simpl in *.
  destruct (@get_split _ k g (beamMeshes bm) G) as (m1 & m2 & E & H1).
  unfold foreignScene, foreignLive, tidy. simpl.
  rewrite E in *. clear E G.
  assert (H2 : ~ In k (JSMap.keys m2)).
  { unfold JSMap.keys in *. rewrite map_app in NK. simpl in NK.
    apply NoDup_remove_2 in NK. intros I. apply NK. apply in_or_app.
    now right. }
  rewrite (@delete_split _ k g m1 m2 H1 H2).
  rewrite groupIds_app in *. rewrite beamGeometryIds_app in *.
  change (groupIds ((k, g) :: m2)) with (beams_id g :: groupIds m2) in *.
  change (beamGeometryIds ((k, g) :: m2))
    with (geometryIds (children g) ++ beamGeometryIds m2) in *.
  destruct (disposeAll_counters (children g) rt) as (_ & _ & C).
  unfold foreignScene, foreignLive, tidy. simpl.
  rewrite groupIds_app, beamGeometryIds_app, C, disposeAll_filter.
  fold (outside (geometryIds (children g)) (liveGeometries rt)).
  rewrite remove_as_outside, !outside_outside.
  assert (NG' := NoDup_remove_1 _ _ _ NG).
  assert (NG2 := NoDup_remove_2 _ _ _ NG).
  assert (D1 := NoDup_app_disjoint _ _ _ NX).
  assert (NXr := NoDup_app_remove_l _ _ NX).
  assert (D2 := NoDup_app_disjoint _ _ _ NXr).
  assert (NX' : NoDup (beamGeometryIds m1 ++ beamGeometryIds m2)).
  { apply NoDup_app.
    - now apply NoDup_app_remove_r in NX.
    - now apply NoDup_app_remove_l in NXr.
    - intros x Hx1 Hx2. apply (D1 x Hx1). apply in_or_app. now right. }
  assert (NK' : NoDup (JSMap.keys (m1 ++ m2))).
  { unfold JSMap.keys in *. rewrite map_app in *. simpl in NK.
    now apply NoDup_remove_1 in NK. }
  split; [|split].
  - split; [exact B|]. split; [exact NK'|]. split; [exact NG'|].
    split; [exact NX'|]. split.
    + intros o Ho. apply In_outside. split.
      * apply IS. apply in_app_or in Ho. apply in_or_app.
        destruct Ho; [now left | right; now right].
      * intros [<-|[]]. contradiction.
    + intros x Hx. apply In_outside. split.
      * apply IL. apply in_app_or in Hx. apply in_or_app.
        destruct Hx; [now left | right; apply in_or_app; now right].
      * intros Hg.
        apply in_app_or in Hx. destruct Hx as [Hx|Hx].
        -- apply (D1 x Hx). apply in_or_app. now left.
        -- now apply (D2 x Hg).
  - apply outside_perm. intros x. simpl. rewrite !in_app_iff. simpl.
    tauto.
  - apply outside_perm. intros x.
    change (beamGeometryIds ((k, g) :: m2))
      with (geometryIds (children g) ++ beamGeometryIds m2).
    rewrite !in_app_iff. tauto.
Qed.

Lemma outside_app (ids l1 l2 : list nat) :
  outside ids (l1 ++ l2) = outside ids l1 ++ outside ids l2.
Proof. apply filter_app. Qed.

Section Tidy.
Variable raycast : Vector3 Q -> Vector3 R -> Collidable -> list Q.

Lemma generateBeamsForSensor_tidy (regs : Registries)
  (sensorData : PlacedSensorData) (definition : SensorDefinition)
  (sensorGroup : Group) (st : Runtime * BeamManager) :
  tidy st ->
  let st' := generateBeamsForSensor raycast regs sensorData definition
                                    sensorGroup st in
  tidy st' /\ foreignScene st' = foreignScene st
  /\ foreignLive st' = foreignLive st.
Proof.
  intros T st'.
  destruct (clearBeamsForSensor_tidy (sensor_id sensorData) st T)
    as (TC & FS & FL).
  assert (MC := clearBeamsForSensor_beamMeshes (sensor_id sensorData) st).
  rewrite <- FS, <- FL. clear FS FL T.
  unfold st', generateBeamsForSensor.
  destruct (clearBeamsForSensor (sensor_id sensorData) st) as [rt0 bm0].
  simpl in MC.
  assert (A : JSMap.get (sensor_id sensorData) (beamMeshes bm0) = None).
  { rewrite MC. apply get_delete_same. }
  clear MC st'. unfold newObject.
  destruct (castBeams_runtime raycast regs definition sensorGroup
              (sceneAdd (nextObjectId rt0)
                 (mkRuntime (S (nextObjectId rt0)) (nextGeometryId rt0)
                            (sceneChildren rt0) (liveGeometries rt0)),
               []))
    as (added & E & SC & L & G & N & O).
  destruct (castBeams raycast regs definition sensorGroup _)
    as [rt3 l3].
  simpl in E, SC, L, G, N, O. subst l3.
  destruct TC as ((B1 & B2) & NK & NG & NX & IS & IL). simpl in *.
  assert (F : ~ In (nextObjectId rt0) (sceneChildren rt0)).
  { intros H. specialize (B1 _ H). lia. }
  rewrite (remove_absent _ _ F) in SC.
  set (newGroup := mkBeamGroup (nextObjectId rt0) _ true added).
  unfold tidy, foreignScene, foreignLive, bounded.
  cbn [fst snd beamMeshes].
  rewrite set_set, (set_absent _ _ _ A).
  rewrite groupIds_app, beamGeometryIds_app.
  replace (groupIds [(sensor_id sensorData, newGroup)])
    with [nextObjectId rt0] by reflexivity.
  replace (beamGeometryIds [(sensor_id sensorData, newGroup)])
    with (geometryIds added) by (symmetry; apply app_nil_r).
  rewrite SC, L, N, G. clearbody newGroup.
  assert (FG : forall x, In x (seq (nextGeometryId rt0)
                                   (List.length added)) ->
                         ~ In x (liveGeometries rt0)).
  { intros x Hx I. apply in_seq in Hx. specialize (B2 _ I). lia. }
  split; [|split].
  - split; [split|].
    + intros o Ho. apply in_app_or in Ho.
      destruct Ho as [Ho|[<-|[]]]; [specialize (B1 _ Ho)|]; lia.
    + intros x Hx. apply in_app_or in Hx. destruct Hx as [Hx|Hx].
      * apply in_rev, in_seq in Hx. lia.
      * specialize (B2 _ Hx). lia.
    + split.
      { unfold JSMap.keys in *. rewrite map_app. simpl.
        apply NoDup_app; auto.
        - repeat constructor. intros [].
        - intros k Hk [<-|[]].
          apply (proj1 (get_None_not_in _ _) A). exact Hk. }
      split.
      { apply NoDup_app; auto.
        - repeat constructor. intros [].
        - intros o Ho [<-|[]]. apply F. now apply IS. }
      split.
      { apply NoDup_app; auto.
        - apply seq_NoDup.
        - intros x Hx Hs. apply (FG x Hs). now apply IL. }
      split.
      * intros o Ho. apply in_or_app. apply in_app_or in Ho.
        destruct Ho as [Ho|Ho]; [left; now apply IS | now right].
      * intros x Hx. apply in_or_app. apply in_app_or in Hx.
        destruct Hx as [Hx|Hx]; [right; now apply IL|].
        left. now apply in_rev in Hx.
  - rewrite outside_app, <- outside_outside.
    rewrite (outside_disjoint [nextObjectId rt0]).
    + rewrite (outside_inside _ [nextObjectId rt0]).
      * apply app_nil_r.
      * intros x [<-|[]]. apply in_or_app. right. now left.
    + intros x Hx [<-|[]]. apply In_outside in Hx. tauto.
  - rewrite outside_app, <- !outside_outside.
    rewrite (outside_inside (seq (nextGeometryId rt0)
                                 (List.length added))
                            (outside _ (rev _))).
    + simpl. apply outside_disjoint.
      intros x Hx Hs. apply In_outside in Hx. apply (FG x Hs). tauto.
    + intros x Hx. apply In_outside in Hx. destruct Hx as (Hx & _).
      now apply in_rev in Hx.
Qed.

Lemma updateSensorBeams_tidy (regs : Registries)
  (st : Runtime * BeamManager) (s : PlacedSensorData) :
  tidy st ->
  tidy (updateSensorBeams raycast regs st s)
  /\ foreignScene (updateSensorBeams raycast regs st s) = foreignScene st
  /\ foreignLive (updateSensorBeams raycast regs st s) = foreignLive st.
Proof.
  intros T. unfold updateSensorBeams.
  destruct (negb (visible s)).
  - now apply clearBeamsForSensor_tidy.
  - destruct (getSensorDefinitionById _ _); auto.
    destruct (getPlacedSensorById _ _); auto.
    now apply generateBeamsForSensor_tidy.
Qed.

(** X7: an evaluation keeps the beams in order and leaves alone what is
    not the engine's.  From a state in which every beam group is a
    child of the scene and every beam geometry is live, it leads to
    such a state again, and the children of the scene that are no beam
    groups and the live geometries that are not those of beams are the
    same before and after.  So nothing that the engine creates stays
    behind unregistered, however often it runs. *)
Theorem updateBeams_tidy (regs : Registries)
  (st : Runtime * BeamManager) :
  tidy st ->
  tidy (updateBeams raycast regs st)
  /\ foreignScene (updateBeams raycast regs st) = foreignScene st
  /\ foreignLive (updateBeams raycast regs st) = foreignLive st.
Proof.
  intros T. unfold updateBeams.
  set (sensors := getAllPlacedSensorData (sensorManager regs)).
  assert (L1 : tidy (fold_left (updateSensorBeams raycast regs)
                               sensors st)
               /\ foreignScene (fold_left (updateSensorBeams raycast regs)
                                          sensors st)
                  = foreignScene st
               /\ foreignLive (fold_left (updateSensorBeams raycast regs)
                                         sensors st)
                  = foreignLive st).
  { clearbody sensors. revert st T.
    induction sensors as [|s sensors IH]; intros st T; simpl; auto.
    destruct (updateSensorBeams_tidy regs st s T) as (T1 & S1 & G1).
    destruct (IH _ T1) as (T2 & S2 & G2).
    rewrite S2, G2. auto. }
  revert L1.
  generalize (fold_left (updateSensorBeams raycast regs) sensors st)
    as st1.
  intros st1 (T1 & S1 & G1). rewrite <- S1, <- G1. clear S1 G1.
  generalize (JSMap.keys (beamMeshes (snd st1))) as ks.
  intros ks. revert st1 T1.
  induction ks as [|k ks IH]; intros st1 T1; simpl; auto.
  assert (C : tidy (clearIfGone (map sensor_id sensors) st1 k)
              /\ foreignScene (clearIfGone (map sensor_id sensors) st1 k)
                 = foreignScene st1
              /\ foreignLive (clearIfGone (map sensor_id sensors) st1 k)
                 = foreignLive st1).
  { unfold clearIfGone.
    destruct (negb (existsb (String.eqb k) (map sensor_id sensors)));
      auto.
    now apply clearBeamsForSensor_tidy. }
  destruct C as (T2 & S2 & G2).
  destruct (IH _ T2) as (T3 & S3 & G3).
  rewrite S3, G3. auto.
Qed.

End Tidy.

Lemma staleState_tidy : tidy staleState.
Proof.
  unfold tidy, bounded. simpl. repeat split.
  - intros o [<-|[]]. lia.
  - intros x [<-|[]]. lia.
  - repeat constructor. intros [].
  - repeat constructor. intros [].
  - repeat constructor. intros [].
  - intros o [<-|[]]. now left.
  - intros x [<-|[]]. now left.
Qed.

Lemma updateBeams_tidy_witness :
  tidy staleState
  /\ tidy (updateBeams noHits scene1 staleState)
  /\ foreignScene (updateBeams noHits scene1 staleState)
     = foreignScene staleState
  /\ foreignLive (updateBeams noHits scene1 staleState)
     = foreignLive staleState.
Proof.
  split; [exact staleState_tidy|].
  exact (updateBeams_tidy noHits scene1 staleState staleState_tidy).
Defined.

Lemma generate_then_clear_witness :
  bounded (fst staleState)
  /\ sceneChildren
       (fst (clearBeamsForSensor (sensor_id s1)
               (generateBeamsForSensor noHits scene1 s1 oneRay group1
                                       staleState)))
     = sceneChildren (fst (clearBeamsForSensor (sensor_id s1) staleState)).
Proof.
  split; [exact (proj1 staleState_tidy)|].
  exact (proj1 (generate_then_clear noHits scene1 s1 oneRay group1
                  staleState (proj1 staleState_tidy))).
Defined.

End LeakFacts.

(* ------------------------------------------------------------------ *)
(** ** The calls of the sensor manager *)

Module SensorCallFacts.
Import Three Grid Scene Sensor World Beams Views Session Examples
  MoreExamples.
Import JSMapFacts SensorFacts LeakFacts.
Local Open Scope string_scope.
Local Open Scope list_scope.

Lemma find_snoc (A : Type) (p : A -> bool) (l : list A) (x : A) :
  find p (l ++ [x])
  = match find p l with
    | Some y => Some y
    | None => if p x then Some x else None
    end.
Proof.
  induction l as [|a l IH]; simpl; [now destruct (p x)|].
  now destruct (p a).
Qed.

(** Looking up a key after a run of [set]: the last element filed under
    the key, or what the map held. *)
Lemma fold_set_lookup (V : Type) (key : V -> string) (l : list V)
  (m : JSMap.t V) (id : string) :
  JSMap.get id (fold_left (fun a v => JSMap.set (key v) v a) l m)
  = match find (fun v => String.eqb id (key v)) (rev l) with
    | Some v => Some v
    | None => JSMap.get id m
    end.
Proof.
  revert m. induction l as [|a l IH]; intros m; simpl; auto.
  rewrite IH, find_snoc.
  destruct (find _ (rev l)); auto.
  destruct (String.eqb id (key a)) eqn:E.
  - apply String.eqb_eq in E. subst id. apply get_set_same.
  - apply get_set_other. now apply String.eqb_neq.
Qed.

Lemma NoDup_map_same (A B : Type) (f : A -> B) (l : list A) (a b : A) :
  NoDup (map f l) -> In a l -> In b l -> f a = f b -> a = b.
Proof.
  induction l as [|x l IH]; simpl; intros N Ha Hb E; [destruct Ha|].
  inversion N as [|? ? Hx N']; subst.
  destruct Ha as [<-|Ha], Hb as [<-|Hb]; auto.
  - exfalso. apply Hx. rewrite E. now apply in_map.
  - exfalso. apply Hx. rewrite <- E. now apply in_map.
Qed.

(** X8: after [loadSensorDefinitions] a lookup gives the last definition
    of the list that has the id and, when the list has none, what the
    catalog held before: definitions are replaced or added, never
    removed.  When the ids of the list differ from one another, every
    definition of the list is found under its id. *)
Theorem loadSensorDefinitions_lookup (definitions : list SensorDefinition)
  (sm : SensorManager) :
  (forall id : string,
      getSensorDefinitionById id (loadSensorDefinitions definitions sm)
      = match find (fun d => String.eqb id (def_id d)) (rev definitions)
        with
        | Some d => Some d
        | None => getSensorDefinitionById id sm
        end)
  /\ (forall id : string,
        getSensorDefinitionById id sm <> None ->
        getSensorDefinitionById id (loadSensorDefinitions definitions sm)
        <> None)
  /\ (NoDup (map def_id definitions) ->
      forall d : SensorDefinition,
        In d definitions ->
        getSensorDefinitionById (def_id d)
                                (loadSensorDefinitions definitions sm)
        = Some d).
Proof.
  assert (L : forall id : string,
             getSensorDefinitionById id
               (loadSensorDefinitions definitions sm)
             = match find (fun d => String.eqb id (def_id d))
                          (rev definitions) with
               | Some d => Some d
               | None => getSensorDefinitionById id sm
               end).
  { intros id. unfold getSensorDefinitionById, loadSensorDefinitions.
    simpl. apply fold_set_lookup. }
  split; [exact L|]. split.
  - intros id H. rewrite L. now destruct (find _ _).
  - intros N d Hd. rewrite L.
    destruct (find _ (rev definitions)) as [d'|] eqn:F.
    + apply find_some in F. destruct F as (H' & E).
      apply String.eqb_eq in E. apply in_rev in H'.
      f_equal. symmetry. now apply (NoDup_map_same _ _ def_id definitions).
    + apply in_rev in Hd. apply (find_none _ _ F) in Hd.
      simpl in Hd. now rewrite String.eqb_refl in Hd.
Qed.

Lemma loadSensorDefinitions_lookup_witness :
  getSensorDefinitionById (def_id fullTurn)
    (loadSensorDefinitions [fullTurn; halfTurn] Sensor.empty)
  = Some fullTurn.
Proof.
  refine (proj2 (proj2 (loadSensorDefinitions_lookup [fullTurn; halfTurn]
                          Sensor.empty)) _ fullTurn _).
  - repeat constructor; simpl; intuition discriminate.
  - now left.
Defined.

Lemma set_get_same (V : Type) (k : string) (v : V) (m : JSMap.t V) :
  JSMap.get k m = Some v -> JSMap.set k v m = m.
Proof.
  induction m as [|[k' v'] m IH]; simpl; [discriminate|].
  destruct (String.eqb k k') eqn:E.
  - apply String.eqb_eq in E. now intros [= ->]; subst.
  - intros H. now rewrite IH.
Qed.

Lemma delete_set_absent (V : Type) (k : string) (v : V) (m : JSMap.t V) :
  JSMap.get k m = None -> JSMap.delete k (JSMap.set k v m) = m.
Proof.
  intros H. rewrite (set_absent k v m H), delete_app.
  rewrite (delete_absent k m H). unfold JSMap.delete. simpl.
  rewrite String.eqb_refl. simpl. apply app_nil_r.
Qed.

Lemma map_untouched (V : Type) (key : V -> string) (k : string)
  (h : V -> V) (m : JSMap.t V) :
  (forall k0 v0, In (k0, v0) m -> key v0 = k0) ->
  ~ In k (JSMap.keys m) ->
  map (fun s => if String.eqb (key s) k then h s else s) (JSMap.values m)
  = JSMap.values m.
Proof.
  induction m as [|[k0 v0] m IH]; simpl; intros K N; auto.
  rewrite IH; [| intros k1 v1 H1; apply K; now right | tauto].
  rewrite (K k0 v0) by now left.
  destruct (String.eqb k0 k) eqn:E; auto.
  apply String.eqb_eq in E. tauto.
Qed.

(** Replacing the value of a key that is present changes that one value
    in place. *)
Lemma values_set_present (V : Type) (key : V -> string) (k : string)
  (h : V -> V) (d : V) (m : JSMap.t V) :
  JSMap.keyed key m -> JSMap.get k m = Some d ->
  JSMap.values (JSMap.set k (h d) m)
  = map (fun s => if String.eqb (key s) k then h s else s)
        (JSMap.values m).
Proof.
  induction m as [|[k0 v0] m IH]; simpl; intros K H; [discriminate|].
  apply keyed_tail in K. destruct K as (E0 & N0 & K).
  rewrite E0. destruct (String.eqb k k0) eqn:E.
  - apply String.eqb_eq in E. subst k. rewrite String.eqb_refl. simpl.
    injection H as ->.
    f_equal. symmetry. apply map_untouched; [apply K | exact N0].
  - rewrite String.eqb_sym, E. simpl. f_equal. now apply IH.
Qed.

Lemma present_both (sm : SensorManager) (id : string) :
  Sensor.wellFormed sm ->
  (JSMap.get id (placedSensors sm) = None
   <-> JSMap.get id (placedSensorData sm) = None).
Proof.
  intros W. rewrite !get_None_not_in. now rewrite (wellFormed_keys W).
Qed.

(** X9: [addSensor] does nothing when the definition of the record is
    not in the catalog.  Otherwise the record and a group made from it
    (name, position, rotation in radians, visibility) are found under
    the id of the record, the other sensors stay as they were, the
    group is a new child of the scene, and no child leaves the scene,
    not even the group that was filed under the id before. *)
Theorem addSensor_lookup (data : PlacedSensorData) (rt : Runtime)
  (sm : SensorManager) :
  let st' := addSensor data (rt, sm) in
  (getSensorDefinitionById (definitionId data) sm = None ->
   st' = (rt, sm))
  /\ (getSensorDefinitionById (definitionId data) sm <> None ->
      getPlacedSensorDataById (sensor_id data) (snd st') = Some data
      /\ (exists g : Group,
             getPlacedSensorById (sensor_id data) (snd st') = Some g
             /\ groupRecord g = groupOfData data
             /\ In (group_id g) (sceneChildren (fst st'))
             /\ (bounded rt -> ~ In (group_id g) (sceneChildren rt)))
      /\ (forall k : string,
             k <> sensor_id data ->
             getPlacedSensorDataById k (snd st')
             = getPlacedSensorDataById k sm
             /\ getPlacedSensorById k (snd st')
                = getPlacedSensorById k sm)
      /\ (bounded rt ->
          forall o : nat,
            In o (sceneChildren rt) -> In o (sceneChildren (fst st')))).
Proof.
  unfold addSensor, getSensorDefinitionById, getPlacedSensorDataById,
    getPlacedSensorById.
  destruct (JSMap.get (definitionId data) (sensorDefinitions sm))
    as [def|]; simpl.
  - split; [discriminate|]. intros _. split; [apply get_set_same|].
    split; [|split].
    + eexists. split; [apply get_set_same|]. simpl.
      split; [reflexivity|]. split.
      * apply in_or_app. right. now left.
      * intros (B & _) H. apply B in H. lia.
    + intros k N. split; now apply get_set_other.
    + intros (B & _) o H. apply in_or_app. left.
      apply in_in_remove; auto. apply B in H. lia.
  - split; [reflexivity|]. intros H. now destruct H.
Qed.

Lemma addSensor_lookup_witness :
  getPlacedSensorDataById (sensor_id s1)
    (snd (addSensor s1 (Scene.initial, catalog)))
  = Some s1.
Proof.
  refine (proj1 (proj2 (addSensor_lookup s1 Scene.initial catalog) _)).
  discriminate.
Defined.

(** X10: [setSensorVisibility] changes the flag of the record filed
    under the id, in place, and of its group, and nothing else; for an
    id that is not placed it does nothing; setting the flag back
    restores the manager. *)
Theorem setSensorVisibility_effect (id : string) (v : bool)
  (sm : SensorManager) :
  Sensor.wellFormed sm ->
  serializeSensors (setSensorVisibility id v sm)
  = map (fun s =>
           if String.eqb (sensor_id s) id
           then mkPlacedSensorData (sensor_id s) (definitionId s)
                                   (position s) (rotation s) v
           else s)
        (serializeSensors sm)
  /\ JSMap.mapValues groupRecord
       (placedSensors (setSensorVisibility id v sm))
     = JSMap.mapValues groupOfData
         (placedSensorData (setSensorVisibility id v sm))
  /\ (getPlacedSensorDataById id sm = None ->
      setSensorVisibility id v sm = sm)
  /\ (forall d : PlacedSensorData,
        getPlacedSensorDataById id sm = Some d ->
        setSensorVisibility id (visible d) (setSensorVisibility id v sm)
        = sm).
Proof.
  intros W.
  assert (W' := wellFormed_setSensorVisibility id v W).
  split; [|split; [apply W'|]].
  - unfold serializeSensors, setSensorVisibility.
    destruct (JSMap.get id (placedSensors sm)) as [g|] eqn:G.
    + destruct (JSMap.get id (placedSensorData sm)) as [d|] eqn:D.
      * simpl.
        apply (values_set_present _ sensor_id id
                 (fun s => mkPlacedSensorData (sensor_id s)
                             (definitionId s) (position s) (rotation s) v)
                 d _ (proj1 W) D).
      * apply (proj2 (present_both sm id W)) in D. congruence.
    + symmetry. apply map_untouched; [apply W|].
      apply get_None_not_in. now apply (proj1 (present_both sm id W)).
  - split.
    + intros D. unfold getPlacedSensorDataById in D.
      unfold setSensorVisibility. rewrite D.
      now destruct (JSMap.get id (placedSensors sm)).
    + intros d D. unfold getPlacedSensorDataById in D.
      destruct (JSMap.get id (placedSensors sm)) as [g|] eqn:G.
      * destruct (@synced_get sm id g d W G D) as (E & _).
        unfold groupRecord, groupOfData in E.
        injection E as E1 E2 E3 E4.
        unfold setSensorVisibility at 2. rewrite G, D.
        unfold setSensorVisibility. simpl. rewrite !get_set_same.
        rewrite !set_set. simpl.
        rewrite set_get_same by (rewrite G; now destruct g; simpl in *;
                                 subst).
        rewrite set_get_same by (rewrite D; now destruct d).
        now destruct sm.
      * apply (proj1 (present_both sm id W)) in G. congruence.
Qed.

Lemma setSensorVisibility_effect_witness :
  setSensorVisibility "s1" (visible s1)
    (setSensorVisibility "s1" false (snd withSensor))
  = snd withSensor.
Proof.
  refine (proj2 (proj2 (proj2 (setSensorVisibility_effect "s1" false
                                 (snd withSensor) _))) s1 _).
  - apply (wellFormed_addSensor s1 (fst withFloor, catalog)).
    apply wellFormed_catalog.
  - reflexivity.
Defined.

(** X11: [updateSensor] changes the position and the rotation that are
    given, of the record filed under the id, in place, and of its group
    (the rotation in radians), and nothing else; with neither it does
    nothing; a position and then a rotation are as both at once. *)
Theorem updateSensor_effect (id : string)
  (newPosition : option (Vector3 Q)) (newRotation : option Rotation)
  (sm : SensorManager) :
  Sensor.wellFormed sm ->
  serializeSensors (updateSensor id newPosition newRotation sm)
  = map (fun s =>
           if String.eqb (sensor_id s) id
           then mkPlacedSensorData
                  (sensor_id s) (definitionId s)
                  (match newPosition with
                   | Some p => p
                   | None => position s
                   end)
                  (match newRotation with
                   | Some r => r
                   | None => rotation s
                   end)
                  (visible s)
           else s)
        (serializeSensors sm)
  /\ JSMap.mapValues groupRecord
       (placedSensors (updateSensor id newPosition newRotation sm))
     = JSMap.mapValues groupOfData
         (placedSensorData (updateSensor id newPosition newRotation sm))
  /\ updateSensor id None None sm = sm
  /\ (forall (p : Vector3 Q) (r : Rotation),
        updateSensor id None (Some r) (updateSensor id (Some p) None sm)
        = updateSensor id (Some p) (Some r) sm).
Proof.
  intros W.
  assert (W' := wellFormed_updateSensor id newPosition newRotation W).
  split; [|split; [apply W'|split]].
  - unfold serializeSensors, updateSensor.
    destruct (JSMap.get id (placedSensors sm)) as [g|] eqn:G.
    + destruct (JSMap.get id (placedSensorData sm)) as [d|] eqn:D.
      * set (h := fun s : PlacedSensorData =>
                    mkPlacedSensorData
                      (sensor_id s) (definitionId s)
                      (match newPosition with
                       | Some p => p
                       | None => position s
                       end)
                      (match newRotation with
                       | Some r => r
                       | None => rotation s
                       end)
                      (visible s)).
        etransitivity;
          [|apply (values_set_present _ sensor_id id h d _ (proj1 W) D)].
        unfold h. destruct newPosition, newRotation; simpl; auto;
          now destruct d.
      * apply (proj2 (present_both sm id W)) in D. congruence.
    + symmetry. apply (map_untouched _ sensor_id id); [apply W|].
      apply get_None_not_in. now apply (proj1 (present_both sm id W)).
  - unfold updateSensor.
    destruct (JSMap.get id (placedSensors sm)) as [g|] eqn:G; auto.
    destruct (JSMap.get id (placedSensorData sm)) as [d|] eqn:D; auto.
    simpl. rewrite (set_get_same _ _ _ _ G), (set_get_same _ _ _ _ D).
    now destruct sm.
  - intros p r. unfold updateSensor at 2 3.
    destruct (JSMap.get id (placedSensors sm)) as [g|] eqn:G.
    + destruct (JSMap.get id (placedSensorData sm)) as [d|] eqn:D.
      * unfold updateSensor. simpl. rewrite !get_set_same.
        simpl. now rewrite !set_set.
      * unfold updateSensor. now rewrite G, D.
    + unfold updateSensor. now rewrite G.
Qed.

Lemma updateSensor_effect_witness :
  serializeSensors
    (updateSensor "s1" (Some (mkVector3 2 1 2)) None (snd withSensor))
  = map (fun s =>
           if String.eqb (sensor_id s) "s1"
           then mkPlacedSensorData (sensor_id s) (definitionId s)
                                   (mkVector3 2 1 2) (rotation s)
                                   (visible s)
           else s)
        (serializeSensors (snd withSensor)).
Proof.
  refine (proj1 (updateSensor_effect "s1" (Some (mkVector3 2 1 2)) None
                   (snd withSensor) _)).
  apply (wellFormed_addSensor s1 (fst withFloor, catalog)).
  apply wellFormed_catalog.
Defined.

(** X12: removing a sensor that has just been added under an unused id
    gives back the manager and the children of the scene as they
    were. *)
Theorem add_then_remove (data : PlacedSensorData) (rt : Runtime)
  (sm : SensorManager) :
  bounded rt ->
  getPlacedSensorById (sensor_id data) sm = None ->
  getPlacedSensorDataById (sensor_id data) sm = None ->
  let st' := removeSensor (sensor_id data) (addSensor data (rt, sm)) in
  snd st' = sm
  /\ sceneChildren (fst st') = sceneChildren rt.
Proof.
  unfold getPlacedSensorById, getPlacedSensorDataById.
  intros (B & _) G D. unfold addSensor.
  destruct (JSMap.get (definitionId data) (sensorDefinitions sm)).
  - unfold removeSensor, newObject. simpl. rewrite get_set_same. simpl.
    rewrite !delete_set_absent by assumption.
    split; [now destruct sm|].
    assert (N : ~ In (nextObjectId rt) (sceneChildren rt)).
    { intros H. apply B in H. lia. }
    rewrite (remove_absent _ _ N), remove_app, (remove_absent _ _ N).
    simpl. destruct (Nat.eq_dec _ _); [apply app_nil_r | congruence].
  - unfold removeSensor. rewrite G. auto.
Qed.

Lemma add_then_remove_witness :
  bounded (fst withFloor)
  /\ snd (removeSensor (sensor_id s1) (addSensor s1 (fst withFloor, catalog)))
     = catalog.
Proof.
  assert (B : bounded (fst withFloor)).
  { split; simpl; intros x H; repeat destruct H as [<-|H]; try lia;
      destruct H. }
  split; [exact B|].
  exact (proj1 (add_then_remove s1 (fst withFloor) catalog B
                  eq_refl eq_refl)).
Defined.

Lemma In_values_set (V : Type) (k : string) (v x : V) (m : JSMap.t V) :
  In x (JSMap.values (JSMap.set k v m)) ->
  x = v \/ In x (JSMap.values m).
Proof.
  intros H. apply in_map_iff in H. destruct H as (e & <- & H).
  apply In_set in H. destruct H as [->|H]; [now left|].
  right. now apply in_map.
Qed.

Lemma allResolvable_definitions (sm sm' : SensorManager) :
  (forall id, getSensorDefinitionById id sm <> None ->
              getSensorDefinitionById id sm' <> None) ->
  (forall d, In d (getAllPlacedSensorData sm') ->
             In d (getAllPlacedSensorData sm)
             \/ resolvable sm' d = true) ->
  allResolvable sm -> allResolvable sm'.
Proof.
  intros HD HS A d Hd. destruct (HS d Hd) as [H|H]; auto.
  apply A in H. unfold resolvable in *.
  specialize (HD (definitionId d)).
  destruct (getSensorDefinitionById (definitionId d) sm);
    [|discriminate].
  destruct (getSensorDefinitionById (definitionId d) sm'); auto.
  exfalso. now apply HD.
Qed.

Lemma allResolvable_loadSensorDefinitions
  (definitions : list SensorDefinition) (sm : SensorManager) :
  allResolvable sm ->
  allResolvable (loadSensorDefinitions definitions sm).
Proof.
  apply allResolvable_definitions.
  - intros id H. unfold getSensorDefinitionById, loadSensorDefinitions.
    simpl. rewrite fold_set_lookup. now destruct (find _ _).
  - intros d H. now left.
Qed.

Lemma allResolvable_addSensor (data : PlacedSensorData)
  (st : Runtime * SensorManager) :
  allResolvable (snd st) -> allResolvable (snd (addSensor data st)).
Proof.
  destruct (resolvable (snd st) data) eqn:R.
  - destruct (addSensor_resolvable data st R) as (A1 & A2 & _).
    apply allResolvable_definitions.
    + intros id. unfold getSensorDefinitionById. now rewrite A1.
    + intros d H. unfold getAllPlacedSensorData in H. rewrite A2 in H.
      apply In_values_set in H. destruct H as [->|H]; [right|now left].
      now rewrite (@resolvable_definitions _ _ _ A1).
  - now rewrite (addSensor_unresolvable data st R).
Qed.

Lemma allResolvable_removeSensor (id : string)
  (st : Runtime * SensorManager) :
  allResolvable (snd st) -> allResolvable (snd (removeSensor id st)).
Proof.
  destruct (JSMap.get id (placedSensors (snd st))) as [g|] eqn:G.
  - destruct (@removeSensor_present _ _ _ G) as (A1 & _ & A3).
    apply allResolvable_definitions.
    + intros k. unfold getSensorDefinitionById. now rewrite A1.
    + intros d H. left. unfold getAllPlacedSensorData in *.
      rewrite A3 in H. apply in_map_iff in H.
      destruct H as (e & <- & H). apply In_delete in H.
      now apply in_map.
  - now rewrite (@removeSensor_absent _ _ G).
Qed.

Lemma allResolvable_updateSensor (id : string)
  (p : option (Vector3 Q)) (r : option Rotation) (sm : SensorManager) :
  allResolvable sm -> allResolvable (updateSensor id p r sm).
Proof.
  intros A. unfold updateSensor.
  destruct (JSMap.get id (placedSensors sm)) as [g|]; auto.
  destruct (JSMap.get id (placedSensorData sm)) as [d|] eqn:D; auto.
  assert (Hd : resolvable sm d = true).
  { apply A. apply get_Some_in in D.
    apply (in_map snd) in D. exact D. }
  intros x H. unfold getAllPlacedSensorData in H.
  destruct p, r; simpl in H; apply In_values_set in H;
    destruct H as [->|H]; try (now apply A); exact Hd.
Qed.

Lemma allResolvable_setSensorVisibility (id : string) (v : bool)
  (sm : SensorManager) :
  allResolvable sm -> allResolvable (setSensorVisibility id v sm).
Proof.
  intros A. unfold setSensorVisibility.
  destruct (JSMap.get id (placedSensors sm)) as [g|]; auto.
  destruct (JSMap.get id (placedSensorData sm)) as [d|] eqn:D; auto.
  assert (Hd : resolvable sm d = true).
  { apply A. apply get_Some_in in D.
    apply (in_map snd) in D. exact D. }
  intros x H. unfold getAllPlacedSensorData in H. simpl in H.
  apply In_values_set in H. destruct H as [->|H]; [exact Hd|now apply A].
Qed.

Lemma allResolvable_deserializeSensors (data : list PlacedSensorData)
  (st : Runtime * SensorManager) :
  Sensor.wellFormed (snd st) ->
  allResolvable (snd (deserializeSensors data st)).
Proof.
  intros W. destruct (deserializeSensors_effect data st W) as (A1 & A2 & _).
  intros d H. unfold getAllPlacedSensorData in H. rewrite A2 in H.
  apply in_map_iff in H. destruct H as (e & <- & H).
  apply In_ofList in H. apply filter_In in H.
  rewrite (@resolvable_definitions _ _ _ A1). apply H.
Qed.

(** The registries of placed sensors are consistent once the manager is
    well-formed and every definition is there. *)
Lemma consistent_registries (regs : Registries) :
  Sensor.wellFormed (sensorManager regs) ->
  allResolvable (sensorManager regs) ->
  consistent regs.
Proof.
  intros W A s Hs _. split.
  - apply A in Hs. unfold resolvable in Hs.
    now destruct (getSensorDefinitionById _ _).
  - unfold getPlacedSensorById. intros H.
    apply get_None_not_in in H. apply H.
    rewrite (wellFormed_keys W).
    unfold getAllPlacedSensorData in Hs. apply in_map_iff in Hs.
    destruct Hs as ([k s'] & <- & Hs). simpl.
    rewrite (proj2 (proj1 W) k s' Hs).
    apply (in_map fst) in Hs. exact Hs.
Qed.

Lemma NoDup_sensor_ids (sm : SensorManager) :
  Sensor.wellFormed sm ->
  NoDup (map sensor_id (getAllPlacedSensorData sm)).
Proof.
  intros ((N & K) & _). unfold getAllPlacedSensorData, JSMap.values.
  rewrite map_map.
  rewrite (map_ext_in _ fst); [exact N|].
  intros [k s] H. simpl. now apply K.
Qed.

Lemma sensorCall_invariant (c : SensorCall) (st : Runtime * SensorManager) :
  Sensor.wellFormed (snd st) /\ allResolvable (snd st) ->
  Sensor.wellFormed (snd (sensorCall c st))
  /\ allResolvable (snd (sensorCall c st)).
Proof.
  intros (W & A). destruct c; simpl.
  - split; [|now apply allResolvable_loadSensorDefinitions].
    destruct W as (K & S). now split.
  - split; [now apply wellFormed_addSensor
           | now apply allResolvable_addSensor].
  - split; [now apply wellFormed_updateSensor
           | now apply allResolvable_updateSensor].
  - split; [now apply wellFormed_removeSensor
           | now apply allResolvable_removeSensor].
  - split; [now apply wellFormed_setSensorVisibility
           | now apply allResolvable_setSensorVisibility].
  - split; [now apply wellFormed_deserializeSensors
           | now apply allResolvable_deserializeSensors].
Qed.

Lemma sensorCalls_invariant (calls : list SensorCall)
  (st : Runtime * SensorManager) :
  Sensor.wellFormed (snd st) /\ allResolvable (snd st) ->
  Sensor.wellFormed (snd (fold_left (fun st c => sensorCall c st) calls st))
  /\ allResolvable
       (snd (fold_left (fun st c => sensorCall c st) calls st)).
Proof.
  revert st. induction calls as [|c calls IH]; intros st I; simpl; auto.
  apply IH. now apply sensorCall_invariant.
Qed.

(** X13: whatever calls a sensor manager has received since its
    creation, every record is filed under its id, no id is placed
    twice, every record has a group that holds its name, position,
    rotation and visibility, and the definition of every placed sensor
    is in the catalog; so the guard of [updateBeams] on the definition
    and the group never fails for a visible sensor. *)
Theorem sensor_calls_invariant (calls : list SensorCall) (rt : Runtime) :
  let st :=
    fold_left (fun st c => sensorCall c st) calls (rt, Sensor.empty) in
  Sensor.wellFormed (snd st)
  /\ allResolvable (snd st)
  /\ NoDup (map sensor_id (getAllPlacedSensorData (snd st)))
  /\ (forall om wm, consistent (mkRegistries (snd st) om wm)).
Proof.
  intros st.
  assert (I : Sensor.wellFormed (snd st) /\ allResolvable (snd st)).
  { apply sensorCalls_invariant.
    split; [apply (wellFormed_catalog [])|]. intros d []. }
  destruct I as (W & A). split; [exact W|]. split; [exact A|].
  split; [now apply NoDup_sensor_ids|].
  intros om wm. now apply consistent_registries.
Qed.

End SensorCallFacts.

(* ------------------------------------------------------------------ *)
(** ** The calls of the obstacle manager *)

Module ObstacleCallFacts.
Import Three Grid Scene Sensor Obstacle World Beams Views Session Examples
  MoreExamples.
Import JSMapFacts ObstacleFacts LeakFacts SensorCallFacts.
Local Open Scope string_scope.
Local Open Scope list_scope.
Local Open Scope nat_scope.

Lemma In_set_other (V : Type) (k : string) (v x : V) (m : JSMap.t V) :
  NoDup (JSMap.keys m) ->
  In x (JSMap.values (JSMap.set k v m)) ->
  x = v \/ exists k', k' <> k /\ In (k', x) m.
Proof.
  induction m as [|[k0 v0] m IH]; simpl; intros N.
  - intros [<-|[]]. now left.
  - inversion N as [|? ? N0 N']; subst.
    destruct (String.eqb k k0) eqn:E; simpl.
    + apply String.eqb_eq in E. subst k0.
      intros [<-|H]; [now left|]. right.
      apply in_map_iff in H. destruct H as ([k' x'] & <- & H).
      exists k'. split; [|now right].
      intros ->. apply N0. apply (in_map fst) in H. exact H.
    + intros [<-|H].
      * right. exists k0. split; [|now left].
        intros ->. now rewrite String.eqb_refl in E.
      * destruct (IH N' H) as [->|(k' & Hk & H')]; [now left|].
        right. exists k'. split; [exact Hk | now right].
Qed.

Lemma In_delete_other (V : Type) (k k' : string) (x : V) (m : JSMap.t V) :
  In (k', x) (JSMap.delete k m) -> k' <> k /\ In (k', x) m.
Proof.
  unfold JSMap.delete. intros H. apply filter_In in H.
  destruct H as (H & E). split; [|exact H]. simpl in E.
  intros ->. now rewrite String.eqb_refl in E.
Qed.

Lemma NoDup_map_set (V : Type) (f : V -> nat) (k : string) (v : V)
  (m : JSMap.t V) :
  NoDup (map f (JSMap.values m)) ->
  ~ In (f v) (map f (JSMap.values m)) ->
  NoDup (map f (JSMap.values (JSMap.set k v m))).
Proof.
  induction m as [|[k0 v0] m IH]; simpl; intros N F.
  - constructor; [intros []|constructor].
  - inversion N as [|? ? N0 N']; subst.
    destruct (String.eqb k k0); simpl.
    + constructor; [tauto | exact N'].
    + constructor; [|apply IH; tauto].
      intros H. apply in_map_iff in H. destruct H as (x & E & H).
      apply In_values_set in H. destruct H as [->|H].
      * apply F. left. congruence.
      * apply N0. rewrite <- E. now apply in_map.
Qed.

Lemma map_set_same (V W : Type) (f : V -> W) (k : string) (v d : V)
  (m : JSMap.t V) :
  JSMap.get k m = Some d -> f v = f d ->
  map f (JSMap.values (JSMap.set k v m)) = map f (JSMap.values m).
Proof.
  induction m as [|[k0 v0] m IH]; simpl; [discriminate|].
  destruct (String.eqb k k0); simpl.
  - intros [= ->] E. now rewrite E.
  - intros G E. now rewrite IH.
Qed.

Lemma distinct_entries (V : Type) (f : V -> nat) (m : JSMap.t V)
  (k1 k2 : string) (v1 v2 : V) :
  NoDup (map f (JSMap.values m)) ->
  In (k1, v1) m -> In (k2, v2) m -> k1 <> k2 -> f v1 <> f v2.
Proof.
  intros N H1 H2 K E. unfold JSMap.values in N. rewrite map_map in N.
  assert (X := NoDup_map_same _ _ (fun e : string * V => f (snd e)) m
                 (k1, v1) (k2, v2) N H1 H2 E).
  congruence.
Qed.

Lemma NoDup_map_delete (V : Type) (f : V -> nat) (k : string)
  (m : JSMap.t V) :
  NoDup (map f (JSMap.values m)) ->
  NoDup (map f (JSMap.values (JSMap.delete k m))).
Proof.
  induction m as [|[k0 v0] m IH]; simpl; intros N; auto.
  inversion N as [|? ? N0 N']; subst.
  destruct (negb (String.eqb k k0)); simpl; auto.
  constructor; auto. intros H. apply N0.
  apply in_map_iff in H. destruct H as (x & E & H).
  rewrite <- E. apply in_map. apply in_map_iff in H.
  destruct H as (e & <- & H). apply In_delete in H. now apply in_map.
Qed.

Lemma keyed_records (om : ObstacleManager) :
  Obstacle.wellFormed om -> JSMap.keyed obstacle_id (records om).
Proof.
  intros (N & K). split.
  - unfold records. now rewrite keys_mapEntries.
  - intros k v H. unfold records, JSMap.mapEntries in H.
    apply in_map_iff in H. now destruct H as (e & [= <- <-] & _).
Qed.

(** X14: [removeObstacle] does nothing for an id that is not
    registered.  Otherwise the mesh leaves the registry, the children
    of the scene and the selectable objects, its geometry is disposed
    and the transform controls no longer hold it; the other obstacles,
    the other children of the scene, the other selectable objects and
    the other geometries stay as they were. *)
Theorem removeObstacle_releases (id : string) (rt : Runtime)
  (om : ObstacleManager) :
  let st' := removeObstacle id (rt, om) in
  (getObstacleById id om = None -> st' = (rt, om))
  /\ (forall o : Mesh,
        getObstacleById id om = Some o ->
        getObstacleById id (snd st') = None
        /\ ~ In (mesh_id o) (sceneChildren (fst st'))
        /\ ~ In (box_id (geometry o)) (liveGeometries (fst st'))
        /\ ~ In (mesh_id o) (selectableObjects (snd st'))
        /\ attached (snd st') <> Some (mesh_id o)
        /\ (forall k : string,
              k <> id ->
              getObstacleById k (snd st') = getObstacleById k om)
        /\ (forall x : nat,
              x <> mesh_id o ->
              (In x (sceneChildren (fst st')) <-> In x (sceneChildren rt))
              /\ (In x (selectableObjects (snd st'))
                  <-> In x (selectableObjects om))
              /\ (attached om = Some x -> attached (snd st') = Some x))
        /\ (forall x : nat,
              x <> box_id (geometry o) ->
              (In x (liveGeometries (fst st'))
               <-> In x (liveGeometries rt)))).
Proof.
  unfold getObstacleById. split.
  - intros H. now apply (@removeObstacle_absent id (rt, om)).
  - intros o G. unfold removeObstacle. rewrite G.
    set (om1 := match attached om with
                | Some a =>
                    if Nat.eqb a (mesh_id o)
                    then detachTransformControls om else om
                | None => om
                end).
    assert (E1 : obstacles om1 = obstacles om).
    { unfold om1. destruct (attached om) as [a|]; auto.
      now destruct (Nat.eqb a (mesh_id o)). }
    assert (E2 : selectableObjects om1 = selectableObjects om).
    { unfold om1. destruct (attached om) as [a|]; auto.
      now destruct (Nat.eqb a (mesh_id o)). }
    assert (E3 : attached om1 <> Some (mesh_id o)).
    { unfold om1. destruct (attached om) as [a|] eqn:A;
        [|now rewrite A].
      destruct (Nat.eqb a (mesh_id o)) eqn:E; simpl; [discriminate|].
      rewrite A. apply Nat.eqb_neq in E. congruence. }
    assert (E4 : forall x, x <> mesh_id o -> attached om = Some x ->
                           attached om1 = Some x).
    { intros x N A. unfold om1. rewrite A.
      apply Nat.eqb_neq in N. now rewrite N. }
    simpl. rewrite E1, E2.
    split; [apply get_delete_same|].
    split; [apply remove_In|].
    split; [apply remove_In|].
    split.
    { intros H. apply filter_In in H. destruct H as (_ & H).
      now rewrite Nat.eqb_refl in H. }
    split; [exact E3|].
    split; [intros k N; now apply get_delete_other|].
    split.
    + intros x N. split; [|split].
      * split; [apply in_remove|]. intros H. now apply in_in_remove.
      * rewrite filter_In. apply Nat.eqb_neq in N. rewrite N. tauto.
      * now apply E4.
    + intros x N.
      split; [apply in_remove|]. intros H. now apply in_in_remove.
Qed.

Lemma removeObstacle_releases_witness :
  getObstacleById "box" (snd (removeObstacle "box" withBox)) = None.
Proof.
  refine (proj1 (proj2 (removeObstacle_releases "box" (fst withBox)
                          (snd withBox)) _ _)).
  reflexivity.
Defined.

(** X15: adding an obstacle under an id that is in use replaces the
    entry of the registry and releases nothing: the former mesh stays
    a child of the scene and selectable, and its geometry stays live;
    but it is no longer among the obstacles, so that no ray can hit it
    and it is not saved. *)
Theorem addObstacle_used_id (data : ObstacleData) (rt : Runtime)
  (om : ObstacleManager) (old : Mesh) :
  bounded rt -> Obstacle.wellFormed om ->
  getObstacleById (obstacle_id data) om = Some old ->
  In (mesh_id old) (sceneChildren rt) ->
  let st' := addObstacle data (rt, om) in
  In (mesh_id old) (sceneChildren (fst st'))
  /\ (In (box_id (geometry old)) (liveGeometries rt) ->
      In (box_id (geometry old)) (liveGeometries (fst st')))
  /\ (In (mesh_id old) (selectableObjects om) ->
      In (mesh_id old) (selectableObjects (snd st')))
  /\ ~ In old (getAllObstacles (snd st'))
  /\ (forall regs : Registries,
        obstacleManager regs = snd st' ->
        ~ In (ObstacleMesh old) (collidableObjects regs))
  /\ List.length (serializeObstacles (snd st'))
     = List.length (serializeObstacles om).
Proof.
  unfold getObstacleById. intros B W G S.
  set (st' := addObstacle data (rt, om)).
  destruct B as (B & _). destruct W as (N & K).
  assert (L : mesh_id old < nextObjectId rt) by now apply B.
  assert (A : ~ In old (getAllObstacles (snd st'))).
  { unfold st', addObstacle, getAllObstacles. simpl. intros H.
    apply In_set_other in H; [|exact N].
    destruct H as [H|(k' & Hk & H)].
    - rewrite H in L. simpl in L. lia.
    - apply K in H. apply get_Some_in in G. apply K in G. congruence. }
  split; [|split; [|split; [|split; [exact A|split]]]].
  - unfold st', addObstacle. simpl. apply in_or_app. left.
    apply in_in_remove; auto. lia.
  - intros H. unfold st', addObstacle. simpl. now right.
  - intros H. unfold st', addObstacle. simpl. apply in_or_app. now left.
  - intros regs E H. unfold collidableObjects in H.
    apply in_app_or in H. destruct H as [H|H].
    + apply in_map_iff in H. destruct H as (x & [= ->] & H).
      apply A. now rewrite <- E.
    + destruct (getFloorPlane (worldManager regs)); simpl in H;
        intuition discriminate.
  - rewrite !serializeObstacles_records. unfold st'.
    rewrite (addObstacle_records data (rt, om)). simpl.
    unfold JSMap.values. rewrite !length_map.
    assert (P : In (obstacle_id data) (JSMap.keys (records om))).
    { unfold records. rewrite keys_mapEntries.
      apply get_Some_in in G. apply (in_map fst) in G. exact G. }
    rewrite <- (length_map fst), <- (length_map fst (records om)).
    fold (JSMap.keys (JSMap.set (obstacle_id data) data (records om))).
    fold (JSMap.keys (records om)).
    now rewrite keys_set_present.
Qed.

Lemma addObstacle_used_id_witness :
  bounded (fst withBox)
  /\ In 0 (sceneChildren (fst (addObstacle box withBox))).
Proof.
  assert (B : bounded (fst withBox)).
  { split; simpl; intros x H; repeat destruct H as [<-|H]; try lia;
      destruct H. }
  split; [exact B|].
  refine (proj1 (addObstacle_used_id box (fst withBox) (snd withBox)
                   (mkMesh 0 "box" (mkVector3 5 0.5 5)%Q
                           (mkBoxGeometry 0 (mkDimensions 1 1 1)%Q))
                   B _ eq_refl _)).
  - apply (wellFormed_addObstacle box (Scene.initial, Obstacle.empty)).
    apply ObstacleFacts.wellFormed_empty.
  - now left.
Defined.

Lemma removeObstacle_present (id : string) (o : Mesh) (rt : Runtime)
  (om : ObstacleManager) :
  JSMap.get id (obstacles om) = Some o ->
  fst (removeObstacle id (rt, om))
  = dispose (box_id (geometry o)) (sceneRemove (mesh_id o) rt)
  /\ obstacles (snd (removeObstacle id (rt, om)))
     = JSMap.delete id (obstacles om)
  /\ selectableObjects (snd (removeObstacle id (rt, om)))
     = filter (fun obj => negb (Nat.eqb obj (mesh_id o)))
              (selectableObjects om).
Proof.
  intros G. unfold removeObstacle. rewrite G.
  destruct (attached om) as [a|]; simpl; auto.
  destruct (Nat.eqb a (mesh_id o)); simpl; auto.
Qed.

Lemma housed_addObstacle (data : ObstacleData)
  (st : Runtime * ObstacleManager) :
  housed st -> housed (addObstacle data st).
Proof.
  destruct st as [rt om]. intros (B & N1 & N2 & HS & HL).
  destruct B as (B1 & B2). simpl in *.
  assert (F1 : ~ In (nextObjectId rt) (meshIds (obstacles om))).
  { intros H. apply HS in H. destruct H as (H & _).
    apply B1 in H. lia. }
  assert (F2 : ~ In (nextGeometryId rt) (boxIds (obstacles om))).
  { intros H. apply HL in H. apply B2 in H. lia. }
  unfold addObstacle, housed, bounded. simpl.
  split; [split|split; [|split; [|split]]].
  - intros o H. apply in_app_or in H. destruct H as [H|[<-|[]]]; [|lia].
    apply in_remove in H. destruct H as (H & _). apply B1 in H. lia.
  - intros x [<-|H]; [lia|]. apply B2 in H. lia.
  - apply (NoDup_map_set _ mesh_id); auto.
  - apply (NoDup_map_set _ (fun o => box_id (geometry o))); auto.
  - intros o H. unfold meshIds in H. apply in_map_iff in H.
    destruct H as (x & <- & H). apply In_values_set in H.
    destruct H as [->|H]; simpl.
    + split; apply in_or_app; right; now left.
    + assert (H' : In (mesh_id x) (meshIds (obstacles om)))
        by now apply in_map.
      destruct (HS _ H') as (S1 & S2).
      split; apply in_or_app; left; auto.
      apply in_in_remove; auto. apply B1 in S1. lia.
  - intros y H. unfold boxIds in H. apply in_map_iff in H.
    destruct H as (x & <- & H). apply In_values_set in H.
    destruct H as [->|H]; simpl; [now left|].
    right. apply HL. unfold boxIds.
    now apply (in_map (fun o => box_id (geometry o))).
Qed.

Lemma housed_removeObstacle (id : string)
  (st : Runtime * ObstacleManager) :
  housed st -> housed (removeObstacle id st).
Proof.
  destruct st as [rt om]. intros H.
  destruct (JSMap.get id (obstacles om)) as [o|] eqn:G;
    [|now rewrite (@removeObstacle_absent id (rt, om))].
  destruct H as (B & N1 & N2 & HS & HL). destruct B as (B1 & B2).
  simpl in B1, B2, N1, N2, HS, HL.
  destruct (removeObstacle_present id o rt om G) as (E1 & E2 & E3).
  unfold housed, bounded. rewrite E1, E2, E3. simpl.
  assert (Hin := get_Some_in _ _ G).
  split; [split|split; [|split; [|split]]].
  - intros x H. apply in_remove in H. now apply B1.
  - intros x H. apply in_remove in H. now apply B2.
  - now apply NoDup_map_delete.
  - now apply (NoDup_map_delete _ (fun o => box_id (geometry o))).
  - intros x H. unfold meshIds in H. apply in_map_iff in H.
    destruct H as (v & <- & H). apply in_map_iff in H.
    destruct H as ([k' v'] & <- & H). simpl.
    apply In_delete_other in H. destruct H as (Hk & H).
    assert (D := distinct_entries _ mesh_id _ _ _ _ _ N1 H Hin Hk).
    assert (H' : In (mesh_id v') (meshIds (obstacles om))).
    { unfold meshIds. apply in_map.
      apply (in_map snd) in H. exact H. }
    destruct (HS _ H') as (S1 & S2). split.
    + now apply in_in_remove.
    + apply filter_In. split; auto.
      apply Nat.eqb_neq in D. now rewrite D.
  - intros x H. unfold boxIds in H. apply in_map_iff in H.
    destruct H as (v & <- & H). apply in_map_iff in H.
    destruct H as ([k' v'] & <- & H). simpl.
    apply In_delete_other in H. destruct H as (Hk & H).
    assert (D := distinct_entries _ (fun o => box_id (geometry o))
                   _ _ _ _ _ N2 H Hin Hk).
    apply in_in_remove; auto. apply HL. unfold boxIds.
    apply (in_map (fun o => box_id (geometry o))).
    apply (in_map snd) in H. exact H.
Qed.

Lemma housed_updateObstacle (id : string)
  (newPosition : option (Vector3 Q)) (newDimensions : option Dimensions)
  (st : Runtime * ObstacleManager) :
  Obstacle.wellFormed (snd st) -> housed st ->
  housed (updateObstacle id newPosition newDimensions st).
Proof.
  destruct st as [rt om]. intros W H. unfold updateObstacle.
  destruct (JSMap.get id (obstacles om)) as [o|] eqn:G; auto.
  destruct H as (B & N1 & N2 & HS & HL). destruct B as (B1 & B2).
  simpl in *.
  set (o1 := match newPosition with
             | Some p => mkMesh (mesh_id o) (mesh_name o) p (geometry o)
             | None => o
             end).
  assert (I1 : mesh_id o1 = mesh_id o) by now destruct newPosition.
  assert (I2 : geometry o1 = geometry o) by now destruct newPosition.
  destruct newDimensions as [dims|]; simpl.
  - unfold housed, bounded. simpl.
    assert (M : meshIds (JSMap.set id
                           (mkMesh (mesh_id o1) (mesh_name o1)
                              (mesh_position o1)
                              (mkBoxGeometry (nextGeometryId rt) dims))
                           (obstacles om))
                = meshIds (obstacles om)).
    { unfold meshIds. now apply (map_set_same _ _ mesh_id id _ o). }
    rewrite M.
    assert (F : ~ In (nextGeometryId rt) (boxIds (obstacles om))).
    { intros H. apply HL in H. apply B2 in H. lia. }
    split; [split|split; [|split; [|split]]]; auto.
    + intros x [<-|H]; [lia|]. apply in_remove in H.
      destruct H as (H & _). apply B2 in H. lia.
    + apply (NoDup_map_set _ (fun o => box_id (geometry o))); auto.
    + intros x H. unfold boxIds in H. apply in_map_iff in H.
      destruct H as (v & <- & H).
      apply In_set_other in H; [|apply W].
      destruct H as [->|(k' & Hk & H)]; simpl; [now left|].
      right. assert (Hin := get_Some_in _ _ G).
      assert (D := distinct_entries _ (fun o => box_id (geometry o))
                     _ _ _ _ _ N2 H Hin Hk).
      simpl in D. rewrite I2.
      apply in_in_remove; auto. apply HL. unfold boxIds.
      apply (in_map (fun o => box_id (geometry o))).
      apply (in_map snd) in H. exact H.
  - unfold housed, bounded. simpl.
    assert (M : meshIds (JSMap.set id o1 (obstacles om))
                = meshIds (obstacles om)).
    { unfold meshIds. now apply (map_set_same _ _ mesh_id id _ o). }
    assert (X : boxIds (JSMap.set id o1 (obstacles om))
                = boxIds (obstacles om)).
    { unfold boxIds.
      apply (map_set_same _ _ (fun o => box_id (geometry o)) id _ o);
        auto.
      now rewrite I2. }
    rewrite M, X. auto.
Qed.

(** X16: [updateObstacle] changes the position and the dimensions that
    are given, of the obstacle filed under the id, in place, and
    nothing else in the registry; the mesh stays the same child of the
    scene.  New dimensions dispose the former geometry and give the
    mesh a new one; without them no geometry is created or disposed. *)
Theorem updateObstacle_effect (id : string)
  (newPosition : option (Vector3 Q)) (newDimensions : option Dimensions)
  (rt : Runtime) (om : ObstacleManager) :
  Obstacle.wellFormed om ->
  let st' := updateObstacle id newPosition newDimensions (rt, om) in
  serializeObstacles (snd st')
  = map (fun r =>
           if String.eqb (obstacle_id r) id
           then mkObstacleData
                  (obstacle_id r)
                  (match newPosition with
                   | Some p => p
                   | None => obstacle_position r
                   end)
                  (match newDimensions with
                   | Some d => d
                   | None => dimensions r
                   end)
           else r)
        (serializeObstacles om)
  /\ sceneChildren (fst st') = sceneChildren rt
  /\ selectableObjects (snd st') = selectableObjects om
  /\ meshIds (obstacles (snd st')) = meshIds (obstacles om)
  /\ (newDimensions = None -> fst st' = rt)
  /\ (forall o : Mesh,
        getObstacleById id om = Some o ->
        newDimensions <> None ->
        bounded rt ->
        In (box_id (geometry o)) (liveGeometries rt) ->
        ~ In (box_id (geometry o)) (liveGeometries (fst st'))
        /\ exists o' : Mesh,
             getObstacleById id (snd st') = Some o'
             /\ In (box_id (geometry o')) (liveGeometries (fst st'))
             /\ ~ In (box_id (geometry o')) (liveGeometries rt)).
Proof.
  intros W. unfold getObstacleById, updateObstacle.
  destruct (JSMap.get id (obstacles om)) as [o|] eqn:G.
  - set (o1 := match newPosition with
               | Some p => mkMesh (mesh_id o) (mesh_name o) p (geometry o)
               | None => o
               end).
    assert (I1 : mesh_id o1 = mesh_id o) by now destruct newPosition.
    assert (I2 : geometry o1 = geometry o) by now destruct newPosition.
    set (h := fun r : ObstacleData =>
                mkObstacleData
                  (obstacle_id r)
                  (match newPosition with
                   | Some p => p
                   | None => obstacle_position r
                   end)
                  (match newDimensions with
                   | Some d => d
                   | None => dimensions r
                   end)).
    set (rec := mkObstacleData id (mesh_position o)
                               (parameters (geometry o))).
    assert (GR : JSMap.get id (records om) = Some rec).
    { unfold records. now rewrite get_mapEntries, G. }
    assert (S : forall (rt' : Runtime) (o2 : Mesh),
               mkObstacleData id (mesh_position o2)
                              (parameters (geometry o2)) = h rec ->
               serializeObstacles
                 (mkObstacleManager (JSMap.set id o2 (obstacles om))
                                    (selectableObjects om) (attached om))
               = map (fun r => if String.eqb (obstacle_id r) id
                               then h r else r)
                     (serializeObstacles om)).
    { intros _ o2 E. rewrite !serializeObstacles_records.
      unfold records at 1. simpl. rewrite set_mapEntries, E.
      apply (values_set_present _ obstacle_id id h rec);
        [now apply keyed_records | exact GR]. }
    destruct newDimensions as [dims|]; simpl.
    + split.
      { apply (S rt). unfold h, rec. simpl. now destruct newPosition. }
      split; [reflexivity|]. split; [reflexivity|]. split.
      { unfold meshIds. now apply (map_set_same _ _ mesh_id id _ o). }
      split; [discriminate|].
      intros o0 [= <-] _ (_ & B) L. split.
      * intros [H|H]; [apply B in L; lia|].
        rewrite I2 in H. now apply remove_In in H.
      * eexists. split; [apply get_set_same|]. simpl.
        split; [now left|]. intros H. apply B in H. lia.
    + split.
      { apply (S rt). unfold h, rec. simpl. rewrite I2.
        now destruct newPosition. }
      split; [reflexivity|]. split; [reflexivity|]. split.
      { unfold meshIds. now apply (map_set_same _ _ mesh_id id _ o). }
      split; [reflexivity|].
      intros o0 _ H. now destruct H.
  - simpl. split.
    + rewrite serializeObstacles_records. symmetry.
      apply (map_untouched _ obstacle_id id); [apply keyed_records, W|].
      unfold records. rewrite keys_mapEntries.
      now apply get_None_not_in.
    + repeat split; auto; congruence.
Qed.

Lemma updateObstacle_effect_witness :
  sceneChildren
    (fst (updateObstacle "box" None (Some (mkDimensions 2 2 2)%Q) withBox))
  = sceneChildren (fst withBox).
Proof.
  refine (proj1 (proj2 (updateObstacle_effect "box" None
                          (Some (mkDimensions 2 2 2)%Q) (fst withBox)
                          (snd withBox) _))).
  apply (wellFormed_addObstacle box (Scene.initial, Obstacle.empty)).
  apply ObstacleFacts.wellFormed_empty.
Defined.

Lemma obstacleCall_invariant (c : ObstacleCall)
  (st : Runtime * ObstacleManager) :
  Obstacle.wellFormed (snd st) /\ housed st ->
  Obstacle.wellFormed (snd (obstacleCall c st))
  /\ housed (obstacleCall c st).
Proof.
  assert (Hadd : forall (data : list ObstacleData) st0,
             Obstacle.wellFormed (snd st0) /\ housed st0 ->
             Obstacle.wellFormed
               (snd (fold_left (fun acc d => addObstacle d acc) data st0))
             /\ housed (fold_left (fun acc d => addObstacle d acc)
                                  data st0)).
  { induction data as [|d data IH]; intros st0 (W & H); simpl; auto.
    apply IH. split; [now apply wellFormed_addObstacle
                     | now apply housed_addObstacle]. }
  assert (Hrem : forall (l : list Mesh) st0,
             Obstacle.wellFormed (snd st0) /\ housed st0 ->
             Obstacle.wellFormed
               (snd (fold_left
                       (fun acc obs => removeObstacle (mesh_name obs) acc)
                       l st0))
             /\ housed (fold_left
                          (fun acc obs =>
                             removeObstacle (mesh_name obs) acc)
                          l st0)).
  { induction l as [|d l IH]; intros st0 (W & H); simpl; auto.
    apply IH. split; [now apply wellFormed_removeObstacle
                     | now apply housed_removeObstacle]. }
  intros (W & H). destruct c; simpl.
  - split; [now apply wellFormed_addObstacle
           | now apply housed_addObstacle].
  - split; [now apply wellFormed_updateObstacle
           | now apply housed_updateObstacle].
  - split; [now apply wellFormed_removeObstacle
           | now apply housed_removeObstacle].
  - split; [exact W|]. destruct st as [rt om]. exact H.
  - unfold deserializeObstacles. apply Hadd. apply Hrem. now split.
Qed.

(** X17: whatever calls an obstacle manager has received since its
    creation, every mesh is filed under its name, no id is registered
    twice, no two obstacles share a mesh or a geometry, and every
    registered obstacle is a child of the scene, selectable and has a
    live geometry. *)
Theorem obstacle_calls_invariant (calls : list ObstacleCall)
  (rt : Runtime) :
  bounded rt ->
  let st :=
    fold_left (fun st c => obstacleCall c st) calls (rt, Obstacle.empty) in
  Obstacle.wellFormed (snd st) /\ housed st.
Proof.
  intros B.
  assert (I : Obstacle.wellFormed (snd (rt, Obstacle.empty))
              /\ housed (rt, Obstacle.empty)).
  { split; [apply ObstacleFacts.wellFormed_empty|].
    split; [exact B|]. simpl.
    split; [constructor|]. split; [constructor|].
    split; intros x []. }
  revert I. generalize (rt, Obstacle.empty) as st0.
  induction calls as [|c calls IH]; intros st0 I; simpl; auto.
  apply IH. now apply obstacleCall_invariant.
Qed.

Lemma obstacle_calls_invariant_witness :
  bounded Scene.initial
  /\ housed (fold_left (fun st c => obstacleCall c st)
               [AddObstacle box; AddObstacle box; RemoveObstacle "box"]
               (Scene.initial, Obstacle.empty)).
Proof.
  assert (B : bounded Scene.initial) by (split; intros x []).
  split; [exact B|].
  exact (proj2 (obstacle_calls_invariant
                  [AddObstacle box; AddObstacle box; RemoveObstacle "box"]
                  Scene.initial B)).
Defined.

End ObstacleCallFacts.

(* ------------------------------------------------------------------ *)
(** ** The world, the scene files and the panel *)

Module WorldFacts.
Import Three Grid Scene Sensor Obstacle World Beams Views Session Examples
  MoreExamples.
Import JSMapFacts LeakFacts.
Local Open Scope string_scope.
Local Open Scope list_scope.
Local Open Scope nat_scope.

Lemma initWorld_manager (dims : WorldDimensions)
  (st : Runtime * WorldManager) :
  snd (initWorld dims st)
  = mkWorldManager
      (Some (mkFloorPlane
               (S (nextObjectId (fst st))) (nextGeometryId (fst st))
               (xMax dims - xMin dims)%Q (zMax dims - zMin dims)%Q
               (mkVector3 ((xMin dims + xMax dims) / 2)%Q (yMin dims)
                          ((zMin dims + zMax dims) / 2)%Q)))
      (Some (nextObjectId (fst st))) (Some dims).
Proof.
  destruct st as [rt wm]. unfold initWorld. simpl.
  destruct (gridHelper wm), (floorPlane wm); reflexivity.
Qed.

(** X18: [initWorld] stores the bounds and lays a floor of
    [xMax - xMin] by [zMax - zMin] at height [yMin] around the centre
    of the bounds.  The former grid and floor leave the scene and the
    former floor geometry is disposed; the new grid and floor are new
    children at the end, after the other children, which keep their
    order: a world never has two floors. *)
Theorem initWorld_replaces (dims : WorldDimensions) (rt : Runtime)
  (wm : WorldManager) :
  bounded rt ->
  let st' := initWorld dims (rt, wm) in
  getWorldDimensions (snd st') = Some dims
  /\ (exists f : FloorPlane,
         getFloorPlane (snd st') = Some f
         /\ floor_sizeX f = (xMax dims - xMin dims)%Q
         /\ floor_sizeZ f = (zMax dims - zMin dims)%Q
         /\ floor_position f
            = mkVector3 ((xMin dims + xMax dims) / 2)%Q (yMin dims)
                        ((zMin dims + zMax dims) / 2)%Q)
  /\ sceneChildren (fst st')
     = outside (worldObjects wm) (sceneChildren rt)
       ++ worldObjects (snd st')
  /\ liveGeometries (fst st')
     = worldGeometries (snd st')
       ++ outside (worldGeometries wm) (liveGeometries rt)
  /\ List.length (worldObjects (snd st')) = 2
  /\ (forall o : nat,
        In o (worldObjects (snd st')) -> ~ In o (sceneChildren rt))
  /\ (forall x : nat,
        In x (worldGeometries (snd st')) -> ~ In x (liveGeometries rt))
  /\ bounded (fst st').
Proof.
  intros (B1 & B2) st'.
  assert (M := initWorld_manager dims (rt, wm)). fold st' in M.
  change (fst (rt, wm)) with rt in M.
  set (rt1 := match gridHelper wm with
              | Some g => sceneRemove g rt
              | None => rt
              end).
  set (rt2 := match floorPlane wm with
              | Some f =>
                  dispose (floor_geometry f) (sceneRemove (floor_id f) rt1)
              | None => rt1
              end).
  assert (E : fst st'
              = sceneAdd (S (nextObjectId rt2))
                  (snd (newObject
                          (snd (newGeometry
                                  (sceneAdd (nextObjectId rt2)
                                     (snd (newObject rt2)))))))).
  { unfold st', initWorld. reflexivity. }
  rewrite M, E. clear M E. clearbody st'. clear st'.
  assert (S2 : sceneChildren rt2
               = outside (worldObjects wm) (sceneChildren rt)).
  { unfold rt2, rt1, worldObjects.
    destruct (gridHelper wm) as [g|], (floorPlane wm) as [f|]; simpl;
      rewrite ?remove_as_outside, ?outside_outside, ?outside_nil;
      reflexivity. }
  assert (L2 : liveGeometries rt2
               = outside (worldGeometries wm) (liveGeometries rt)).
  { unfold rt2, rt1, worldGeometries.
    destruct (gridHelper wm) as [g|], (floorPlane wm) as [f|]; simpl;
      rewrite ?remove_as_outside, ?outside_nil; reflexivity. }
  assert (C2 : nextObjectId rt2 = nextObjectId rt
               /\ nextGeometryId rt2 = nextGeometryId rt).
  { unfold rt2, rt1.
    destruct (gridHelper wm) as [g|], (floorPlane wm) as [f|]; simpl;
      auto. }
  destruct C2 as (C2 & C3).
  assert (I2 : forall o, In o (sceneChildren rt2) -> o < nextObjectId rt).
  { intros o H. rewrite S2 in H. apply In_outside in H. apply B1, H. }
  clearbody rt2. clear rt1.
  unfold getWorldDimensions, getFloorPlane, worldObjects at 2 3 4,
    worldGeometries at 1 3. simpl.
  split; [reflexivity|]. split; [eexists; repeat split|].
  rewrite C2, C3, L2.
  assert (N1 : ~ In (nextObjectId rt) (sceneChildren rt2)).
  { intros H. apply I2 in H. lia. }
  assert (N2 : ~ In (S (nextObjectId rt)) (sceneChildren rt2)).
  { intros H. apply I2 in H. lia. }
  split.
  { rewrite (remove_absent (nextObjectId rt) _ N1), remove_app,
      (remove_absent (S (nextObjectId rt)) _ N2).
    rewrite (remove_absent (S (nextObjectId rt)) [nextObjectId rt])
      by (intros [X|[]]; lia).
    now rewrite S2, <- app_assoc. }
  split; [reflexivity|]. split; [reflexivity|]. split.
  { intros o [<-|[<-|[]]] H; apply B1 in H; lia. }
  split.
  { intros x [<-|[]] H. apply B2 in H. lia. }
  split; simpl.
  - intros o H. apply in_app_or in H. destruct H as [H|[<-|[]]]; [|lia].
    apply in_remove in H. destruct H as (H & _).
    apply in_app_or in H. destruct H as [H|[<-|[]]]; [|lia].
    apply in_remove in H. destruct H as (H & _). apply I2 in H. lia.
  - intros x [<-|H]; [lia|]. apply In_outside in H.
    destruct H as (H & _). apply B2 in H. lia.
Qed.

Lemma initWorld_replaces_witness :
  bounded (fst withFloor)
  /\ getWorldDimensions (snd (initWorld bounds (fst withFloor,
                                                snd withFloor)))
     = Some bounds.
Proof.
  assert (B : bounded (fst withFloor)).
  { split; simpl; intros x H; repeat destruct H as [<-|H]; try lia;
      destruct H. }
  split; [exact B|].
  exact (proj1 (initWorld_replaces bounds (fst withFloor) (snd withFloor)
                  B)).
Defined.

End WorldFacts.

(* ------------------------------------------------------------------ *)
(** ** Scene files and the handlers of the panel *)

Module SessionFacts.
Import Three Grid Scene Sensor Obstacle World Beams Views Session Examples
  MoreExamples.
Import JSMapFacts ObstacleFacts SensorFacts BeamFacts EvaluationFacts
  LeakFacts SensorCallFacts ObstacleCallFacts WorldFacts.
Local Open Scope string_scope.
Local Open Scope list_scope.

(** Leaving out the sensors without a definition keeps the ids apart. *)
Lemma NoDup_resolvable (sm : SensorManager)
  (data : list PlacedSensorData) :
  NoDup (map sensor_id data) ->
  NoDup (map sensor_id (filter (resolvable sm) data)).
Proof.
  intros N. induction data as [|d data IH]; simpl; [constructor|].
  inversion N as [|? ? Hd N']; subst.
  destruct (resolvable sm d); simpl; auto.
  constructor; auto. intros H. apply Hd.
  apply in_map_iff in H. destruct H as (x & E & H).
  apply filter_In in H. rewrite <- E. apply in_map. tauto.
Qed.

Lemma loadScene_parts (sceneData : SceneData) (app : App) :
  let st1 := deserializeObstacles [] (app_runtime app, app_obstacles app) in
  let st2 := deserializeSensors [] (fst st1, app_sensors app) in
  let st3 :=
    match sd_world sceneData with
    | Some w => initWorld w (fst st2, app_world app)
    | None => (fst st2, app_world app)
    end in
  let st4 :=
    deserializeObstacles (orEmpty (sd_obstacles sceneData))
                         (fst st3, snd st1) in
  let st5 :=
    deserializeSensors (orEmpty (sd_sensors sceneData))
                       (fst st4, snd st2) in
  loadScene sceneData app
  = mkApp (fst st5) (snd st3) (snd st5) (snd st4) (app_beams app).
Proof.
  unfold loadScene.
  destruct (deserializeObstacles [] _) as [rt1 om1]. cbn [fst snd].
  destruct (deserializeSensors [] _) as [rt2 sm1]. cbn [fst snd].
  destruct (match sd_world sceneData with
            | Some w => initWorld w (rt2, app_world app)
            | None => (rt2, app_world app)
            end) as [rt3 wm1]. cbn [fst snd].
  destruct (deserializeObstacles (orEmpty _) _) as [rt4 om2].
  cbn [fst snd].
  destruct (deserializeSensors (orEmpty _) _) as [rt5 sm2]. reflexivity.
Qed.

(** X19: saving right after loading a scene file gives the content of
    the file back, with these differences: a list that the file lacks
    is empty, the sensors whose definition is not in the catalog are
    left out, and a file without a world keeps the bounds of the
    current world.  Loading leaves the beams alone. *)
Theorem load_then_save (sceneData : SceneData) (app : App) :
  Obstacle.wellFormed (app_obstacles app) ->
  Sensor.wellFormed (app_sensors app) ->
  NoDup (map obstacle_id (orEmpty (sd_obstacles sceneData))) ->
  NoDup (map sensor_id (orEmpty (sd_sensors sceneData))) ->
  saveScene (loadScene sceneData app)
  = mkSceneData
      (match sd_world sceneData with
       | Some w => Some w
       | None => getWorldDimensions (app_world app)
       end)
      (Some (orEmpty (sd_obstacles sceneData)))
      (Some (filter (resolvable (app_sensors app))
                    (orEmpty (sd_sensors sceneData))))
  /\ app_beams (loadScene sceneData app) = app_beams app
  /\ getSensorDefinitions (app_sensors (loadScene sceneData app))
     = getSensorDefinitions (app_sensors app).
Proof.
  intros WO WS NO NS. rewrite loadScene_parts.
  set (st1 := deserializeObstacles [] _).
  set (st2 := deserializeSensors [] _).
  set (st3 := match sd_world sceneData with
              | Some w => initWorld w (fst st2, app_world app)
              | None => (fst st2, app_world app)
              end).
  set (st4 := deserializeObstacles (orEmpty _) _).
  set (st5 := deserializeSensors (orEmpty _) _).
  assert (W1 : Obstacle.wellFormed (snd st1))
    by now apply wellFormed_deserializeObstacles.
  assert (W2 : Sensor.wellFormed (snd st2))
    by now apply wellFormed_deserializeSensors.
  destruct (deserializeSensors_effect [] (fst st1, app_sensors app) WS)
    as (D2 & _). fold st2 in D2. simpl in D2.
  assert (R4 := deserializeObstacles_records
                  (orEmpty (sd_obstacles sceneData)) (fst st3, snd st1) W1).
  fold st4 in R4.
  destruct (deserializeSensors_effect (orEmpty (sd_sensors sceneData))
              (fst st4, snd st2) W2) as (D5 & R5 & _).
  fold st5 in D5, R5. simpl in D5, R5.
  assert (RE : forall d, resolvable (snd st2) d
                         = resolvable (app_sensors app) d)
    by (intros d; now apply resolvable_definitions).
  rewrite (filter_ext _ _ RE) in R5.
  unfold saveScene. simpl. split; [|split; [reflexivity|]].
  - f_equal.
    + unfold st3. destruct (sd_world sceneData) as [w|]; [|reflexivity].
      now rewrite initWorld_manager.
    + f_equal. rewrite serializeObstacles_records, R4.
      now apply ofList_NoDup.
    + f_equal. unfold serializeSensors. rewrite R5.
      apply ofList_NoDup. now apply NoDup_resolvable.
  - unfold getSensorDefinitions. now rewrite D5, D2.
Qed.

Lemma load_then_save_witness :
  saveScene
    (loadScene (mkSceneData None (Some [box]) None) desk)
  = mkSceneData (Some bounds) (Some [box]) (Some []).
Proof.
  refine (proj1 (load_then_save (mkSceneData None (Some [box]) None)
                   desk _ _ _ _)).
  - apply (wellFormed_addObstacle box (Scene.initial, Obstacle.empty)).
    apply ObstacleFacts.wellFormed_empty.
  - apply (wellFormed_addSensor s1 (fst withFloor, catalog)).
    apply wellFormed_catalog.
  - repeat constructor. intros [].
  - constructor.
Defined.

Lemma values_delete_keyed (V : Type) (key : V -> string) (k : string)
  (m : JSMap.t V) :
  JSMap.keyed key m ->
  JSMap.values (JSMap.delete k m)
  = filter (fun v => negb (String.eqb k (key v))) (JSMap.values m).
Proof.
  intros (_ & K). unfold JSMap.delete, JSMap.values.
  induction m as [|[k0 v0] m IH]; simpl; auto.
  rewrite (K k0 v0) by now left.
  destruct (String.eqb k k0); simpl;
    rewrite IH by (intros k1 v1 H1; apply K; now right); reflexivity.
Qed.

Lemma setSensorVisibility_values (id : string) (v : bool)
  (sm : SensorManager) :
  Sensor.wellFormed sm ->
  getAllPlacedSensorData (setSensorVisibility id v sm)
  = map (fun s =>
           if String.eqb (sensor_id s) id
           then mkPlacedSensorData (sensor_id s) (definitionId s)
                                   (position s) (rotation s) v
           else s)
        (getAllPlacedSensorData sm).
Proof.
  intros W. unfold getAllPlacedSensorData, setSensorVisibility.
  destruct (JSMap.get id (placedSensors sm)) as [g|] eqn:G.
  - destruct (JSMap.get id (placedSensorData sm)) as [d|] eqn:D.
    + simpl.
      apply (values_set_present _ sensor_id id
               (fun s => mkPlacedSensorData (sensor_id s)
                           (definitionId s) (position s) (rotation s) v)
               d _ (proj1 W) D).
    + apply (proj2 (present_both sm id W)) in D. congruence.
  - symmetry. apply (map_untouched _ sensor_id id); [apply W|].
    apply get_None_not_in. now apply (proj1 (present_both sm id W)).
Qed.

Section Handlers.
Variable raycast : Vector3 Q -> Vector3 R -> Collidable -> list Q.

Lemma frame_parts (app : App) :
  frame raycast app
  = mkApp (fst (updateBeams raycast (registries app)
                  (app_runtime app, app_beams app)))
          (app_world app) (app_sensors app) (app_obstacles app)
          (snd (updateBeams raycast (registries app)
                  (app_runtime app, app_beams app))).
Proof. unfold frame. now destruct (updateBeams _ _ _). Qed.

(** What the beams are after a frame, when the sensor manager is in
    order. *)
Lemma frame_shows (app : App) :
  Sensor.wellFormed (app_sensors app) ->
  allResolvable (app_sensors app) ->
  visuals (app_beams (frame raycast app))
  = renewals (map (sensorTouch raycast (registries app))
                  (getAllPlacedSensorData (app_sensors app))).
Proof.
  intros W A. rewrite frame_parts. simpl.
  rewrite updateBeams_from_nothing
    by (now apply consistent_registries).
  apply run_nil_renewals. now apply NoDup_sensor_ids.
Qed.

Lemma frame_keys (app : App) :
  Sensor.wellFormed (app_sensors app) ->
  allResolvable (app_sensors app) ->
  JSMap.keys (beamMeshes (app_beams (frame raycast app)))
  = map sensor_id
        (filter visible (getAllPlacedSensorData (app_sensors app))).
Proof.
  intros W A. rewrite <- keys_visuals, frame_shows by assumption.
  apply keys_renewals. intros s Hs.
  now apply (consistent_registries (registries app) W A).
Qed.

Lemma frame_groups (app : App) (k : string) (g : BeamGroup) :
  Sensor.wellFormed (app_sensors app) ->
  allResolvable (app_sensors app) ->
  In (k, g) (beamMeshes (app_beams (frame raycast app))) ->
  beams_name g = ("beams_" ++ k)%string /\ beams_visible g = true.
Proof.
  intros W A H.
  assert (H' : In (k, groupShape g)
                  (visuals (app_beams (frame raycast app)))).
  { unfold visuals, JSMap.mapValues.
    apply (in_map (fun e : string * BeamGroup =>
                     (fst e, groupShape (snd e))) _ _ H). }
  rewrite frame_shows in H' by assumption.
  apply In_renewals in H'. exact H'.
Qed.

(** After a frame a sensor has beams exactly when it is visible. *)
Lemma frame_lookup (app : App) (s : PlacedSensorData) :
  Sensor.wellFormed (app_sensors app) ->
  allResolvable (app_sensors app) ->
  In s (getAllPlacedSensorData (app_sensors app)) ->
  if visible s
  then exists g : BeamGroup,
         JSMap.get (sensor_id s)
                   (beamMeshes (app_beams (frame raycast app)))
         = Some g
         /\ beams_name g = ("beams_" ++ sensor_id s)%string
         /\ beams_visible g = true
  else JSMap.get (sensor_id s)
                 (beamMeshes (app_beams (frame raycast app)))
       = None.
Proof.
  intros W A Hs. assert (K := frame_keys app W A).
  destruct (visible s) eqn:V.
  - destruct (JSMap.get (sensor_id s)
                (beamMeshes (app_beams (frame raycast app))))
      as [g|] eqn:G.
    + exists g. split; [reflexivity|].
      apply (frame_groups app _ _ W A). now apply get_Some_in.
    + exfalso. apply get_None_not_in in G. apply G. rewrite K.
      apply in_map. apply filter_In. now split.
  - apply get_None_not_in. rewrite K. intros H.
    apply in_map_iff in H. destruct H as (s' & E & H).
    apply filter_In in H. destruct H as (H & V').
    assert (s' = s); [|congruence].
    now apply (NoDup_map_same _ _ sensor_id
                 (getAllPlacedSensorData (app_sensors app)) s' s
                 (NoDup_sensor_ids _ W)).
Qed.

Lemma removeSensor_data (id : string) (st : Runtime * SensorManager) :
  Sensor.wellFormed (snd st) ->
  placedSensorData (snd (removeSensor id st))
  = JSMap.delete id (placedSensorData (snd st))
  /\ sensorDefinitions (snd (removeSensor id st))
     = sensorDefinitions (snd st).
Proof.
  intros W.
  destruct (JSMap.get id (placedSensors (snd st))) as [g|] eqn:G.
  - destruct (@removeSensor_present _ _ _ G) as (A1 & _ & A3). now split.
  - rewrite (@removeSensor_absent _ _ G). split; [|reflexivity].
    symmetry. apply delete_absent.
    now apply (proj1 (present_both (snd st) id W)).
Qed.

(** X20: the handler that adds a sensor changes nothing when the
    selected type is not in the catalog, when the id is empty or
    when the id is in use.  Otherwise the new sensor, visible, comes
    last in the list of sensors, and when the handler returns the
    beams are those of the visible sensors, the new one among them. *)
Theorem addSensorClicked_effect (selectedType id : string)
  (p : Vector3 Q) (r : Rotation) (app : App) :
  Sensor.wellFormed (app_sensors app) ->
  allResolvable (app_sensors app) ->
  let app' := addSensorClicked raycast selectedType id p r app in
  let data := mkPlacedSensorData id selectedType p r true in
  (getSensorDefinitionById selectedType (app_sensors app) = None
   \/ id = ""
   \/ getPlacedSensorById id (app_sensors app) <> None ->
   app' = app)
  /\ (getSensorDefinitionById selectedType (app_sensors app) <> None ->
      id <> "" ->
      getPlacedSensorById id (app_sensors app) = None ->
      serializeSensors (app_sensors app')
      = serializeSensors (app_sensors app) ++ [data]
      /\ JSMap.keys (beamMeshes (app_beams app'))
         = map sensor_id
               (filter visible (serializeSensors (app_sensors app')))
      /\ exists g : BeamGroup,
           JSMap.get id (beamMeshes (app_beams app')) = Some g
           /\ beams_name g = ("beams_" ++ id)%string
           /\ beams_visible g = true).
Proof.
  intros W A app' data. unfold app', addSensorClicked. split.
  - intros H.
    destruct (getSensorDefinitionById selectedType (app_sensors app));
      [|reflexivity].
    destruct H as [H|[H|H]]; [discriminate| |].
    + subst id. reflexivity.
    + destruct (getPlacedSensorById id (app_sensors app));
        [|congruence].
      simpl. now rewrite orb_true_r.
  - intros HD HI HG.
    destruct (getSensorDefinitionById selectedType (app_sensors app))
      as [def|] eqn:D; [|congruence].
    apply String.eqb_neq in HI. rewrite HI, HG. cbn [orb isSome].
    fold data.
    assert (R : resolvable (snd (app_runtime app, app_sensors app)) data
                = true).
    { unfold resolvable, data. cbn [snd definitionId]. now rewrite D. }
    destruct (addSensor_resolvable data
                (app_runtime app, app_sensors app) R) as (_ & A2 & _).
    assert (W1 := wellFormed_addSensor data
                    (app_runtime app, app_sensors app) W).
    assert (A1 := allResolvable_addSensor data
                    (app_runtime app, app_sensors app) A).
    destruct (addSensor data (app_runtime app, app_sensors app))
      as [rt1 sm1].
    cbn [fst snd] in A2, W1, A1.
    set (app1 := mkApp rt1 (app_world app) sm1 (app_obstacles app)
                       (app_beams app)).
    assert (S1 : app_sensors (frame raycast app1) = sm1)
      by now rewrite frame_parts.
    assert (V : serializeSensors sm1
                = serializeSensors (app_sensors app) ++ [data]).
    { unfold serializeSensors. rewrite A2, set_absent.
      - unfold JSMap.values. now rewrite map_app.
      - now apply (proj1 (present_both (app_sensors app) id W)). }
    rewrite S1. split; [exact V|]. split.
    + apply (frame_keys app1 W1 A1).
    + assert (L := frame_lookup app1 data W1 A1). simpl in L.
      apply L. unfold getAllPlacedSensorData.
      unfold serializeSensors in V. rewrite V.
      apply in_or_app. right. now left.
Qed.

(** X21: the show/hide handler flips the flag of the sensor, in place,
    and changes no other sensor.  When it returns, the beams are
    those of the visible sensors: a sensor that has been hidden has
    no beams left, and one that has been shown has a beam group,
    which is visible.  The flag that the handler passes to
    [setBeamVisibility] makes no difference to what the beams hold
    afterwards. *)
Theorem toggleSensorClicked_effect (id : string) (app : App)
  (d : PlacedSensorData) :
  Sensor.wellFormed (app_sensors app) ->
  allResolvable (app_sensors app) ->
  getPlacedSensorDataById id (app_sensors app) = Some d ->
  let app' := toggleSensorClicked raycast id app in
  let shown :=
    frame raycast
          (mkApp (app_runtime app) (app_world app) (app_sensors app')
                 (app_obstacles app) (app_beams app)) in
  serializeSensors (app_sensors app')
  = map (fun s =>
           if String.eqb (sensor_id s) id
           then mkPlacedSensorData (sensor_id s) (definitionId s)
                                   (position s) (rotation s)
                                   (negb (visible s))
           else s)
        (serializeSensors (app_sensors app))
  /\ JSMap.keys (beamMeshes (app_beams app'))
     = map sensor_id
           (filter visible (serializeSensors (app_sensors app')))
  /\ (visible d = true ->
      JSMap.get id (beamMeshes (app_beams app')) = None)
  /\ (visible d = false ->
      exists g : BeamGroup,
        JSMap.get id (beamMeshes (app_beams app')) = Some g
        /\ beams_name g = ("beams_" ++ id)%string
        /\ beams_visible g = true)
  /\ visuals (app_beams app') = visuals (app_beams shown).
Proof.
  intros W A D app' shown.
  assert (I : sensor_id d = id).
  { apply (proj2 (proj1 W)). now apply get_Some_in. }
  unfold getPlacedSensorDataById in D.
  destruct (JSMap.get id (placedSensors (app_sensors app)))
    as [g0|] eqn:G;
    [|apply (proj1 (present_both _ id W)) in G; congruence].
  set (sm1 := setSensorVisibility id (negb (visible d))
                                  (app_sensors app)).
  assert (W1 : Sensor.wellFormed sm1)
    by now apply wellFormed_setSensorVisibility.
  assert (A1 : allResolvable sm1)
    by now apply allResolvable_setSensorVisibility.
  set (d1 := mkPlacedSensorData (sensor_id d) (definitionId d)
                                (position d) (rotation d)
                                (negb (visible d))).
  assert (D1 : JSMap.get id (placedSensorData sm1) = Some d1).
  { unfold sm1, setSensorVisibility. rewrite G, D. simpl.
    apply get_set_same. }
  set (bm1 := setBeamVisibility id (negb (visible d1)) (app_beams app)).
  set (app1 := mkApp (app_runtime app) (app_world app) sm1
                     (app_obstacles app) bm1).
  assert (E : app' = frame raycast app1).
  { unfold app', toggleSensorClicked, getPlacedSensorDataById.
    rewrite D, I. fold sm1. now rewrite D1. }
  assert (S1 : app_sensors app' = sm1)
    by now rewrite E, frame_parts.
  assert (V : serializeSensors sm1
              = map (fun s =>
                       if String.eqb (sensor_id s) id
                       then mkPlacedSensorData
                              (sensor_id s) (definitionId s)
                              (position s) (rotation s)
                              (negb (visible s))
                       else s)
                    (serializeSensors (app_sensors app))).
  { change (serializeSensors sm1) with (getAllPlacedSensorData sm1).
    unfold sm1.
    rewrite (setSensorVisibility_values id (negb (visible d))
               (app_sensors app) W).
    change (serializeSensors (app_sensors app))
      with (getAllPlacedSensorData (app_sensors app)).
    apply map_ext_in. intros s Hs.
    destruct (String.eqb (sensor_id s) id) eqn:X; auto.
    apply String.eqb_eq in X.
    assert (s = d); [|now subst].
    apply get_Some_in in D. apply (in_map snd) in D.
    apply (NoDup_map_same _ _ sensor_id
             (getAllPlacedSensorData (app_sensors app)) s d
             (NoDup_sensor_ids _ W) Hs D). congruence. }
  assert (L := frame_lookup app1 d1 W1 A1).
  assert (H1 : In d1 (getAllPlacedSensorData (app_sensors app1))).
  { apply get_Some_in in D1. apply (in_map snd) in D1. exact D1. }
  specialize (L H1). simpl in L. rewrite I in L.
  unfold shown. rewrite S1. rewrite E.
  split; [exact V|]. split; [apply (frame_keys app1 W1 A1)|].
  split; [|split].
  - intros X. now rewrite X in L.
  - intros X. now rewrite X in L.
  - rewrite !frame_shows by assumption. reflexivity.
Qed.

(** X22: the handler that deletes a sensor takes it out of the list of
    sensors and leaves the others in place; when it returns, the
    sensor has no beams left and the beams are those of the visible
    sensors that remain. *)
Theorem deleteSensorConfirmed_effect (id : string) (app : App) :
  Sensor.wellFormed (app_sensors app) ->
  allResolvable (app_sensors app) ->
  let app' := deleteSensorConfirmed raycast id app in
  getPlacedSensorDataById id (app_sensors app') = None
  /\ serializeSensors (app_sensors app')
     = filter (fun s => negb (String.eqb id (sensor_id s)))
              (serializeSensors (app_sensors app))
  /\ JSMap.get id (beamMeshes (app_beams app')) = None
  /\ JSMap.keys (beamMeshes (app_beams app'))
     = map sensor_id
           (filter visible (serializeSensors (app_sensors app'))).
Proof.
  intros W A app'. unfold app', deleteSensorConfirmed.
  destruct (removeSensor_data id (app_runtime app, app_sensors app) W)
    as (R & _).
  assert (W1 := wellFormed_removeSensor id
                  (app_runtime app, app_sensors app) W).
  assert (A1 := allResolvable_removeSensor id
                  (app_runtime app, app_sensors app) A).
  destruct (removeSensor id (app_runtime app, app_sensors app))
    as [rt1 sm1].
  cbn [fst snd] in R, W1, A1.
  set (app1 := mkApp rt1 (app_world app) sm1 (app_obstacles app)
                     (app_beams app)).
  assert (S1 : app_sensors (frame raycast app1) = sm1)
    by now rewrite frame_parts.
  assert (K := frame_keys app1 W1 A1). simpl in K.
  rewrite S1. unfold getPlacedSensorDataById, serializeSensors.
  rewrite R. split; [apply get_delete_same|]. split.
  { apply (values_delete_keyed _ sensor_id). apply W. }
  split; [|rewrite <- R; exact K].
  apply get_None_not_in. rewrite K. intros H.
  apply in_map_iff in H. destruct H as (s & E & H).
  apply filter_In in H. destruct H as (H & _).
  unfold getAllPlacedSensorData in H. rewrite R in H.
  rewrite (values_delete_keyed _ sensor_id id _ (proj1 W)) in H.
  apply filter_In in H. destruct H as (_ & H).
  rewrite E, String.eqb_refl in H. discriminate H.
Qed.

(** X23: the handler that adds an obstacle changes nothing when the id
    is empty or in use, so that it never replaces an obstacle.
    Otherwise the new obstacle comes last in the list of obstacles
    and is among the objects that rays can hit; the sensors and the
    beams stay as they were until the next frame. *)
Theorem addObstacleClicked_effect (data : ObstacleData) (app : App) :
  let app' := addObstacleClicked data app in
  (obstacle_id data = ""
   \/ getObstacleById (obstacle_id data) (app_obstacles app) <> None ->
   app' = app)
  /\ (obstacle_id data <> "" ->
      getObstacleById (obstacle_id data) (app_obstacles app) = None ->
      serializeObstacles (app_obstacles app')
      = serializeObstacles (app_obstacles app) ++ [data]
      /\ (exists o : Mesh,
             getObstacleById (obstacle_id data) (app_obstacles app')
             = Some o
             /\ In (ObstacleMesh o) (collidableObjects (registries app')))
      /\ app_sensors app' = app_sensors app
      /\ app_beams app' = app_beams app).
Proof.
  intros app'. unfold app', addObstacleClicked. split.
  - intros [H|H].
    + rewrite H. reflexivity.
    + destruct (getObstacleById (obstacle_id data) (app_obstacles app));
        [|congruence].
      cbn [isSome]. now rewrite orb_true_r.
  - intros HI HG. apply String.eqb_neq in HI. rewrite HI, HG.
    cbn [orb isSome].
    assert (R := addObstacle_records data
                   (app_runtime app, app_obstacles app)).
    destruct (addObstacle_obstacles data
                (app_runtime app, app_obstacles app))
      as (o & E & _).
    destruct (addObstacle data (app_runtime app, app_obstacles app))
      as [rt1 om1].
    cbn [fst snd app_obstacles app_sensors app_beams] in *.
    split; [|split; [|split; reflexivity]].
    + rewrite !serializeObstacles_records, R, set_absent.
      * unfold JSMap.values. now rewrite map_app.
      * unfold records. rewrite get_mapEntries.
        unfold getObstacleById in HG. now rewrite HG.
    + exists o. unfold getObstacleById. rewrite E.
      split; [apply get_set_same|].
      unfold collidableObjects, registries.
      cbn [obstacleManager app_obstacles].
      apply in_or_app. left. apply in_map.
      unfold getAllObstacles. rewrite E.
      assert (G := get_set_same (obstacle_id data) o
                     (obstacles (app_obstacles app))).
      apply get_Some_in in G. apply (in_map snd) in G. exact G.
Qed.

Lemma frame_registries (app : App) :
  app_obstacles (frame raycast app) = app_obstacles app
  /\ app_sensors (frame raycast app) = app_sensors app
  /\ app_world (frame raycast app) = app_world app.
Proof. now rewrite frame_parts. Qed.

(** What every event keeps. *)
Lemma handle_invariant (pg : Page) (e : Event) :
  Obstacle.wellFormed (app_obstacles (page_app pg))
  /\ Sensor.wellFormed (app_sensors (page_app pg))
  /\ allResolvable (app_sensors (page_app pg))
  /\ getFloorPlane (app_world (page_app pg)) <> None ->
  Obstacle.wellFormed (app_obstacles (page_app (handle raycast pg e)))
  /\ Sensor.wellFormed (app_sensors (page_app (handle raycast pg e)))
  /\ allResolvable (app_sensors (page_app (handle raycast pg e)))
  /\ getFloorPlane (app_world (page_app (handle raycast pg e))) <> None.
Proof.
  intros (WO & WS & A & F). set (app := page_app pg) in *.
  destruct e as [defs|b val| |data|oid|t sid p r|tid|did|sceneData|];
    cbn [handle onApp page_app]; fold app.
  - cbn [app_obstacles app_sensors app_world].
    split; [exact WO|]. split; [|split; [|exact F]].
    + destruct WS as (K & S). now split.
    + now apply allResolvable_loadSensorDefinitions.
  - unfold worldInputChanged. cbn [page_app]. fold app.
    destruct (shared pg); [|tauto].
    cbn [app_obstacles app_sensors app_world]. tauto.
  - unfold updateWorldClicked.
    assert (M := initWorld_manager (panel_dims pg)
                   (app_runtime app, app_world app)).
    destruct (initWorld (panel_dims pg) _) as [rt1 wm1].
    cbn [snd] in M. rewrite M.
    cbn [app_obstacles app_sensors app_world].
    split; [exact WO|]. split; [exact WS|]. split; [exact A|].
    discriminate.
  - unfold addObstacleClicked.
    destruct (_ || _); [tauto|].
    assert (W1 := wellFormed_addObstacle data
                    (app_runtime app, app_obstacles app) WO).
    destruct (addObstacle data _) as [rt1 om1]. tauto.
  - unfold deleteObstacleConfirmed.
    assert (W1 := wellFormed_removeObstacle oid
                    (app_runtime app, app_obstacles app) WO).
    destruct (removeObstacle oid _) as [rt1 om1]. tauto.
  - unfold addSensorClicked.
    destruct (getSensorDefinitionById t (app_sensors app));
      [|tauto].
    destruct (_ || _); [tauto|].
    assert (W1 := wellFormed_addSensor
                    (mkPlacedSensorData sid t p r true)
                    (app_runtime app, app_sensors app) WS).
    assert (A1 := allResolvable_addSensor
                    (mkPlacedSensorData sid t p r true)
                    (app_runtime app, app_sensors app) A).
    destruct (addSensor _ _) as [rt1 sm1].
    rewrite frame_parts. tauto.
  - unfold toggleSensorClicked.
    destruct (getPlacedSensorDataById tid (app_sensors app)) as [d|];
      [|tauto].
    rewrite frame_parts. cbn [app_obstacles app_sensors app_world].
    split; [exact WO|]. split; [|split; [|exact F]].
    + now apply wellFormed_setSensorVisibility.
    + now apply allResolvable_setSensorVisibility.
  - unfold deleteSensorConfirmed.
    assert (W1 := wellFormed_removeSensor did
                    (app_runtime app, app_sensors app) WS).
    assert (A1 := allResolvable_removeSensor did
                    (app_runtime app, app_sensors app) A).
    destruct (removeSensor did _) as [rt1 sm1].
    rewrite frame_parts. tauto.
  - rewrite loadScene_parts.
    cbn [app_obstacles app_sensors app_world].
    set (st1 := deserializeObstacles [] _).
    set (st2 := deserializeSensors [] _).
    assert (W1 : Obstacle.wellFormed (snd st1))
      by now apply wellFormed_deserializeObstacles.
    assert (W2 : Sensor.wellFormed (snd st2))
      by now apply wellFormed_deserializeSensors.
    split; [now apply wellFormed_deserializeObstacles|].
    split; [now apply wellFormed_deserializeSensors|].
    split; [now apply allResolvable_deserializeSensors|].
    destruct (sd_world sceneData) as [w|]; [|exact F].
    rewrite initWorld_manager. discriminate.
  - rewrite frame_parts. tauto.
Qed.

Lemma start_parts :
  app_world (page_app start)
  = snd (initWorld (mkWorldDimensions 0 30 0 5 0 30)
                   (Scene.initial, World.empty))
  /\ app_sensors (page_app start) = Sensor.empty
  /\ app_obstacles (page_app start) = Obstacle.empty
  /\ shared start = false.
Proof.
  unfold start. destruct (initWorld _ _) as [rt wm]. auto.
Qed.

Lemma run_invariant (events : list Event) (pg : Page) :
  Obstacle.wellFormed (app_obstacles (page_app pg))
  /\ Sensor.wellFormed (app_sensors (page_app pg))
  /\ allResolvable (app_sensors (page_app pg))
  /\ getFloorPlane (app_world (page_app pg)) <> None ->
  let pg' := fold_left (handle raycast) events pg in
  Obstacle.wellFormed (app_obstacles (page_app pg'))
  /\ Sensor.wellFormed (app_sensors (page_app pg'))
  /\ allResolvable (app_sensors (page_app pg'))
  /\ getFloorPlane (app_world (page_app pg')) <> None.
Proof.
  revert pg. induction events as [|e events IH]; intros pg I; simpl;
    auto.
  apply IH. now apply handle_invariant.
Qed.

(** X24: whatever has happened to the page since [init] (definitions
    loaded, bounds typed, the world updated, obstacles and sensors
    added, hidden, shown and deleted from the panel, scene files
    loaded, frames drawn), both registries are in order, every
    placed sensor has its definition in the catalog, and the world
    has a floor.  So the next frame leaves exactly one beam group
    for every visible sensor, in the order of the sensors, each of
    them visible, and none for any other id. *)
Theorem session_invariant (events : list Event) :
  let app := page_app (replay raycast events) in
  Obstacle.wellFormed (app_obstacles app)
  /\ Sensor.wellFormed (app_sensors app)
  /\ allResolvable (app_sensors app)
  /\ getFloorPlane (app_world app) <> None
  /\ JSMap.keys (beamMeshes (app_beams (frame raycast app)))
     = map sensor_id
           (filter visible (getAllPlacedSensorData (app_sensors app)))
  /\ (forall (k : string) (g : BeamGroup),
         In (k, g) (beamMeshes (app_beams (frame raycast app))) ->
         beams_name g = ("beams_" ++ k)%string
         /\ beams_visible g = true).
Proof.
  intros app.
  assert (I : Obstacle.wellFormed (app_obstacles app)
              /\ Sensor.wellFormed (app_sensors app)
              /\ allResolvable (app_sensors app)
              /\ getFloorPlane (app_world app) <> None).
  { unfold app, replay. apply run_invariant.
    destruct start_parts as (E1 & E2 & E3 & _).
    rewrite E1, E2, E3, initWorld_manager.
    split; [apply ObstacleFacts.wellFormed_empty|].
    split; [apply (wellFormed_catalog [])|].
    split; [intros d []|discriminate]. }
  destruct I as (WO & WS & A & F).
  split; [exact WO|]. split; [exact WS|]. split; [exact A|].
  split; [exact F|]. split; [now apply frame_keys|].
  intros k g H. now apply (frame_groups app k g WS A).
Qed.

(** The bounds of the world, the floor and the panel. *)
Lemma handle_bounds (pg : Page) (e : Event) :
  (if shared pg
   then getWorldDimensions (app_world (page_app pg))
        = Some (panel_dims pg)
   else exists f d,
          getFloorPlane (app_world (page_app pg)) = Some f
          /\ getWorldDimensions (app_world (page_app pg)) = Some d
          /\ laidOut f d) ->
  let pg' := handle raycast pg e in
  if shared pg'
  then getWorldDimensions (app_world (page_app pg'))
       = Some (panel_dims pg')
  else exists f d,
         getFloorPlane (app_world (page_app pg')) = Some f
         /\ getWorldDimensions (app_world (page_app pg')) = Some d
         /\ laidOut f d.
Proof.
  destruct pg as [app dims sh]. cbn [page_app panel_dims shared].
  intros I.
  assert (K : forall app' : App,
             app_world app' = app_world app ->
             if sh
             then getWorldDimensions (app_world app') = Some dims
             else exists f d,
                 getFloorPlane (app_world app') = Some f
                 /\ getWorldDimensions (app_world app') = Some d
                 /\ laidOut f d).
  { intros app' E. now rewrite E. }
  destruct e as [defs|b val| |data|oid|t sid p r|tid|did|sceneData|];
    cbn [handle onApp page_app panel_dims shared].
  - now apply K.
  - unfold worldInputChanged. cbn [shared page_app panel_dims].
    destruct sh; [reflexivity|exact I].
  - unfold updateWorldClicked.
    assert (M := initWorld_manager dims
                   (app_runtime app, app_world app)).
    destruct (initWorld dims _) as [rt1 wm1].
    cbn [snd] in M. now rewrite M.
  - apply K. unfold addObstacleClicked.
    destruct (_ || _); [reflexivity|].
    now destruct (addObstacle data _).
  - apply K. unfold deleteObstacleConfirmed.
    now destruct (removeObstacle oid _).
  - apply K. unfold addSensorClicked.
    destruct (getSensorDefinitionById t (app_sensors app));
      [|reflexivity].
    destruct (_ || _); [reflexivity|].
    destruct (addSensor _ _). now rewrite frame_parts.
  - apply K. unfold toggleSensorClicked.
    destruct (getPlacedSensorDataById tid (app_sensors app));
      [|reflexivity].
    now rewrite frame_parts.
  - apply K. unfold deleteSensorConfirmed.
    destruct (removeSensor did _). now rewrite frame_parts.
  - rewrite loadScene_parts. cbn [app_world].
    destruct (sd_world sceneData) as [w|]; [|exact I].
    rewrite initWorld_manager. unfold getFloorPlane, getWorldDimensions.
    cbn [floorPlane world_dimensions].
    eexists. eexists. split; [reflexivity|]. split; [reflexivity|].
    repeat split.
  - apply K. now rewrite frame_parts.
Qed.

(** X25: until the first click on the button that updates the world,
    and again after a scene file with a world has been loaded, the
    floor is the one laid for the bounds of the world manager.  From
    a click on, the bounds of the world manager are the object that
    the inputs of the panel write to: typing a bound changes the
    bounds that [getWorldDimensions] returns and a saved scene
    holds, while the floor, the scene and the registries stay as
    they are. *)
Theorem world_bounds_shared (events : list Event) (b : Bound) (val : Q) :
  let pg := replay raycast events in
  let typed := handle raycast pg (WorldInputChanged b val) in
  (if shared pg
   then getWorldDimensions (app_world (page_app pg))
        = Some (panel_dims pg)
        /\ getWorldDimensions (app_world (page_app typed))
           = Some (setBound b val (panel_dims pg))
   else (exists f d,
            getFloorPlane (app_world (page_app pg)) = Some f
            /\ getWorldDimensions (app_world (page_app pg)) = Some d
            /\ laidOut f d)
        /\ page_app typed = page_app pg)
  /\ getFloorPlane (app_world (page_app typed))
     = getFloorPlane (app_world (page_app pg))
  /\ app_runtime (page_app typed) = app_runtime (page_app pg)
  /\ app_sensors (page_app typed) = app_sensors (page_app pg)
  /\ app_obstacles (page_app typed) = app_obstacles (page_app pg)
  /\ app_beams (page_app typed) = app_beams (page_app pg)
  /\ shared (handle raycast pg UpdateWorldClicked) = true.
Proof.
  intros pg typed.
  assert (I : if shared pg
              then getWorldDimensions (app_world (page_app pg))
                   = Some (panel_dims pg)
              else exists f d,
                  getFloorPlane (app_world (page_app pg)) = Some f
                  /\ getWorldDimensions (app_world (page_app pg))
                     = Some d
                  /\ laidOut f d).
  { unfold pg, replay.
    assert (I0 : if shared start
                 then getWorldDimensions (app_world (page_app start))
                      = Some (panel_dims start)
                 else exists f d,
                     getFloorPlane (app_world (page_app start)) = Some f
                     /\ getWorldDimensions (app_world (page_app start))
                        = Some d
                     /\ laidOut f d).
    { destruct start_parts as (E1 & _ & _ & E4).
      rewrite E4, E1, initWorld_manager.
      unfold getFloorPlane, getWorldDimensions.
      cbn [floorPlane world_dimensions].
      eexists. eexists. split; [reflexivity|]. split; [reflexivity|].
      repeat split. }
    revert I0. generalize start as pg0.
    induction events as [|e events IH]; intros pg0 I0; simpl; auto.
    apply IH. now apply handle_bounds. }
  unfold typed. cbn [handle]. unfold worldInputChanged.
  cbn [page_app].
  destruct (shared pg); cbn [app_world app_runtime app_sensors
                              app_obstacles app_beams];
    unfold getFloorPlane, getWorldDimensions;
    cbn [floorPlane world_dimensions]; repeat split; auto.
Qed.

End Handlers.

Lemma desk_wellFormed : Sensor.wellFormed (app_sensors desk).
Proof.
  apply (wellFormed_addSensor s1 (fst withFloor, catalog)).
  apply wellFormed_catalog.
Qed.

Lemma desk_allResolvable : allResolvable (app_sensors desk).
Proof. intros d [<-|[]]. reflexivity. Qed.

Lemma addSensorClicked_effect_witness :
  Sensor.wellFormed (app_sensors desk)
  /\ (addSensorClicked noHits "lidar360" "s1" (mkVector3 0 1 0)
                       (mkRotation 0 0 0) desk
      = desk).
Proof.
  split; [exact desk_wellFormed|].
  refine (proj1 (addSensorClicked_effect noHits "lidar360" "s1"
                   (mkVector3 0 1 0) (mkRotation 0 0 0) desk
                   desk_wellFormed desk_allResolvable) _).
  right. right. discriminate.
Defined.

Lemma toggleSensorClicked_effect_witness :
  getPlacedSensorDataById "s1" (app_sensors desk) = Some s1
  /\ JSMap.get "s1"
       (beamMeshes (app_beams (toggleSensorClicked noHits "s1" desk)))
     = None.
Proof.
  split; [reflexivity|].
  refine (proj1 (proj2 (proj2 (toggleSensorClicked_effect noHits "s1" desk
                                 s1 desk_wellFormed desk_allResolvable
                                 eq_refl))) _).
  reflexivity.
Defined.

Lemma deleteSensorConfirmed_effect_witness :
  allResolvable (app_sensors desk)
  /\ getPlacedSensorDataById "s1"
       (app_sensors (deleteSensorConfirmed noHits "s1" desk))
     = None.
Proof.
  split; [exact desk_allResolvable|].
  exact (proj1 (deleteSensorConfirmed_effect noHits "s1" desk
                  desk_wellFormed desk_allResolvable)).
Defined.

Lemma addObstacleClicked_effect_witness :
  addObstacleClicked box desk = desk.
Proof.
  refine (proj1 (addObstacleClicked_effect box desk) _).
  right. discriminate.
Defined.

End SessionFacts.

(* ------------------------------------------------------------------ *)
(** ** Release of the beams of every sensor that an evaluation skips *)

Module ReleaseFacts.
Import Three Grid Scene Sensor Obstacle World Beams Views Session Examples
       MoreExamples.
Import JSMapFacts SensorFacts ResourceFacts SensorCallFacts.
Local Open Scope string_scope.
Local Open Scope list_scope.

Section Engine.
Variable raycast : Vector3 Q -> Vector3 R -> Collidable -> list Q.

(** C2: let the sensor manager be one that has received any calls
    since its creation, and let [k] be the id of a sensor that had the
    beam group [g].  If the evaluation skips [k], because the registry
    lists no record under [k] (the sensor has been removed), or
    because every record under [k] is invisible, lacks its definition
    or lacks its group, then after the evaluation [beamMeshes] has no
    entry for [k], [g] is no child of the scene and the geometry of
    every beam of [g] is disposed. *)
Theorem skipped_sensor_released (calls : list SensorCall)
  (rt0 : Runtime) (om : ObstacleManager) (wm : WorldManager)
  (k : string) (g : BeamGroup) (st : Runtime * BeamManager) :
  let sm :=
    snd (fold_left (fun s c => sensorCall c s) calls
                   (rt0, Sensor.empty)) in
  let regs := mkRegistries sm om wm in
  JSMap.get k (beamMeshes (snd st)) = Some g ->
  allocated g (fst st) ->
  (forall s : PlacedSensorData,
      In s (getAllPlacedSensorData sm) -> sensor_id s = k ->
      visible s = false
      \/ getSensorDefinitionById (definitionId s) sm = None
      \/ getPlacedSensorById (sensor_id s) sm = None) ->
  JSMap.get k (beamMeshes (snd (updateBeams raycast regs st))) = None
  /\ released g (fst (updateBeams raycast regs st)).
Proof.
  intros sm regs Hget Hal Hk.
  destruct (sensorCalls_invariant calls (rt0, Sensor.empty)) as (W & A).
  { split; [apply (wellFormed_catalog [])|]. intros d []. }
  fold sm in W, A.
  apply (@unseen_sensor_released raycast regs k g st Hget Hal).
  intros s Hs E. destruct (Hk s Hs E) as [V|[D|P]]; [exact V| |];
    exfalso.
  - apply A in Hs. unfold resolvable in Hs.
    change (sensorManager regs) with sm in Hs.
    rewrite D in Hs. discriminate Hs.
  - unfold getPlacedSensorById in P. apply get_None_not_in in P.
    apply P. rewrite (wellFormed_keys W).
    change (sensorManager regs) with sm in Hs.
    unfold getAllPlacedSensorData in Hs. apply in_map_iff in Hs.
    destruct Hs as ([k' s'] & <- & Hs). simpl.
    rewrite (proj2 (proj1 W) k' s' Hs).
    apply (in_map fst) in Hs. exact Hs.
Qed.

End Engine.

Lemma skipped_sensor_released_witness :
  JSMap.get "s1"
    (beamMeshes
       (snd (updateBeams noHits
               (mkRegistries
                  (snd (fold_left (fun s c => sensorCall c s)
                                  placedThenHidden
                                  (Scene.initial, Sensor.empty)))
                  Obstacle.empty World.empty)
               staleState))) = None
  /\ released staleGroup
       (fst (updateBeams noHits
               (mkRegistries
                  (snd (fold_left (fun s c => sensorCall c s)
                                  placedThenHidden
                                  (Scene.initial, Sensor.empty)))
                  Obstacle.empty World.empty)
               staleState)).
Proof.
  refine (skipped_sensor_released noHits placedThenHidden Scene.initial
            Obstacle.empty World.empty "s1" staleGroup staleState
            eq_refl _ _).
  - split; simpl; [lia|]. intros child [<-|[]]. simpl. lia.
  - intros s [<-|[]] _. left. reflexivity.
Defined.

End ReleaseFacts.

(* ------------------------------------------------------------------ *)
(** ** The distance of a ray, with the world as it was last rendered *)

Module RenderFacts.
Import Three Grid Scene Sensor Obstacle World Beams Views Session Examples
       Render Studio.
Import JSMapFacts DirectionFacts RayFacts SensorFacts SessionFacts.
Local Open Scope string_scope.
Local Open Scope list_scope.
Local Open Scope Q_scope.

Lemma degToRad_zero (q : Q) : q == 0 -> degToRad q = 0%R.
Proof.
  intros E. unfold degToRad. rewrite (Qeq_eqR _ _ E), RMicromega.Q2R_0.
  lra.
Qed.

(** Ray 36 of the single channel of [s1] runs along +Z. *)
Lemma ringGroup_ahead :
  rayDirection (quaternion ringGroup) singleChannel 0 36 = ahead.
Proof.
  unfold quaternion. rewrite rayDirection_rotations.
  assert (H : hAngleRad singleChannel 36 = 0%R)
    by (apply degToRad_zero; reflexivity).
  assert (V : vAngleRad singleChannel 0 = 0%R) by reflexivity.
  rewrite H, V. unfold ringGroup, eulerOfRotation.
  cbn [group_rotation ex ey ez roll pitch yaw].
  rewrite (degToRad_zero 0) by reflexivity.
  unfold rotateY, rotateX, rotateZ, localDirection, ahead.
  cbn [vx vy vz]. rewrite sin_0, cos_0. f_equal; ring.
Qed.

Section Geometry.
Variable meets : Vector3 Q -> Vector3 R -> Shape -> Matrix -> list Q.

Lemma frame_keeps
  (raycast : Vector3 Q -> Vector3 R -> Collidable -> list Q) (app : App) :
  registries (frame raycast app) = registries app.
Proof.
  unfold registries.
  destruct (frame_registries raycast app) as (A & B & C).
  now rewrite A, B, C.
Qed.

Lemma find_objectId (l : list Collidable) (c : Collidable) :
  NoDup (map objectId l) -> In c l ->
  find (fun c' => Nat.eqb (objectId c') (objectId c)) l = Some c.
Proof.
  induction l as [|a l IH]; intros N H; [destruct H|].
  inversion N as [|x xs Hx Hxs]; subst. simpl.
  destruct H as [->|H].
  - now rewrite Nat.eqb_refl.
  - destruct (Nat.eqb_spec (objectId a) (objectId c)) as [E|_].
    + exfalso. apply Hx. rewrite E. now apply in_map.
    + now apply IH.
Qed.

(** A render gives every mesh of the managers the matrix of its
    position and rotation. *)
Lemma updateMatrixWorld_composed (regs : Registries) (mw : Matrices)
  (c : Collidable) :
  NoDup (map objectId (meshes regs)) -> In c (meshes regs) ->
  updateMatrixWorld regs mw (objectId c) = composed c.
Proof.
  intros N H. unfold updateMatrixWorld.
  now rewrite (find_objectId _ _ N H).
Qed.

Lemma flat_map_agree (A B : Type) (f g : A -> list B) (l : list A) :
  (forall a, In a l -> f a = g a) -> flat_map f l = flat_map g l.
Proof.
  induction l as [|a l IH]; intros H; simpl; [reflexivity|].
  rewrite (H a) by now left. f_equal. apply IH.
  intros b Hb. apply H. now right.
Qed.

(** X26: once the scene has been rendered, the distance resolved for
    ray [(i, j)] of a sensor is the nearest intersection of the ray
    with the obstacles of the obstacle manager, each a box of its
    dimensions at its position, and with the floor of the world
    manager, a plane of its size laid flat at its position.  If the
    nearest intersection in front of the origin is at distance [d]
    and [d < maxRange], the resolved distance is [d]; if there is none
    within [maxRange], it is [maxRange]. *)
Theorem rayDistance_rendered (regs : Registries) (mw : Matrices)
  (definition : SensorDefinition) (sensorGroup : Group) (i j : Z) :
  NoDup (map objectId (meshes regs)) ->
  let origin := group_position sensorGroup in
  let direction := rayDirection (quaternion sensorGroup) definition i j in
  let hits :=
    flat_map (fun m : Mesh =>
                meets origin direction
                      (BoxShape (parameters (geometry m)))
                      (mkMatrix (mesh_position m) false))
             (getAllObstacles (obstacleManager regs))
    ++ match getFloorPlane (worldManager regs) with
       | Some f =>
           meets origin direction
                 (PlaneShape (floor_sizeX f) (floor_sizeZ f))
                 (mkMatrix (floor_position f) true)
       | None => []
       end in
  let resolved :=
    rayDistance (raycastWith meets (updateMatrixWorld regs mw)) regs
                definition sensorGroup i j in
  (forall d : Q,
      In d hits -> 0 <= d -> d < maxRange definition ->
      (forall d' : Q, In d' hits -> 0 <= d' -> d <= d') ->
      resolved == d)
  /\ ((forall d' : Q,
          In d' hits -> ~ (0 <= d' /\ d' <= maxRange definition)) ->
      resolved = maxRange definition).
Proof.
  intros N origin direction hits resolved.
  assert (E : flat_map (raycastWith meets (updateMatrixWorld regs mw)
                          origin direction)
                       (collidableObjects regs)
              = hits).
  { rewrite (flat_map_agree _ _ _ (raycastPlaced meets origin direction)).
    - unfold collidableObjects, hits. rewrite flat_map_app. f_equal.
      + generalize (getAllObstacles (obstacleManager regs)) as l.
        induction l as [|m l IH]; simpl; [reflexivity|].
        now rewrite IH.
      + destruct (getFloorPlane (worldManager regs)); simpl;
          [apply app_nil_r | reflexivity].
    - intros c Hc. unfold raycastWith, raycastPlaced.
      now rewrite (updateMatrixWorld_composed regs mw c N Hc). }
  unfold resolved. rewrite <- E.
  apply (@rayDistance_nearest
           (raycastWith meets (updateMatrixWorld regs mw)) regs
           definition sensorGroup i j).
Qed.

(** C1 does not hold in the evaluation that follows the creation of
    a mesh.  The sensor [s1] looks along +Z from (5.25, 0.5, 0), with
    a range of 20; the scene has been rendered, and then the obstacle
    [crate], 2 deep, is added at (5, 0.5, 5).  For a geometry in
    which the ray meets that box at distance 4, misses the same box
    set around the origin of the world, and meets no plane laid flat:
    the nearest intersection of the ray with the obstacles and the
    floor is at distance 4, below the range.  In the evaluation that
    follows the click, the mesh of [crate] still has the matrix it
    was created with, the distance resolved is 20, and the beam drawn
    for the ray is 20 long.  After the render that ends that frame
    the distance resolved is 4. *)
Theorem rayDistance_stale :
  let origin := group_position ringGroup in
  let shape := BoxShape (dimensions crate) in
  meets origin ahead shape (mkMatrix (obstacle_position crate) false)
  = [4] ->
  meets origin ahead shape identityMatrix = [] ->
  (forall (sizeX sizeZ : Q) (m : Matrix),
      laidFlat m = true ->
      meets origin ahead (PlaneShape sizeX sizeZ) m = []) ->
  let regs := registries (fst clicked) in
  let after := animate meets clicked in
  (getPlacedSensorDataById "s1" (sensorManager regs) = Some ringAt
   /\ getSensorDefinitionById (definitionId ringAt) (sensorManager regs)
      = Some singleChannel
   /\ getPlacedSensorById "s1" (sensorManager regs) = Some ringGroup
   /\ In (0%Z, 36%Z) (rays singleChannel)
   /\ rayDirection (quaternion ringGroup) singleChannel 0 36 = ahead)
  /\ (getAllObstacles (obstacleManager regs) = [crateMesh]
      /\ flat_map (raycastPlaced meets origin ahead)
           (map ObstacleMesh (getAllObstacles (obstacleManager regs))
            ++ match getFloorPlane (worldManager regs) with
               | Some f => [Floor f]
               | None => []
               end)
         = [4]
      /\ 4 < maxRange singleChannel)
  /\ snd clicked (mesh_id crateMesh) = identityMatrix
  /\ rayDistance (raycastWith meets (snd clicked)) regs
                 singleChannel ringGroup 0 36 = 20
  /\ (exists shapes : list BeamShape,
        JSMap.get "s1" (visuals (app_beams (fst after)))
        = Some ("beams_s1", true, shapes)
        /\ In (shapeOfSample (beamLayout singleChannel)
                             (mkSample origin ahead 20))
              shapes)
  /\ snd after (mesh_id crateMesh)
     = mkMatrix (mesh_position crateMesh) false
  /\ rayDistance (raycastWith meets (snd after)) (registries (fst after))
                 singleChannel ringGroup 0 36 = 4.
Proof.
  intros origin shape H1 H2 H3 regs after.
  assert (O : getAllObstacles (obstacleManager regs) = [crateMesh])
    by reflexivity.
  destruct (getFloorPlane (worldManager regs)) as [f|] eqn:F;
    [|discriminate F].
  assert (C : collidableObjects regs = [ObstacleMesh crateMesh; Floor f]).
  { unfold collidableObjects. now rewrite O, F. }
  assert (I : floor_id f = 1%nat).
  { lazy in F. now injection F as <-. }
  assert (P : flat_map (raycastPlaced meets origin ahead)
                       [ObstacleMesh crateMesh; Floor f] = [4]).
  { cbn [flat_map]. unfold raycastPlaced at 2. cbn [shapeOf composed].
    rewrite (H3 _ _ (mkMatrix (floor_position f) true) eq_refl).
    change (raycastPlaced meets origin ahead (ObstacleMesh crateMesh))
      with (meets origin ahead shape
                  (mkMatrix (obstacle_position crate) false)).
    now rewrite H1. }
  assert (R : registries (frame (raycastWith meets (snd clicked))
                                (fst clicked))
              = registries (fst clicked))
    by exact (frame_keeps (raycastWith meets (snd clicked))
                          (fst clicked)).
  assert (J : In (0%Z, 36%Z) (rays singleChannel)).
  { unfold rays. apply in_prod; [now left|].
    change (numHorizontalSteps singleChannel) with 72%Z.
    unfold loopIndices. apply in_map_iff. exists 36%nat.
    split; [reflexivity|]. apply in_seq. simpl. lia. }
  assert (D : rayDistance (raycastWith meets (snd clicked)) regs
                          singleChannel ringGroup 0 36 = 20).
  { unfold rayDistance. rewrite ringGroup_ahead, C.
    unfold intersectObjects. cbn [flat_map].
    unfold intersectObject, raycastWith. cbn [shapeOf objectId].
    change (snd clicked (mesh_id crateMesh)) with identityMatrix.
    rewrite (H3 _ _ (snd clicked (floor_id f)))
      by (rewrite I; reflexivity).
    change (parameters (geometry crateMesh)) with (dimensions crate).
    fold shape. fold origin. rewrite H2. reflexivity. }
  split; [|split; [|split; [|split; [|split; [|split]]]]].
  - split; [reflexivity|]. split; [reflexivity|].
    split; [reflexivity|]. split; [exact J | exact ringGroup_ahead].
  - split; [exact O|]. split; [|reflexivity].
    rewrite O. exact P.
  - reflexivity.
  - exact D.
  - unfold after, animate. cbn [fst].
    rewrite (frame_shows (raycastWith meets (snd clicked)) (fst clicked)).
    + fold regs.
      exists (map (shapeOfSample (beamLayout singleChannel))
                  (filter drawn
                     (map (raySample (raycastWith meets (snd clicked))
                                     regs singleChannel ringGroup)
                          (rays singleChannel)))).
      split; [reflexivity|].
      apply in_map_iff.
      exists (raySample (raycastWith meets (snd clicked)) regs
                        singleChannel ringGroup (0%Z, 36%Z)).
      assert (E : raySample (raycastWith meets (snd clicked)) regs
                            singleChannel ringGroup (0%Z, 36%Z)
                  = mkSample origin ahead 20).
      { unfold raySample. cbn [fst snd].
        now rewrite ringGroup_ahead, D. }
      split; [now rewrite E|].
      apply filter_In. split; [now apply in_map|].
      rewrite E. reflexivity.
    + apply (wellFormed_addSensor ringAt
               (app_runtime (page_app start),
                loadSensorDefinitions [singleChannel] Sensor.empty)).
      apply (wellFormed_catalog [singleChannel]).
    + intros d [<-|[]]. reflexivity.
  - unfold after, animate. cbn [snd fst]. rewrite R. reflexivity.
  - unfold after, animate. cbn [snd fst]. rewrite !R. fold regs.
    unfold rayDistance. rewrite ringGroup_ahead, C.
    unfold intersectObjects. cbn [flat_map].
    unfold intersectObject, raycastWith. cbn [shapeOf objectId].
    change (updateMatrixWorld regs (snd clicked) (mesh_id crateMesh))
      with (mkMatrix (obstacle_position crate) false).
    rewrite (H3 _ _ (updateMatrixWorld regs (snd clicked) (floor_id f)))
      by (rewrite I; reflexivity).
    change (parameters (geometry crateMesh)) with (dimensions crate).
    fold shape. fold origin. rewrite H1. reflexivity.
Qed.

End Geometry.

Lemma clicked_distinct :
  NoDup (map objectId (meshes (registries (fst clicked)))).
Proof.
  lazy. repeat constructor; simpl; intuition discriminate.
Qed.

Lemma rayDistance_rendered_witness :
  NoDup (map objectId (meshes (registries (fst clicked))))
  /\ rayDistance
       (raycastWith alongZ
          (updateMatrixWorld (registries (fst clicked)) (snd clicked)))
       (registries (fst clicked)) singleChannel ringGroup 0 36 == 4.
Proof.
  split; [exact clicked_distinct|].
  refine (proj1 (rayDistance_rendered alongZ (registries (fst clicked))
                   (snd clicked) singleChannel ringGroup 0 36
                   clicked_distinct) 4 _ _ _ _).
  - lazy. left. reflexivity.
  - discriminate.
  - reflexivity.
  - intros d' H _. lazy in H. destruct H as [<-|[]]. discriminate.
Defined.

Lemma alongZ_flat (origin : Vector3 Q) (direction : Vector3 R)
  (sizeX sizeZ : Q) (m : Matrix) :
  laidFlat m = true -> alongZ origin direction (PlaneShape sizeX sizeZ) m = [].
Proof. intros E. unfold alongZ. now rewrite E. Qed.

Lemma rayDistance_stale_witness :
  alongZ (group_position ringGroup) ahead (BoxShape (dimensions crate))
         (mkMatrix (obstacle_position crate) false) = [4]
  /\ alongZ (group_position ringGroup) ahead (BoxShape (dimensions crate))
            identityMatrix = []
  /\ rayDistance (raycastWith alongZ (snd clicked))
                 (registries (fst clicked)) singleChannel ringGroup 0 36
     = 20
  /\ rayDistance (raycastWith alongZ (snd (animate alongZ clicked)))
                 (registries (fst (animate alongZ clicked)))
                 singleChannel ringGroup 0 36
     = 4.
Proof.
  split; [reflexivity|]. split; [reflexivity|].
  destruct (rayDistance_stale alongZ eq_refl eq_refl
              (alongZ_flat (group_position ringGroup) ahead))
    as (_ & _ & _ & A & _ & _ & B).
  split; [exact A | exact B].
Defined.

End RenderFacts.
